(** * SnowTransfer: the endpoint wrappers and the request scheduler

    Part I embeds the endpoint-wrapper classes of [src/methods]
    ([GuildMethods], [GuildAssetsMethods], [InviteMethods], [BotMethods],
    [GuildTemplateMethods], [AuditLogMethods]).  Every wrapper is a term of
    [Call]: the calls it makes to [requestHandler.request] and the way it
    completes.

    Part II models the dispatcher behind [requestHandler.request] (bucket
    store, bucket queues, global limiter, response interpreter), whose code
    is not part of the sources at hand, and states the invariants of its
    reachable states.

    The facts about the wrappers and about the dispatcher follow the
    definitions. *)

From Stdlib Require Import String Ascii List ZArith Bool Lia.
From Stdlib Require Import Floats.SpecFloat DecimalString.
From Stdlib Require DecimalPos DecimalZ.
From stdpp Require Import gmap strings list fin_maps.

Local Open Scope string_scope.

(** ** JavaScript values *)

(** A [number] is an IEEE-754 double: zeros, infinities, NaN and finite
    values [(-1)^s * m * 2^e]. *)
Definition number : Type := spec_float.

(** The double nearest to an integer. *)
Definition number_of_Z (z : Z) : number := binary_normalize 53 1024 z 0 false.

(** [x < y] and [x > y] on numbers; both are false when an operand is NaN. *)
Definition js_lt (x y : number) : bool := SFltb x y.
Definition js_gt (x y : number) : bool := SFltb y x.
(** [x <= y] on numbers, false when an operand is NaN. *)
Definition js_le (x y : number) : bool := SFleb x y.

Definition is_NaN (x : number) : bool :=
  match x with S754_nan => true | _ => false end.

#[local] Unset Elimination Schemes.
Inductive value : Type :=
| VUndefined
| VNull
| VBoolean (b : bool)
| VNumber (n : number)
| VString (s : string)
| VObject (props : list (string * value))
| VArray (items : list value).
#[local] Set Elimination Schemes.

(** A plain object: its own enumerable string-keyed properties in the order
    [Object.keys] lists them.  That order is not free: the keys that are
    integer indices come first, in ascending numeric order, and the other
    keys follow in the order of their creation.  So every object has a
    listing, and not every list is the listing of an object. *)
Definition JsObject : Type := list (string * value).

(** A non-empty string of decimal digits.  The integer indices, the keys
    that [Object.keys] moves to the front, are among these strings. *)
Definition digits_only (k : string) : bool :=
  negb (String.eqb k "")
  && forallb (fun c => (48 <=? nat_of_ascii c)%nat && (nat_of_ascii c <=? 57)%nat)
             (list_ascii_of_string k).

(** [Object.keys(o)] *)
Definition Object_keys (o : JsObject) : list string := map fst o.

(** [o[k]]: the value of property [k], [undefined] when [o] has none. *)
Fixpoint get (o : JsObject) (k : string) : value :=
  match o with
  | [] => VUndefined
  | (k', v) :: rest => if String.eqb k' k then v else get rest k
  end.

(** [Array.prototype.join(sep)] on an array of strings. *)
Definition Array_join (sep : string) (l : list string) : string :=
  String.concat sep l.

(** [Array.prototype.toString()], which is what a template literal applies
    to an interpolated array: [join(",")]. *)
Definition Array_toString (l : list string) : string := Array_join "," l.

(** The integer a finite double denotes, when it denotes one. *)
Definition integral_magnitude (m : positive) (e : Z) : option N :=
  if (0 <=? e)%Z then Some (N.pos m * 2 ^ Z.to_N e)%N
  else
    let d := (2 ^ Z.to_N (- e))%N in
    if (N.pos m mod d =? 0)%N then Some (N.pos m / d)%N else None.

Section ToString.

(** [Number::toString] prints an integer of magnitude below 2^53 as its
    decimal digits: there the shortest digits that read back as the double
    are the digits of the integer.  The digits of every other finite double
    (a larger integer, printed with its shortest round-trip digits and
    zeros behind them, a fraction, exponent notation) come from the
    runtime. *)
Variable fraction_digits : number -> string.

Definition Number_toString (x : number) : string :=
  match x with
  | S754_nan => "NaN"
  | S754_zero _ => "0"
  | S754_infinity s => if s then "-Infinity" else "Infinity"
  | S754_finite s m e =>
      match integral_magnitude m e with
      | Some n =>
          if (n <? 2 ^ 53)%N
          then (if s then "-" else "") +:+ NilZero.string_of_uint (N.to_uint n)
          else fraction_digits x
      | None => fraction_digits x
      end
  end.

(** [ToString(v)], the conversion a template literal applies to [${v}]. *)
Fixpoint ToString (v : value) : string :=
  match v with
  | VUndefined => "undefined"
  | VNull => "null"
  | VBoolean b => if b then "true" else "false"
  | VNumber n => Number_toString n
  | VString s => s
  | VObject _ => "[object Object]"
  | VArray items =>
      Array_toString
        (map (fun x => match x with
                       | VUndefined | VNull => ""
                       | _ => ToString x
                       end) items)
  end.

End ToString.

(** [ToBoolean(v)]: what [v ? a : b] and [v || d] test. *)
Definition ToBoolean (v : value) : bool :=
  match v with
  | VUndefined | VNull => false
  | VBoolean b => b
  | VNumber n =>
      match n with
      | S754_nan | S754_zero _ => false
      | _ => true
      end
  | VString s => negb (String.eqb s "")
  | VObject _ | VArray _ => true
  end.

(** An optional argument [x?: string] as a value. *)
Definition optional_string (x : option string) : value :=
  match x with
  | Some s => VString s
  | None => VUndefined
  end.

(** ** Calls to the dispatcher *)

(** The four arguments of [requestHandler.request(url, verb, dataKind, data)];
    an omitted [data] is [undefined]. *)
Record DispatcherRequest : Type := mkRequest {
  url : string;
  verb : string;
  dataKind : string;
  payload : value
}.

Inductive JsError : Type :=
| RangeError (message : string).

(** The promise a dispatcher call returns, named by its completion handle. *)
Definition Handle : Type := nat.

(** What the caller of a wrapper holds once the call has returned. *)
Inductive Returned : Type :=
| FromDispatcher (h : Handle)      (* the promise of the dispatcher call *)
| RejectedWith (e : JsError).      (* a promise rejected within the call *)

Inductive Completion : Type :=
| Returns (r : Returned)
| Throws (e : JsError).

(** A wrapper call: the dispatcher calls it makes, each continued with the
    promise the dispatcher returned, and its completion. *)
Inductive Call : Type :=
| Done (c : Completion)
| Request (r : DispatcherRequest) (k : Handle -> Call).

(** [return this.requestHandler.request(url, verb, dataKind, data)] *)
Definition request (u v d : string) (data : value) : Call :=
  Request (mkRequest u v d data) (fun h => Done (Returns (FromDispatcher h))).

(** An [async] method: a [throw] in its body rejects the promise the call
    returns instead of reaching the caller as an exception; a returned
    promise is handed on. *)
Fixpoint async (body : Call) : Call :=
  match body with
  | Done (Throws e) => Done (Returns (RejectedWith e))
  | Done (Returns r) => Done (Returns r)
  | Request r k => Request r (fun h => async (k h))
  end.

(** Running a call against a dispatcher with state [S]: the final state, the
    requests handed to the dispatcher in order, and the completion. *)
Section Run.

Context {St : Type}.
Variable dispatch : St -> DispatcherRequest -> St * Handle.

Fixpoint run (c : Call) (s : St) : St * list DispatcherRequest * Completion :=
  match c with
  | Done r => (s, [], r)
  | Request r k =>
      let '(s1, h) := dispatch s r in
      let '(s2, rs, out) := run (k h) s1 in
      (s2, r :: rs, out)
  end.

Definition requests_of (c : Call) (s : St) : list DispatcherRequest :=
  snd (fst (run c s)).

End Run.

(** ** The modules the wrappers import *)

(** [Endpoints]: the route builders the wrappers use.  Their bodies are not
    among the sources at hand; each is a string or a function from ids to a
    string. *)
Record EndpointsT : Type := {
  GATEWAY : string;
  GATEWAY_BOT : string;
  GUILDS : string;
  GUILD : string -> string;
  GUILD_AUDIT_LOGS : string -> string;
  GUILD_BAN : string -> string -> string;
  GUILD_BANS : string -> string;
  GUILD_CHANNELS : string -> string;
  GUILD_EMOJI : string -> string -> string;
  GUILD_EMOJIS : string -> string;
  GUILD_INTEGRATION : string -> string -> string;
  GUILD_INTEGRATIONS : string -> string;
  GUILD_INVITES : string -> string;
  GUILD_MEMBER : string -> string -> string;
  GUILD_MEMBER_ROLE : string -> string -> string -> string;
  GUILD_MEMBERS : string -> string;
  GUILD_MEMBERS_SEARCH : string -> string;
  GUILD_PREVIEW : string -> string;
  GUILD_PRUNE : string -> string;
  GUILD_ROLE : string -> string -> string;
  GUILD_ROLES : string -> string;
  GUILD_STICKER : string -> string -> string;
  GUILD_STICKERS : string -> string;
  GUILD_TEMPLATE : string -> string -> string;
  GUILD_TEMPLATES : string -> string;
  GUILD_THREADS_ACTIVE : string -> string;
  GUILD_VANITY : string -> string;
  GUILD_VOICE_REGIONS : string -> string;
  GUILD_VOICE_STATE_USER : string -> string -> string;
  GUILD_WELCOME_SCREEN : string -> string;
  GUILD_WIDGET : string -> string;
  GUILD_WIDGET_SETTINGS : string -> string;
  INVITES : string -> string;
  OAUTH2_APPLICATION : string -> string;
  STICKER : string -> string;
  TEMPLATE : string -> string
}.

(** [Constants]: the two bounds [searchGuildMembers] reads. *)
Record ConstantsT : Type := {
  SEARCH_MEMBERS_MIN_RESULTS : number;
  SEARCH_MEMBERS_MAX_RESULTS : number
}.

(** The [options] of [searchGuildMembers]:
    [{ query: string; limit?: number; }]. *)
Record SearchOptions : Type := {
  query : string;
  limit : option number
}.

(** ** The wrappers *)

Section Methods.

Variable Endpoints : EndpointsT.
Variable Constants : ConstantsT.
Variable fraction_digits : number -> string.

Local Abbreviation str := (ToString fraction_digits).

(** The expression three wrappers share,
    [Object.keys(o).map((v, index) => `${index === 0 ? "?" : "&"}${v}=${o[v]}`)] *)
Definition query_fragments (o : JsObject) : list string :=
  imap (fun index v =>
          (if Nat.eqb index 0 then "?" else "&") +:+ v +:+ "=" +:+ str (get o v))
       (Object_keys o).

(** [reason ? { reason } : undefined] *)
Definition reason_payload (reason : option string) : value :=
  if ToBoolean (optional_string reason)
  then VObject [("reason", optional_string reason)]
  else VUndefined.

(** *** GuildMethods *)

Definition createGuild (data : value) : Call :=
  async (request (GUILDS Endpoints) "post" "json" data).

Definition getGuild (guildId : string) (with_counts : option bool) : Call :=
  async (request
           (GUILD Endpoints guildId +:+
            match with_counts with
            | Some b => "?with_counts=" +:+ str (VBoolean b)
            | None => ""
            end)
           "get" "json" VUndefined).

Definition getGuildPreview (guildId : string) : Call :=
  async (request (GUILD_PREVIEW Endpoints guildId) "get" "json" VUndefined).

Definition updateGuild (guildId : string) (data : value) : Call :=
  async (request (GUILD Endpoints guildId) "patch" "json" data).

Definition deleteGuild (guildId : string) : Call :=
  async (request (GUILD Endpoints guildId) "delete" "json" VUndefined).

Definition getGuildChannels (guildId : string) : Call :=
  async (request (GUILD_CHANNELS Endpoints guildId) "get" "json" VUndefined).

Definition createGuildChannel (guildId : string) (data : value) : Call :=
  async (request (GUILD_CHANNELS Endpoints guildId) "post" "json" data).

Definition updateChannelPositions (guildId : string) (data : value) : Call :=
  async (request (GUILD_CHANNELS Endpoints guildId) "patch" "json" data).

Definition listActiveThreads (guildId : string) : Call :=
  async (request (GUILD_THREADS_ACTIVE Endpoints guildId) "get" "json" VUndefined).

Definition getGuildMember (guildId memberId : string) : Call :=
  async (request (GUILD_MEMBER Endpoints guildId memberId) "get" "json" VUndefined).

Definition getGuildMembers (guildId : string) (data : value) : Call :=
  async (request (GUILD_MEMBERS Endpoints guildId) "get" "json" data).

(** The [options] object as handed to the dispatcher, for an object that
    has the declared properties and no other, [limit] being absent when it
    is undefined.  The source hands over the object it was given: further
    properties, or a [limit] property that is there with the value
    [undefined], go with it and have no counterpart here. *)
Definition SearchOptions_value (options : SearchOptions) : value :=
  VObject (("query", VString (query options)) ::
           match limit options with
           | Some n => [("limit", VNumber n)]
           | None => []
           end).

(** [options.limit !== undefined && (options.limit < MIN || options.limit > MAX)] *)
Definition limit_rejected (options : SearchOptions) : bool :=
  match limit options with
  | Some l =>
      js_lt l (SEARCH_MEMBERS_MIN_RESULTS Constants)
      || js_gt l (SEARCH_MEMBERS_MAX_RESULTS Constants)
  | None => false
  end.

Definition searchGuildMembers_message : string :=
  "Limit for searching guild members has to be between " +:+
  str (VNumber (SEARCH_MEMBERS_MIN_RESULTS Constants)) +:+ " and " +:+
  str (VNumber (SEARCH_MEMBERS_MAX_RESULTS Constants)).

Definition searchGuildMembers (guildId : string) (options : SearchOptions) : Call :=
  async (if limit_rejected options
         then Done (Throws (RangeError searchGuildMembers_message))
         else request (GUILD_MEMBERS_SEARCH Endpoints guildId) "get" "json"
                      (SearchOptions_value options)).

Definition addGuildMember (guildId memberId : string) (data : value) : Call :=
  async (request (GUILD_MEMBER Endpoints guildId memberId) "put" "json" data).

Definition updateGuildMember (guildId memberId : string) (data : value) : Call :=
  async (request (GUILD_MEMBER Endpoints guildId memberId) "patch" "json" data).

Definition updateSelf (guildId : string) (data : value) : Call :=
  async (request (GUILD_MEMBER Endpoints guildId "@me") "patch" "json" data).

Definition addGuildMemberRole (guildId memberId roleId : string) (data : value) : Call :=
  async (request (GUILD_MEMBER_ROLE Endpoints guildId memberId roleId) "put" "json" data).

Definition removeGuildMemberRole (guildId memberId roleId : string)
    (reason : option string) : Call :=
  async (request (GUILD_MEMBER_ROLE Endpoints guildId memberId roleId) "delete" "json"
                 (reason_payload reason)).

Definition removeGuildMember (guildId memberId : string) (reason : option string) : Call :=
  async (request (GUILD_MEMBER Endpoints guildId memberId) "delete" "json"
                 (reason_payload reason)).

Definition getGuildBans (guildId : string) (options : option JsObject) : Call :=
  async (request
           (GUILD_BANS Endpoints guildId +:+
            match options with
            | Some o => Array_toString (query_fragments o)
            | None => ""
            end)
           "get" "json" VUndefined).

Definition getGuildBan (guildId memberId : string) : Call :=
  async (request (GUILD_BAN Endpoints guildId memberId) "get" "json" VUndefined).

Definition createGuildBan (guildId memberId : string) (data : value) : Call :=
  async (request (GUILD_BAN Endpoints guildId memberId) "put" "json" data).

Definition removeGuildBan (guildId memberId : string) (reason : option string) : Call :=
  async (request (GUILD_BAN Endpoints guildId memberId) "delete" "json"
                 (reason_payload reason)).

Definition getGuildRoles (guildId : string) : Call :=
  async (request (GUILD_ROLES Endpoints guildId) "get" "json" VUndefined).

Definition createGuildRole (guildId : string) (data : value) : Call :=
  async (request (GUILD_ROLES Endpoints guildId) "post" "json" data).

Definition updateGuildRolePositions (guildId : string) (data : value) : Call :=
  async (request (GUILD_ROLES Endpoints guildId) "patch" "json" data).

Definition updateGuildRole (guildId roleId : string) (data : value) : Call :=
  async (request (GUILD_ROLE Endpoints guildId roleId) "patch" "json" data).

Definition removeGuildRole (guildId roleId : string) (reason : option string) : Call :=
  async (request (GUILD_ROLE Endpoints guildId roleId) "delete" "json"
                 (reason_payload reason)).

Definition getGuildPruneCount (guildId : string) (query : option JsObject) : Call :=
  async (request
           (GUILD_PRUNE Endpoints guildId +:+
            match query with
            | Some o => Array_join "" (query_fragments o)
            | None => ""
            end)
           "get" "json" VUndefined).

Definition startGuildPrune (guildId : string) (data : value) : Call :=
  async (request (GUILD_PRUNE Endpoints guildId) "post" "json" data).

Definition getGuildVoiceRegions (guildId : string) : Call :=
  async (request (GUILD_VOICE_REGIONS Endpoints guildId) "get" "json" VUndefined).

Definition getGuildInvites (guildId : string) : Call :=
  async (request (GUILD_INVITES Endpoints guildId) "get" "json" VUndefined).

Definition getGuildIntegrations (guildId : string) : Call :=
  async (request (GUILD_INTEGRATIONS Endpoints guildId) "get" "json" VUndefined).

Definition removeGuildIntegration (guildId integrationId : string)
    (reason : option string) : Call :=
  async (request (GUILD_INTEGRATION Endpoints guildId integrationId) "delete" "json"
                 (reason_payload reason)).

Definition getGuildWidgetSettings (guildId : string) : Call :=
  async (request (GUILD_WIDGET_SETTINGS Endpoints guildId) "get" "json" VUndefined).

Definition updateGuildWidgetSettings (guildId : string) (data : value) : Call :=
  async (request (GUILD_WIDGET_SETTINGS Endpoints guildId) "patch" "json" data).

Definition getGuildWidget (guildId : string) : Call :=
  async (request (GUILD_WIDGET Endpoints guildId) "get" "json" VUndefined).

Definition getGuildVanityURL (guildId : string) : Call :=
  async (request (GUILD_VANITY Endpoints guildId) "get" "json" VUndefined).

Definition getGuildWelcomeScreen (guildId : string) : Call :=
  async (request (GUILD_WELCOME_SCREEN Endpoints guildId) "get" "json" VUndefined).

Definition editGuildWelcomeScreen (guildId : string) (data : value) : Call :=
  async (request (GUILD_WELCOME_SCREEN Endpoints guildId) "patch" "json" data).

(** The two voice-state wrappers are not [async]. *)
Definition updateCurrentUserVoiceState (guildId : string) (data : value) : Call :=
  request (GUILD_VOICE_STATE_USER Endpoints guildId "@me") "patch" "json" data.

Definition updateUserVoiceState (guildId userId : string) (data : value) : Call :=
  request (GUILD_VOICE_STATE_USER Endpoints guildId userId) "patch" "json" data.

(** *** GuildAssetsMethods *)

Definition getEmojis (guildId : string) : Call :=
  async (request (GUILD_EMOJIS Endpoints guildId) "get" "json" VUndefined).

Definition getEmoji (guildId emojiId : string) : Call :=
  async (request (GUILD_EMOJI Endpoints guildId emojiId) "get" "json" VUndefined).

Definition createEmoji (guildId : string) (data : value) : Call :=
  async (request (GUILD_EMOJIS Endpoints guildId) "post" "json" data).

Definition updateEmoji (guildId emojiId : string) (data : value) : Call :=
  async (request (GUILD_EMOJI Endpoints guildId emojiId) "patch" "json" data).

Definition deleteEmoji (guildId emojiId : string) (reason : option string) : Call :=
  async (request (GUILD_EMOJI Endpoints guildId emojiId) "delete" "json"
                 (reason_payload reason)).

Definition getSticker (stickerId : string) : Call :=
  async (request (STICKER Endpoints stickerId) "get" "json" VUndefined).

Definition getGuildStickers (guildId : string) : Call :=
  async (request (GUILD_STICKERS Endpoints guildId) "get" "json" VUndefined).

Definition getGuildSticker (guildId stickerId : string) : Call :=
  async (request (GUILD_STICKER Endpoints guildId stickerId) "get" "json" VUndefined).

Definition createGuildSticker (guildId : string) (data : value) : Call :=
  request (GUILD_STICKERS Endpoints guildId) "post" "multipart" data.

Definition updateGuildSticker (guildId stickerId : string) (data : value) : Call :=
  request (GUILD_STICKER Endpoints guildId stickerId) "patch" "json" data.

Definition deleteGuildSticker (guildId stickerId : string) (reason : option string) : Call :=
  request (GUILD_STICKER Endpoints guildId stickerId) "delete" "json"
          (reason_payload reason).

(** *** InviteMethods *)

Definition getInvite (inviteId : string) (query : option JsObject) : Call :=
  async (request
           (INVITES Endpoints inviteId +:+
            match query with
            | Some o => Array_join "" (query_fragments o)
            | None => ""
            end)
           "get" "json" VUndefined).

Definition deleteInvite (inviteId : string) : Call :=
  async (request (INVITES Endpoints inviteId) "delete" "json" VUndefined).

(** *** BotMethods *)

Definition getGateway : Call :=
  request (GATEWAY Endpoints) "get" "json" VUndefined.

Definition getGatewayBot : Call :=
  request (GATEWAY_BOT Endpoints) "get" "json" VUndefined.

(** [Endpoints.OAUTH2_APPLICATION(appID || '@me')] *)
Definition getOAuthApplication (appID : option string) : Call :=
  request
    (OAUTH2_APPLICATION Endpoints
       (match appID with
        | Some s => if ToBoolean (VString s) then s else "@me"
        | None => "@me"
        end))
    "get" "json" VUndefined.

(** *** GuildTemplateMethods *)

Definition getGuildTemplate (code : string) : Call :=
  request (TEMPLATE Endpoints code) "get" "json" VUndefined.

Definition createGuildFromGuildTemplate (code : string) (options : value) : Call :=
  request (TEMPLATE Endpoints code) "post" "json" options.

Definition getGuildTemplates (guildId : string) : Call :=
  request (GUILD_TEMPLATES Endpoints guildId) "get" "json" VUndefined.

Definition createGuildTemplate (guildId : string) (data : value) : Call :=
  request (GUILD_TEMPLATES Endpoints guildId) "post" "json" data.

Definition syncGuildTemplate (guildId code : string) : Call :=
  request (GUILD_TEMPLATE Endpoints guildId code) "put" "json" VUndefined.

Definition modifyGuildTemplate (guildId code : string) (data : value) : Call :=
  request (GUILD_TEMPLATE Endpoints guildId code) "patch" "json" data.

Definition deleteGuildTemplate (guildId code : string) : Call :=
  request (GUILD_TEMPLATE Endpoints guildId code) "delete" "json" VUndefined.

(** *** AuditLogMethods *)

Definition getAuditLog (guildId : string) (data : value) : Call :=
  async (request (GUILD_AUDIT_LOGS Endpoints guildId) "get" "json" data).

(** ** The catalogue of wrapper calls *)

(** One constructor for each public method of the six classes, carrying the
    arguments of the call. *)
Inductive WrapperCall : Type :=
| W_createGuild (data : value)
| W_getGuild (guildId : string) (with_counts : option bool)
| W_getGuildPreview (guildId : string)
| W_updateGuild (guildId : string) (data : value)
| W_deleteGuild (guildId : string)
| W_getGuildChannels (guildId : string)
| W_createGuildChannel (guildId : string) (data : value)
| W_updateChannelPositions (guildId : string) (data : value)
| W_listActiveThreads (guildId : string)
| W_getGuildMember (guildId : string) (memberId : string)
| W_getGuildMembers (guildId : string) (data : value)
| W_searchGuildMembers (guildId : string) (options : SearchOptions)
| W_addGuildMember (guildId : string) (memberId : string) (data : value)
| W_updateGuildMember (guildId : string) (memberId : string) (data : value)
| W_updateSelf (guildId : string) (data : value)
| W_addGuildMemberRole (guildId : string) (memberId : string) (roleId : string) (data : value)
| W_removeGuildMemberRole (guildId : string) (memberId : string) (roleId : string) (reason : option string)
| W_removeGuildMember (guildId : string) (memberId : string) (reason : option string)
| W_getGuildBans (guildId : string) (options : option JsObject)
| W_getGuildBan (guildId : string) (memberId : string)
| W_createGuildBan (guildId : string) (memberId : string) (data : value)
| W_removeGuildBan (guildId : string) (memberId : string) (reason : option string)
| W_getGuildRoles (guildId : string)
| W_createGuildRole (guildId : string) (data : value)
| W_updateGuildRolePositions (guildId : string) (data : value)
| W_updateGuildRole (guildId : string) (roleId : string) (data : value)
| W_removeGuildRole (guildId : string) (roleId : string) (reason : option string)
| W_getGuildPruneCount (guildId : string) (query : option JsObject)
| W_startGuildPrune (guildId : string) (data : value)
| W_getGuildVoiceRegions (guildId : string)
| W_getGuildInvites (guildId : string)
| W_getGuildIntegrations (guildId : string)
| W_removeGuildIntegration (guildId : string) (integrationId : string) (reason : option string)
| W_getGuildWidgetSettings (guildId : string)
| W_updateGuildWidgetSettings (guildId : string) (data : value)
| W_getGuildWidget (guildId : string)
| W_getGuildVanityURL (guildId : string)
| W_getGuildWelcomeScreen (guildId : string)
| W_editGuildWelcomeScreen (guildId : string) (data : value)
| W_updateCurrentUserVoiceState (guildId : string) (data : value)
| W_updateUserVoiceState (guildId : string) (userId : string) (data : value)
| W_getEmojis (guildId : string)
| W_getEmoji (guildId : string) (emojiId : string)
| W_createEmoji (guildId : string) (data : value)
| W_updateEmoji (guildId : string) (emojiId : string) (data : value)
| W_deleteEmoji (guildId : string) (emojiId : string) (reason : option string)
| W_getSticker (stickerId : string)
| W_getGuildStickers (guildId : string)
| W_getGuildSticker (guildId : string) (stickerId : string)
| W_createGuildSticker (guildId : string) (data : value)
| W_updateGuildSticker (guildId : string) (stickerId : string) (data : value)
| W_deleteGuildSticker (guildId : string) (stickerId : string) (reason : option string)
| W_getInvite (inviteId : string) (query : option JsObject)
| W_deleteInvite (inviteId : string)
| W_getGateway
| W_getGatewayBot
| W_getOAuthApplication (appID : option string)
| W_getGuildTemplate (code : string)
| W_createGuildFromGuildTemplate (code : string) (options : value)
| W_getGuildTemplates (guildId : string)
| W_createGuildTemplate (guildId : string) (data : value)
| W_syncGuildTemplate (guildId : string) (code : string)
| W_modifyGuildTemplate (guildId : string) (code : string) (data : value)
| W_deleteGuildTemplate (guildId : string) (code : string)
| W_getAuditLog (guildId : string) (data : value).

(** The call a catalogue entry stands for. *)
Definition invoke (w : WrapperCall) : Call :=
  match w with
  | W_createGuild data => createGuild data
  | W_getGuild guildId with_counts => getGuild guildId with_counts
  | W_getGuildPreview guildId => getGuildPreview guildId
  | W_updateGuild guildId data => updateGuild guildId data
  | W_deleteGuild guildId => deleteGuild guildId
  | W_getGuildChannels guildId => getGuildChannels guildId
  | W_createGuildChannel guildId data => createGuildChannel guildId data
  | W_updateChannelPositions guildId data => updateChannelPositions guildId data
  | W_listActiveThreads guildId => listActiveThreads guildId
  | W_getGuildMember guildId memberId => getGuildMember guildId memberId
  | W_getGuildMembers guildId data => getGuildMembers guildId data
  | W_searchGuildMembers guildId options => searchGuildMembers guildId options
  | W_addGuildMember guildId memberId data => addGuildMember guildId memberId data
  | W_updateGuildMember guildId memberId data => updateGuildMember guildId memberId data
  | W_updateSelf guildId data => updateSelf guildId data
  | W_addGuildMemberRole guildId memberId roleId data => addGuildMemberRole guildId memberId roleId data
  | W_removeGuildMemberRole guildId memberId roleId reason => removeGuildMemberRole guildId memberId roleId reason
  | W_removeGuildMember guildId memberId reason => removeGuildMember guildId memberId reason
  | W_getGuildBans guildId options => getGuildBans guildId options
  | W_getGuildBan guildId memberId => getGuildBan guildId memberId
  | W_createGuildBan guildId memberId data => createGuildBan guildId memberId data
  | W_removeGuildBan guildId memberId reason => removeGuildBan guildId memberId reason
  | W_getGuildRoles guildId => getGuildRoles guildId
  | W_createGuildRole guildId data => createGuildRole guildId data
  | W_updateGuildRolePositions guildId data => updateGuildRolePositions guildId data
  | W_updateGuildRole guildId roleId data => updateGuildRole guildId roleId data
  | W_removeGuildRole guildId roleId reason => removeGuildRole guildId roleId reason
  | W_getGuildPruneCount guildId query => getGuildPruneCount guildId query
  | W_startGuildPrune guildId data => startGuildPrune guildId data
  | W_getGuildVoiceRegions guildId => getGuildVoiceRegions guildId
  | W_getGuildInvites guildId => getGuildInvites guildId
  | W_getGuildIntegrations guildId => getGuildIntegrations guildId
  | W_removeGuildIntegration guildId integrationId reason => removeGuildIntegration guildId integrationId reason
  | W_getGuildWidgetSettings guildId => getGuildWidgetSettings guildId
  | W_updateGuildWidgetSettings guildId data => updateGuildWidgetSettings guildId data
  | W_getGuildWidget guildId => getGuildWidget guildId
  | W_getGuildVanityURL guildId => getGuildVanityURL guildId
  | W_getGuildWelcomeScreen guildId => getGuildWelcomeScreen guildId
  | W_editGuildWelcomeScreen guildId data => editGuildWelcomeScreen guildId data
  | W_updateCurrentUserVoiceState guildId data => updateCurrentUserVoiceState guildId data
  | W_updateUserVoiceState guildId userId data => updateUserVoiceState guildId userId data
  | W_getEmojis guildId => getEmojis guildId
  | W_getEmoji guildId emojiId => getEmoji guildId emojiId
  | W_createEmoji guildId data => createEmoji guildId data
  | W_updateEmoji guildId emojiId data => updateEmoji guildId emojiId data
  | W_deleteEmoji guildId emojiId reason => deleteEmoji guildId emojiId reason
  | W_getSticker stickerId => getSticker stickerId
  | W_getGuildStickers guildId => getGuildStickers guildId
  | W_getGuildSticker guildId stickerId => getGuildSticker guildId stickerId
  | W_createGuildSticker guildId data => createGuildSticker guildId data
  | W_updateGuildSticker guildId stickerId data => updateGuildSticker guildId stickerId data
  | W_deleteGuildSticker guildId stickerId reason => deleteGuildSticker guildId stickerId reason
  | W_getInvite inviteId query => getInvite inviteId query
  | W_deleteInvite inviteId => deleteInvite inviteId
  | W_getGateway => getGateway
  | W_getGatewayBot => getGatewayBot
  | W_getOAuthApplication appID => getOAuthApplication appID
  | W_getGuildTemplate code => getGuildTemplate code
  | W_createGuildFromGuildTemplate code options => createGuildFromGuildTemplate code options
  | W_getGuildTemplates guildId => getGuildTemplates guildId
  | W_createGuildTemplate guildId data => createGuildTemplate guildId data
  | W_syncGuildTemplate guildId code => syncGuildTemplate guildId code
  | W_modifyGuildTemplate guildId code data => modifyGuildTemplate guildId code data
  | W_deleteGuildTemplate guildId code => deleteGuildTemplate guildId code
  | W_getAuditLog guildId data => getAuditLog guildId data
  end.

(** The one guard of the catalogue: whether the call is a
    [searchGuildMembers] whose limit fails the range check. *)
Definition guard_rejects (w : WrapperCall) : bool :=
  match w with
  | W_searchGuildMembers _ options => limit_rejected options
  | _ => false
  end.

End Methods.

(** ** What a caller observes of a call *)

(** The call hands exactly [r] to the dispatcher and returns the promise it
    got back: against every dispatcher and from every state, the state
    reached is the one that single dispatcher call leaves. *)
Definition hands_over (c : Call) (r : DispatcherRequest) : Prop :=
  forall (St : Type) (D : St -> DispatcherRequest -> St * Handle) (s : St),
    run D c s = ((D s r).1, [r], Returns (FromDispatcher (D s r).2)).

(** The call returns a promise that is already rejected with [e], and the
    dispatcher is never called: against every dispatcher the state is left
    as it was. *)
Definition rejects_within (c : Call) (e : JsError) : Prop :=
  forall (St : Type) (D : St -> DispatcherRequest -> St * Handle) (s : St),
    run D c s = (s, [], Returns (RejectedWith e)).

(** The verbs and payload kinds of the dispatcher's signature. *)
Definition verbs : list string := ["get"; "post"; "put"; "patch"; "delete"].
Definition dataKinds : list string := ["json"; "multipart"; "none"].

(** ** Sample instances

    The theorems below hold for every [Endpoints] and [Constants]; concrete
    runs need some.  The routes are those of the Discord REST API, the two
    bounds the documented 1 and 1000. *)

Definition sampleEndpoints : EndpointsT := {|
  GATEWAY := "/gateway";
  GATEWAY_BOT := "/gateway/bot";
  GUILDS := "/guilds";
  GUILD := fun g => "/guilds/" +:+ g;
  GUILD_AUDIT_LOGS := fun g => "/guilds/" +:+ g +:+ "/audit-logs";
  GUILD_BAN := fun g m => "/guilds/" +:+ g +:+ "/bans/" +:+ m;
  GUILD_BANS := fun g => "/guilds/" +:+ g +:+ "/bans";
  GUILD_CHANNELS := fun g => "/guilds/" +:+ g +:+ "/channels";
  GUILD_EMOJI := fun g e => "/guilds/" +:+ g +:+ "/emojis/" +:+ e;
  GUILD_EMOJIS := fun g => "/guilds/" +:+ g +:+ "/emojis";
  GUILD_INTEGRATION := fun g i => "/guilds/" +:+ g +:+ "/integrations/" +:+ i;
  GUILD_INTEGRATIONS := fun g => "/guilds/" +:+ g +:+ "/integrations";
  GUILD_INVITES := fun g => "/guilds/" +:+ g +:+ "/invites";
  GUILD_MEMBER := fun g m => "/guilds/" +:+ g +:+ "/members/" +:+ m;
  GUILD_MEMBER_ROLE := fun g m r =>
    "/guilds/" +:+ g +:+ "/members/" +:+ m +:+ "/roles/" +:+ r;
  GUILD_MEMBERS := fun g => "/guilds/" +:+ g +:+ "/members";
  GUILD_MEMBERS_SEARCH := fun g => "/guilds/" +:+ g +:+ "/members/search";
  GUILD_PREVIEW := fun g => "/guilds/" +:+ g +:+ "/preview";
  GUILD_PRUNE := fun g => "/guilds/" +:+ g +:+ "/prune";
  GUILD_ROLE := fun g r => "/guilds/" +:+ g +:+ "/roles/" +:+ r;
  GUILD_ROLES := fun g => "/guilds/" +:+ g +:+ "/roles";
  GUILD_STICKER := fun g i => "/guilds/" +:+ g +:+ "/stickers/" +:+ i;
  GUILD_STICKERS := fun g => "/guilds/" +:+ g +:+ "/stickers";
  GUILD_TEMPLATE := fun g c => "/guilds/" +:+ g +:+ "/templates/" +:+ c;
  GUILD_TEMPLATES := fun g => "/guilds/" +:+ g +:+ "/templates";
  GUILD_THREADS_ACTIVE := fun g => "/guilds/" +:+ g +:+ "/threads/active";
  GUILD_VANITY := fun g => "/guilds/" +:+ g +:+ "/vanity-url";
  GUILD_VOICE_REGIONS := fun g => "/guilds/" +:+ g +:+ "/regions";
  GUILD_VOICE_STATE_USER := fun g u => "/guilds/" +:+ g +:+ "/voice-states/" +:+ u;
  GUILD_WELCOME_SCREEN := fun g => "/guilds/" +:+ g +:+ "/welcome-screen";
  GUILD_WIDGET := fun g => "/guilds/" +:+ g +:+ "/widget.json";
  GUILD_WIDGET_SETTINGS := fun g => "/guilds/" +:+ g +:+ "/widget";
  INVITES := fun i => "/invites/" +:+ i;
  OAUTH2_APPLICATION := fun a => "/oauth2/applications/" +:+ a;
  STICKER := fun i => "/stickers/" +:+ i;
  TEMPLATE := fun c => "/guilds/templates/" +:+ c
|}.

Definition sampleConstants : ConstantsT := {|
  SEARCH_MEMBERS_MIN_RESULTS := number_of_Z 1;
  SEARCH_MEMBERS_MAX_RESULTS := number_of_Z 1000
|}.

(** A stand-in for the runtime's digit generation, never reached by the
    integers of the sample runs. *)
Definition sampleDigits (x : number) : string := "".

(** * Part II: the dispatcher

    The code of [RequestHandler] is not among the sources at hand.  Every
    definition of this module is modelled from the specification's sections
    3 to 6, as its comment says. *)

Module Scheduler.

Local Open Scope nat_scope.
Local Open Scope list_scope.

(** Modelled from the spec: (missing: RequestHandler) times and delays (absolute time, [resetAt],
    [Retry-After], back-off), counted in milliseconds. *)
Definition Time : Type := nat.

(** Modelled from the spec: (missing: RequestHandler) a Route Key, "a normalized (verb,
    path-template-with-major-parameter) pair". *)
Definition RouteKey : Type := (string * string)%type.

(** Modelled from the spec: (missing: RequestHandler) the "server-issued bucket id", opaque. *)
Definition ServerId : Type := string.

(** Modelled from the spec: (missing: RequestHandler) the "canonical Bucket id" of the indirection
    table of section 9. *)
Definition BucketId : Type := nat.

(** Modelled from the spec: (missing: RequestHandler) the inputs the spec leaves open.  The Route Key
    Resolver ("a pure function", its table "a static external input"), the
    attempt ceiling and the ceiling of forced retries after a 429 (section
    9: "configurable"), the back-off schedule by attempt, the API-wide
    limit, and the body parsers. *)
Record Policy : Type := {
  resolve : string -> string -> RouteKey;
  globalLimit : option nat;
  maxAttempts : nat;
  maxForced : nat;
  backoff : nat -> Time;
  parseBody : string -> string -> value;
  parseError : string -> value
}.

(** Modelled from the spec: (missing: RequestHandler) a Request, "route, verb, payload kind, payload,
    attempt counter, completion handle".  The first four are the dispatcher
    call; [forced] counts the retries after a 429, which are "bounded
    separately"; [notBefore] is the end of the delay of a rescheduled
    request. *)
Record Request : Type := mkReq {
  call : DispatcherRequest;
  attempts : nat;
  forced : nat;
  notBefore : Time;
  handle : Handle
}.

(** Modelled from the spec: (missing: RequestHandler) a Bucket's identity, "either a Route Key
    (provisional) or a server-issued bucket id (authoritative)". *)
Inductive Identity : Type :=
| Provisional (k : RouteKey)
| Authoritative (id : ServerId).

(** Modelled from the spec: (missing: RequestHandler) a Bucket, "limit", "remaining", "resetAt",
    "queue", "inFlight"; an unknown limit or remaining is [None]. *)
Record Bucket : Type := mkBucket {
  identity : Identity;
  limit : option nat;
  remaining : option nat;
  resetAt : Time;
  queue : list Request;
  inFlight : bool
}.

(** Modelled from the spec: (missing: RequestHandler) the Bucket Store, an "indirection table (Route
    Key -> canonical Bucket id)", the server ids observed so far, and the
    bucket records. *)
Record Store : Type := mkStore {
  routes : gmap RouteKey BucketId;
  servers : gmap ServerId BucketId;
  buckets : gmap BucketId Bucket;
  nextBucket : BucketId
}.

(** Modelled from the spec: (missing: RequestHandler) the Global Limiter state, "remaining, resetAt,
    limit", and the slots that [acquire] took and [release] has not given
    back. *)
Record GlobalLimiter : Type := mkGlobal {
  g_limit : option nat;
  g_remaining : option nat;
  g_resetAt : Time;
  g_held : nat
}.

(** Modelled from the spec: (missing: RequestHandler) the errors of section 7 that reach a caller. *)
Inductive Failure : Type :=
| TransportError
| HTTPError (status : nat) (body : value).

(** Modelled from the spec: (missing: RequestHandler) how a completion handle settles. *)
Inductive Settlement : Type :=
| Resolved (v : value)
| Rejected (e : Failure).

(** Modelled from the spec: (missing: RequestHandler) the "tagged outcome" of section 9,
    "Retry(after_delay) | Fail(error) | Succeed(value)". *)
Inductive Outcome : Type :=
| Retry (after : Time)
| Fail (e : Failure)
| Succeed (v : value).

(** Modelled from the spec: (missing: RequestHandler) the response headers consumed (section 6). *)
Record Headers : Type := mkHeaders {
  rl_limit : option nat;
  rl_remaining : option nat;
  rl_reset_after : option Time;
  rl_bucket : option ServerId;
  rl_is_global : bool;
  retry_after : option Time
}.

(** Modelled from the spec: (missing: RequestHandler) what the Transport Adapter returns, "{status,
    headers, body-bytes} or a transport error". *)
Record Response : Type := mkResponse {
  status : nat;
  headers : Headers;
  body : string
}.

Inductive TransportResult : Type :=
| Responded (resp : Response)
| TransportFailed.

(** Modelled from the spec: (missing: RequestHandler) the scheduler.  [transit] holds the dispatched
    requests, each with the bucket it was dispatched from ("owned ... by the
    in-flight dispatch operation").  [submitted], [settled] and
    [rescheduled] are the histories the ordering properties speak of: the
    bucket each call was enqueued into, in submission order, the
    settlements in completion order, and the handle of each request that
    went through "RetryScheduled" (a "retry attempt recorded"), in the
    order of the reschedulings.  The n-th call gets completion handle n. *)
Record State : Type := mkState {
  now : Time;
  store : Store;
  global : GlobalLimiter;
  transit : list (BucketId * Request);
  submitted : list BucketId;
  settled : list (Handle * Settlement);
  rescheduled : list Handle
}.

(** *** Bucket Store *)

(** Modelled from the spec: (missing: RequestHandler) a new Bucket, "limit=infinity-equivalent
    (unknown) state". *)
Definition fresh_bucket (k : RouteKey) : Bucket :=
  mkBucket (Provisional k) None None 0 [] false.

(** Modelled from the spec: (missing: RequestHandler) [get_or_create(route_key)], "returns existing
    Bucket for the key, else creates one". *)
Definition get_or_create (st : Store) (k : RouteKey) : Store * BucketId :=
  match routes st !! k with
  | Some b => (st, b)
  | None =>
      let b := nextBucket st in
      (mkStore (<[k := b]> (routes st)) (servers st)
               (<[b := fresh_bucket k]> (buckets st)) (S b), b)
  end.

(** Modelled from the spec: (missing: RequestHandler) the merge of two queues, "concatenated
    preserving relative FIFO order by original enqueue time"; handles are
    allotted in enqueue order. *)
Fixpoint merge_queues (q1 : list Request) : list Request -> list Request :=
  fix inner (q2 : list Request) : list Request :=
    match q1, q2 with
    | [], _ => q2
    | _, [] => q1
    | r1 :: t1, r2 :: t2 =>
        if (handle r1 <=? handle r2)%nat
        then r1 :: merge_queues t1 q2
        else r2 :: inner t2
    end.

(** Modelled from the spec: (missing: RequestHandler) after a merge "subsequent lookups for either
    Route Key resolve to the merged Bucket". *)
Definition repoint (from to x : BucketId) : BucketId :=
  if decide (x = from) then to else x.

(** Modelled from the spec: (missing: RequestHandler) "the two bucket records are merged".  Bucket [b]
    is absorbed by [b'], the one already known under the server id; the
    merged record keeps the later of the two [resetAt]. *)
Definition merge_into (st : Store) (b b' : BucketId) : Store :=
  match buckets st !! b, buckets st !! b' with
  | Some B, Some B' =>
      mkStore (repoint b b' <$> routes st)
              (repoint b b' <$> servers st)
              (<[b' := mkBucket (identity B') (limit B') (remaining B')
                                (Nat.max (resetAt B') (resetAt B))
                                (merge_queues (queue B') (queue B))
                                (inFlight B')]>
                 (delete b (buckets st)))
              (nextBucket st)
  | _, _ => st
  end.

(** Modelled from the spec: (missing: RequestHandler) "if server_bucket_id is new, promote/rename the
    Bucket". *)
Definition promote (st : Store) (b : BucketId) (sid : ServerId) : Store :=
  mkStore (routes st) (<[sid := b]> (servers st))
          (alter (fun B => mkBucket (Authoritative sid) (limit B) (remaining B)
                                    (resetAt B) (queue B) (inFlight B))
                 b (buckets st))
          (nextBucket st).

(** Modelled from the spec: (missing: RequestHandler) "always overwrite limit/remaining/resetAt with
    the freshest values (monotonic: a resetAt ... older than the currently
    stored one must not roll the window backward)". *)
Definition overwrite (lim rem : nat) (reset_at : Time) (B : Bucket) : Bucket :=
  mkBucket (identity B) (Some lim) (Some rem) (Nat.max (resetAt B) reset_at)
           (queue B) (inFlight B).

(** Modelled from the spec:
    [reconcile(route_key, server_bucket_id, limit, remaining, reset_at)]. *)
Definition reconcile (st : Store) (k : RouteKey) (sid : ServerId)
    (lim rem : nat) (reset_at : Time) : Store :=
  match routes st !! k with
  | None => st
  | Some b =>
      let st1 :=
        match servers st !! sid with
        | None => promote st b sid
        | Some b' => if decide (b' = b) then st else merge_into st b b'
        end in
      match routes st1 !! k with
      | Some c =>
          mkStore (routes st1) (servers st1)
                  (alter (overwrite lim rem reset_at) c (buckets st1))
                  (nextBucket st1)
      | None => st1
      end
  end.

(** Modelled from the spec: (missing: RequestHandler) after a 429, "update Bucket/Global state to
    remaining=0, resetAt=now+RetryAfter" (the Bucket half). *)
Definition exhaust (st : Store) (k : RouteKey) (until : Time) : Store :=
  match routes st !! k with
  | Some c =>
      mkStore (routes st) (servers st)
              (alter (fun B => mkBucket (identity B) (limit B) (Some 0) until
                                        (queue B) (inFlight B))
                     c (buckets st))
              (nextBucket st)
  | None => st
  end.

(** *** Response Interpreter *)

(** Modelled from the spec: (missing: RequestHandler) section 4.5, the five cases "in order":
    transport failure, 429, [500,599], any other non-2xx, 2xx.  A retry of a
    transport failure or of a 5xx is granted while the attempts made stay
    below the ceiling; a retry after a 429 while the forced retries stay
    below theirs, after which it is "a TransportError-class failure". *)
Definition interpret (P : Policy) (r : Request) (res : TransportResult) : Outcome :=
  match res with
  | TransportFailed =>
      if (S (attempts r) <? maxAttempts P)%nat
      then Retry (backoff P (attempts r))
      else Fail TransportError
  | Responded resp =>
      let code := status resp in
      if (code =? 429)%nat then
        if (forced r <? maxForced P)%nat
        then Retry (default 0 (retry_after (headers resp)))
        else Fail TransportError
      else if ((500 <=? code) && (code <=? 599))%nat then
        if (S (attempts r) <? maxAttempts P)%nat
        then Retry (backoff P (attempts r))
        else Fail (HTTPError code (parseError P (body resp)))
      else if negb ((200 <=? code) && (code <=? 299))%nat then
        Fail (HTTPError code (parseError P (body resp)))
      else Succeed (parseBody P (dataKind (call r)) (body resp))
  end.

(** Modelled from the spec: (missing: RequestHandler) "reschedule the same Request to redispatch after
    that delay"; a 429 counts against the forced retries, anything else
    against the attempts. *)
Definition reschedule (r : Request) (res : TransportResult) (t : Time) : Request :=
  match res with
  | Responded resp =>
      if (status resp =? 429)%nat
      then mkReq (call r) (attempts r) (S (forced r)) t (handle r)
      else mkReq (call r) (S (attempts r)) (forced r) t (handle r)
  | TransportFailed => mkReq (call r) (S (attempts r)) (forced r) t (handle r)
  end.

(** *** Global Limiter *)

(** Modelled from the spec: (missing: RequestHandler) "block while remaining<=0 AND now<resetAt". *)
Definition global_open (g : GlobalLimiter) (t : Time) : bool :=
  negb (match g_remaining g with Some 0 => true | _ => false end
        && (t <? g_resetAt g)%nat).

(** Modelled from the spec: (missing: RequestHandler) [acquire()], "otherwise decrement and proceed". *)
Definition acquire (g : GlobalLimiter) : GlobalLimiter :=
  mkGlobal (g_limit g) (Nat.pred <$> g_remaining g) (g_resetAt g) (S (g_held g)).

(** Modelled from the spec: (missing: RequestHandler) [release()]. *)
Definition release (g : GlobalLimiter) : GlobalLimiter :=
  mkGlobal (g_limit g) (g_remaining g) (g_resetAt g) (Nat.pred (g_held g)).

(** Modelled from the spec: (missing: RequestHandler) "a background/deferred reset restores remaining
    to limit at resetAt". *)
Definition global_reset (g : GlobalLimiter) (t : Time) : GlobalLimiter :=
  if (g_resetAt g <=? t)%nat
  then mkGlobal (g_limit g) (g_limit g) (g_resetAt g) (g_held g)
  else g.

(** Modelled from the spec: (missing: RequestHandler) after a global 429, "remaining=0,
    resetAt=now+RetryAfter" (the Global half). *)
Definition throttle (g : GlobalLimiter) (until : Time) : GlobalLimiter :=
  mkGlobal (g_limit g) (Some 0) until (g_held g).

(** *** Bucket Queue and Scheduler *)

(** Modelled from the spec: (missing: RequestHandler) the route key of a request, through the Route
    Key Resolver. *)
Definition key (P : Policy) (r : Request) : RouteKey :=
  resolve P (verb (call r)) (url (call r)).

(** Modelled from the spec: (missing: RequestHandler) the window half of the admission rule,
    "remaining>0 OR current time >= resetAt"; an unknown remaining does not
    block. *)
Definition window_open (B : Bucket) (t : Time) : bool :=
  match remaining B with
  | Some n => (0 <? n)%nat
  | None => true
  end || (resetAt B <=? t)%nat.

(** Modelled from the spec: (missing: RequestHandler) [enqueue(bucket, request)], at the tail: the
    one operation that puts a Request into a queue. *)
Definition enqueue (r : Request) (B : Bucket) : Bucket :=
  mkBucket (identity B) (limit B) (remaining B) (resetAt B) (queue B ++ [r])
           (inFlight B).

(** Modelled from the spec: (missing: RequestHandler) "clear the Bucket's inFlight flag". *)
Definition clear (B : Bucket) : Bucket :=
  mkBucket (identity B) (limit B) (remaining B) (resetAt B) (queue B) false.

(** Modelled from the spec: (missing: RequestHandler) "if still queued, it is removed without side
    effects". *)
Definition unqueue (h : Handle) (B : Bucket) : Bucket :=
  mkBucket (identity B) (limit B) (remaining B) (resetAt B)
           (filter (fun r => handle r <> h) (queue B)) (inFlight B).

(** Modelled from the spec: (missing: RequestHandler) a bucket record changed in place. *)
Definition update_bucket (f : Bucket -> Bucket) (b : BucketId) (st : Store) : Store :=
  mkStore (routes st) (servers st) (alter f b (buckets st)) (nextBucket st).

(** Modelled from the spec: (missing: RequestHandler) the Scheduler entry point [request(route, verb,
    dataKind, payload)]: resolve the route key, get or create its Bucket,
    enqueue a new Request, hand back its completion handle. *)
Definition submit (P : Policy) (s : State) (c : DispatcherRequest) : State * Handle :=
  let '(st, b) := get_or_create (store s) (resolve P (verb c) (url c)) in
  let h := length (submitted s) in
  (mkState (now s) (update_bucket (enqueue (mkReq c 0 0 0 h)) b st) (global s)
           (transit s) (submitted s ++ [b]) (settled s) (rescheduled s),
   h).

(** Modelled from the spec: (missing: RequestHandler) dispatch of the queue head.  "A Request may
    dispatch only when inFlight=false AND (remaining>0 OR current time >=
    resetAt)", not before the end of its own delay, and with a global slot
    ("both must hold simultaneously").  "On dispatch, inFlight:=true"; a
    window that was exhausted is "optimistically" taken as refreshed,
    "remaining unknown until the next response". *)
Definition dispatch (s : State) (b : BucketId) : option State :=
  match buckets (store s) !! b with
  | Some B =>
      match queue B with
      | r :: q =>
          if negb (inFlight B) && window_open B (now s)
             && (notBefore r <=? now s)%nat && global_open (global s) (now s)
          then Some (mkState (now s)
                       (update_bucket
                          (fun _ => mkBucket (identity B) (limit B)
                                      (match remaining B with
                                       | Some 0 => None
                                       | x => x
                                       end)
                                      (resetAt B) q true)
                          b (store s))
                       (acquire (global s)) ((b, r) :: transit s)
                       (submitted s) (settled s) (rescheduled s))
          else None
      | [] => None
      end
  | None => None
  end.

(** Modelled from the spec: (missing: RequestHandler) the branch taken for a request that came back:
    it leaves the wire, then its handle settles (success, terminal failure)
    or it is rescheduled: "RetryScheduled -> Queued", that is enqueued
    again, into the bucket it was dispatched from, not to go before its
    delay has passed; once the flag is cleared "the next queued Request (if
    any) becomes eligible". *)
Definition conclude (P : Policy) (s : State) (b : BucketId) (r : Request)
    (res : TransportResult) : State :=
  let wire := filter (fun e => e.1 <> b) (transit s) in
  match interpret P r res with
  | Succeed v =>
      mkState (now s) (store s) (global s) wire (submitted s)
              (settled s ++ [(handle r, Resolved v)]) (rescheduled s)
  | Fail e =>
      mkState (now s) (store s) (global s) wire (submitted s)
              (settled s ++ [(handle r, Rejected e)]) (rescheduled s)
  | Retry d =>
      mkState (now s)
              (update_bucket (enqueue (reschedule r res (now s + d))) b (store s))
              (global s) wire (submitted s) (settled s)
              (rescheduled s ++ [handle r])
  end.

(** Modelled from the spec: (missing: RequestHandler) "After every branch, feed the response's
    rate-limit headers into Bucket Store.reconcile(...) and into the Global
    Limiter state".  [reset_at] is the time of the response plus the
    reset-after header; a 429 closes the window of the bucket, or the global
    one when flagged global, until [Retry-After] has passed. *)
Definition feed (s : State) (k : RouteKey) (resp : Response) : State :=
  let h := headers resp in
  let st1 :=
    match rl_bucket h, rl_limit h, rl_remaining h, rl_reset_after h with
    | Some sid, Some lim, Some rem, Some after =>
        reconcile (store s) k sid lim rem (now s + after)
    | _, _, _, _ => store s
    end in
  let until := now s + default 0 (retry_after h) in
  if (status resp =? 429)%nat then
    if rl_is_global h
    then mkState (now s) st1 (throttle (global s) until) (transit s)
                 (submitted s) (settled s) (rescheduled s)
    else mkState (now s) (exhaust st1 k until) (global s) (transit s)
                 (submitted s) (settled s) (rescheduled s)
  else mkState (now s) st1 (global s) (transit s) (submitted s) (settled s)
               (rescheduled s).

(** Modelled from the spec: (missing: RequestHandler) "Finally, clear the Bucket's inFlight flag and
    release the Global Limiter slot".  The flag is that of the record the
    request was dispatched from; a record absorbed by a merge is gone with
    its flag. *)
Definition finish (s : State) (b : BucketId) : State :=
  mkState (now s) (update_bucket clear b (store s)) (release (global s))
          (transit s) (submitted s) (settled s) (rescheduled s).

(** Modelled from the spec: (missing: RequestHandler) the Response Interpreter on the result of a
    dispatched request: branch, feed the headers, finish. *)
Definition complete (P : Policy) (s : State) (b : BucketId) (r : Request)
    (res : TransportResult) : State :=
  let s1 := conclude P s b r res in
  let s2 := match res with
            | Responded resp => feed s1 (key P r) resp
            | TransportFailed => s1
            end in
  finish s2 b.

(** Modelled from the spec: (missing: RequestHandler) cancellation of a request "before it
    dispatches". *)
Definition cancel (s : State) (b : BucketId) (h : Handle) : State :=
  mkState (now s) (update_bucket (unqueue h) b (store s)) (global s)
          (transit s) (submitted s) (settled s) (rescheduled s).

(** Modelled from the spec: (missing: RequestHandler) time passing. *)
Definition advance (s : State) (d : Time) : State :=
  mkState (now s + d) (store s) (global s) (transit s) (submitted s) (settled s)
          (rescheduled s).

(** Modelled from the spec: (missing: RequestHandler) the deferred reset of the global window. *)
Definition reset_global (s : State) : State :=
  mkState (now s) (store s) (global_reset (global s) (now s)) (transit s)
          (submitted s) (settled s) (rescheduled s).

(** Modelled from the spec: (missing: RequestHandler) a cold start, "the Bucket Store ... rebuilds from
    scratch each process start". *)
Definition init (P : Policy) : State :=
  mkState 0 (mkStore ∅ ∅ ∅ 0) (mkGlobal (globalLimit P) (globalLimit P) 0 0)
          [] [] [] [].

(** Modelled from the spec: (missing: RequestHandler) one move of the scheduler.  Calls arrive, queue
    heads are dispatched, dispatched requests come back with whatever the
    transport reports, callers cancel, time passes; in any order. *)
Inductive step (P : Policy) (s : State) : State -> Prop :=
| step_submit (c : DispatcherRequest) :
    step P s (submit P s c).1
| step_dispatch (b : BucketId) (s' : State) :
    dispatch s b = Some s' -> step P s s'
| step_complete (b : BucketId) (r : Request) (res : TransportResult) :
    (b, r) ∈ transit s -> step P s (complete P s b r res)
| step_cancel (b : BucketId) (h : Handle) :
    step P s (cancel s b h)
| step_advance (d : Time) :
    step P s (advance s d)
| step_reset_global :
    step P s (reset_global s).

(** Modelled from the spec: (missing: RequestHandler) the states the scheduler can be in. *)
Definition reachable (P : Policy) (s : State) : Prop := rtc (step P) (init P) s.

(** Modelled from the spec: (missing: RequestHandler) the dispatched requests of a bucket, and the
    handles a bucket still owes: dispatched first, then queued. *)
Definition on_wire (s : State) (b : BucketId) : list Request :=
  (filter (fun e => e.1 = b) (transit s)).*2.

Definition queue_of (s : State) (b : BucketId) : list Request :=
  match buckets (store s) !! b with
  | Some B => queue B
  | None => []
  end.

Definition pending (s : State) (b : BucketId) : list Handle :=
  handle <$> (on_wire s b ++ queue_of s b).

End Scheduler.

(** * Invariants of the dispatcher *)

Module Invariants.

Import Scheduler.

Local Open Scope nat_scope.
Local Open Scope list_scope.

(** The buckets that have a request on the wire. *)
Definition origins (s : State) : list BucketId := (transit s).*1.

(** What the invariants read of a bucket record: its queue and its flag. *)
Definition shape (B : Bucket) : list Request * bool := (queue B, inFlight B).

Definition shape_at (st : Store) (b : BucketId) : option (list Request * bool) :=
  shape <$> buckets st !! b.

Definition shape_of (s : State) (b : BucketId) : option (list Request * bool) :=
  shape_at (store s) b.

(** The wire and the flags agree.  [c] is the bucket whose response is
    being interpreted, if any: its request has left the wire and its flag
    is not cleared yet. *)
Record wire_ok (P : Policy) (c : option BucketId) (s : State) : Prop := {
  wire_nodup : NoDup (origins s);
  wire_flag : forall b, b ∈ origins s -> exists q, shape_of s b = Some (q, true);
  flag_wire : forall b q, shape_of s b = Some (q, true) -> b ∈ origins s \/ c = Some b;
  completing_off : forall b, c = Some b -> b ∉ origins s;
  wire_route : forall b r, (b, r) ∈ transit s -> routes (store s) !! key P r = Some b;
  queue_route : forall b q f r,
    shape_of s b = Some (q, f) -> r ∈ q -> routes (store s) !! key P r = Some b;
  route_live : forall k b, routes (store s) !! k = Some b -> is_Some (shape_of s b);
  dom_bound : forall b, is_Some (shape_of s b) -> b < nextBucket (store s)
}.

(** The handles and their order.  Every handle owed or settled was
    submitted; a handle is owed once, by one bucket, and not after it has
    settled; no handle settles twice; and in each queue a request that was
    never rescheduled stands behind none that was submitted after it. *)
Record order_ok (s : State) : Prop := {
  pending_bound : forall b x, x ∈ pending s b -> x < length (submitted s);
  settled_bound : forall x, x ∈ (settled s).*1 -> x < length (submitted s);
  pending_NoDup : forall b, NoDup (pending s b);
  pending_single : forall b1 b2 x, x ∈ pending s b1 -> x ∈ pending s b2 -> b1 = b2;
  settled_NoDup : NoDup (settled s).*1;
  settled_off : forall b x, x ∈ pending s b -> x ∉ (settled s).*1;
  queue_sorted : forall b x y,
    [x; y] `sublist_of` (handle <$> queue_of s b) -> y ∉ rescheduled s -> x <= y
}.






(** The two ways a store comes out of [reconcile]: every record keeps its
    queue and flag, or [b] has been absorbed by some [b']. *)
Definition unchanged (st st' : Store) : Prop :=
  (forall x, shape_at st' x = shape_at st x)
  /\ routes st' = routes st
  /\ nextBucket st' = nextBucket st.

Definition absorbed (b : BucketId) (st st' : Store) : Prop :=
  exists b' q q' f f',
    b' <> b
    /\ shape_at st b = Some (q, f)
    /\ shape_at st b' = Some (q', f')
    /\ (forall x, shape_at st' x
                  = if decide (x = b') then Some (merge_queues q' q, f')
                    else if decide (x = b) then None else shape_at st x)
    /\ routes st' = repoint b b' <$> routes st
    /\ nextBucket st' = nextBucket st.

(** A policy for concrete runs: the route key is the verb and the path as
    they are, at most 50 requests per global window, three attempts, two
    forced retries, a doubling back-off from one second, bodies handed on
    as strings. *)
Definition samplePolicy : Policy := {|
  resolve := fun v u => (v, u);
  globalLimit := Some 50;
  maxAttempts := 3;
  maxForced := 2;
  backoff := fun n => 1000 * 2 ^ n;
  parseBody := fun _ b => VString b;
  parseError := fun b => VString b
|}.

(** A response without rate-limit headers. *)
Definition bare (code : nat) (b : string) : Response :=
  mkResponse code (mkHeaders None None None None false None) b.

(** The state after the dispatch of the head of bucket [b], the state
    itself when the head may not go. *)
Definition dispatched (s : State) (b : BucketId) : State :=
  default s (dispatch s b).

(** A concrete run: [getGuildBan("g", "m")] handed to the scheduler, then
    dispatched. *)
Definition ban_call : DispatcherRequest :=
  mkRequest "/guilds/g/bans/m" "get" "json" VUndefined.

Definition ban_queued : State :=
  (run (submit samplePolicy) (getGuildBan sampleEndpoints "g" "m")
       (init samplePolicy)).1.1.

Definition ban_on_wire : State := dispatched ban_queued 0.







(** A store with one bucket, known to the server as "X", whose window ends
    at 5000. *)
Definition sampleStore : Store :=
  reconcile (get_or_create (mkStore ∅ ∅ ∅ 0) ("get", "/guilds/g/bans/m")).1
            ("get", "/guilds/g/bans/m") "X" 5 4 5000.

End Invariants.

(** * Facts about the wrappers *)

(** ** Numbers *)

Lemma SFcompare_antisym (x y : number) (c : comparison) :
  SFcompare x y = Some c -> SFcompare y x = Some (CompOpp c).
Proof.
  destruct x as [sx|sx| |sx mx ex], y as [sy|sy| |sy my ey]; simpl;
    try discriminate;
    repeat match goal with s : bool |- _ => destruct s end; simpl;
    intros H; inversion H; subst; clear H; try reflexivity.
  - rewrite (Z.compare_antisym ex ey).
    destruct (ex ?= ey)%Z; simpl; try reflexivity.
    rewrite CompOpp_involutive.
    rewrite Pos.compare_cont_antisym. reflexivity.
  - rewrite (Z.compare_antisym ex ey).
    destruct (ex ?= ey)%Z; simpl; try reflexivity.
    rewrite Pos.compare_cont_antisym. reflexivity.
Qed.

Lemma SFcompare_total (x y : number) :
  is_NaN x = false -> is_NaN y = false -> exists c, SFcompare x y = Some c.
Proof.
  destruct x, y; simpl; try discriminate; intros _ _; eauto.
Qed.

Lemma js_le_false_lt (x y : number) :
  is_NaN x = false -> is_NaN y = false -> js_le x y = false -> js_lt y x = true.
Proof.
  intros Hx Hy. unfold js_le, js_lt, SFleb, SFltb.
  destruct (SFcompare_total x y Hx Hy) as [c Hc].
  rewrite (SFcompare_antisym _ _ _ Hc), Hc.
  destruct c; simpl; congruence.
Qed.

Lemma js_le_true_not_lt (x y : number) :
  js_le x y = true -> js_lt y x = false.
Proof.
  unfold js_le, js_lt, SFleb, SFltb.
  destruct (SFcompare x y) as [c|] eqn:Hc; [|discriminate].
  rewrite (SFcompare_antisym _ _ _ Hc).
  destruct c; simpl; congruence.
Qed.

(** ** Running a call *)

Lemma request_hands_over (u v d : string) (data : value) :
  hands_over (request u v d data) (mkRequest u v d data).
Proof.
  intros St D s. simpl. destruct (D s (mkRequest u v d data)); reflexivity.
Qed.

Lemma async_request (u v d : string) (data : value) :
  async (request u v d data) = request u v d data.
Proof. reflexivity. Qed.

Lemma hands_over_requests (c : Call) (r : DispatcherRequest)
    (St : Type) (D : St -> DispatcherRequest -> St * Handle) (s : St) :
  hands_over c r -> requests_of D c s = [r].
Proof. intros H. unfold requests_of. rewrite H. reflexivity. Qed.

Lemma rejected_rejects_within (e : JsError) :
  rejects_within (Done (Returns (RejectedWith e))) e.
Proof. intros St D s. reflexivity. Qed.

Lemma rejects_within_requests (c : Call) (e : JsError)
    (St : Type) (D : St -> DispatcherRequest -> St * Handle) (s : St) :
  rejects_within c e -> requests_of D c s = [].
Proof. intros H. unfold requests_of. rewrite H. reflexivity. Qed.

Lemma hands_over_not_rejects (c : Call) (r : DispatcherRequest) (e : JsError) :
  hands_over c r -> ~ rejects_within c e.
Proof.
  intros H F.
  pose proof (hands_over_requests c r unit (fun _ _ => (tt, 0)) tt H) as H1.
  rewrite (rejects_within_requests c e _ _ _ F) in H1. discriminate.
Qed.

Section SearchGuildMembers.

Variable Endpoints : EndpointsT.
Variable Constants : ConstantsT.
Variable fraction_digits : number -> string.

Local Abbreviation MIN := (SEARCH_MEMBERS_MIN_RESULTS Constants).
Local Abbreviation MAX := (SEARCH_MEMBERS_MAX_RESULTS Constants).

Lemma searchGuildMembers_rejected (guildId : string) (options : SearchOptions) :
  limit_rejected Constants options = true ->
  searchGuildMembers Endpoints Constants fraction_digits guildId options
  = Done (Returns (RejectedWith
                     (RangeError (searchGuildMembers_message Constants fraction_digits)))).
Proof. intros H. unfold searchGuildMembers. rewrite H. reflexivity. Qed.

Lemma searchGuildMembers_accepted (guildId : string) (options : SearchOptions) :
  limit_rejected Constants options = false ->
  searchGuildMembers Endpoints Constants fraction_digits guildId options
  = request (GUILD_MEMBERS_SEARCH Endpoints guildId) "get" "json"
            (SearchOptions_value options).
Proof. intros H. unfold searchGuildMembers. rewrite H. reflexivity. Qed.

(** C1, as amended.  For a limit that is undefined or a number other than
    NaN, the two bounds being numbers other than NaN: when the limit is
    defined and lies outside the closed interval of the bounds, the call,
    an [async] method, throws nothing to its caller: it returns a promise
    already rejected with the RangeError, and the dispatcher is never
    called; when the limit is undefined or within the interval, the call
    makes exactly one dispatcher call and returns its promise.  Nothing is
    said of a limit that is NaN. *)
Theorem searchGuildMembers_limit_check (guildId : string) (options : SearchOptions) :
  is_NaN MIN = false -> is_NaN MAX = false ->
  (forall l, limit options = Some l -> is_NaN l = false ->
             js_le MIN l && js_le l MAX = false ->
             searchGuildMembers Endpoints Constants fraction_digits guildId options
             = Done (Returns (RejectedWith
                   (RangeError (searchGuildMembers_message Constants fraction_digits))))
             /\ rejects_within
                  (searchGuildMembers Endpoints Constants fraction_digits guildId options)
                  (RangeError (searchGuildMembers_message Constants fraction_digits)))
  /\ ((limit options = None
       \/ exists l, limit options = Some l
                    /\ js_le MIN l && js_le l MAX = true) ->
      hands_over
        (searchGuildMembers Endpoints Constants fraction_digits guildId options)
        (mkRequest (GUILD_MEMBERS_SEARCH Endpoints guildId) "get" "json"
                   (SearchOptions_value options))).
Proof.
  intros Hmin Hmax. split.
  - intros l Hl Hnan Hout.
    assert (R : limit_rejected Constants options = true).
    { unfold limit_rejected. rewrite Hl.
      change (js_gt l MAX) with (js_lt MAX l).
      apply andb_false_iff in Hout as [H | H].
      + rewrite (js_le_false_lt _ _ Hmin Hnan H). reflexivity.
      + rewrite (js_le_false_lt _ _ Hnan Hmax H). apply orb_true_r. }
    rewrite (searchGuildMembers_rejected _ _ R).
    split; [reflexivity | apply rejected_rejects_within].
  - intros H.
    assert (R : limit_rejected Constants options = false).
    { unfold limit_rejected.
      destruct H as [-> | (l & -> & Hin)]; [reflexivity|].
      apply andb_true_iff in Hin as [H1 H2].
      change (js_gt l MAX) with (js_lt MAX l).
      rewrite (js_le_true_not_lt _ _ H1), (js_le_true_not_lt _ _ H2).
      reflexivity. }
    rewrite (searchGuildMembers_accepted _ _ R).
    apply request_hands_over.
Qed.

End SearchGuildMembers.

(** C1: the bounds 1 and 1000, a limit of 0 (rejected) and a limit of 1000
    (accepted). *)
Lemma searchGuildMembers_limit_check_witness :
  searchGuildMembers sampleEndpoints sampleConstants sampleDigits "g"
    {| query := "Wolke"; limit := Some (number_of_Z 0) |}
  = Done (Returns (RejectedWith
        (RangeError "Limit for searching guild members has to be between 1 and 1000")))
  /\ hands_over
       (searchGuildMembers sampleEndpoints sampleConstants sampleDigits "g"
          {| query := "Wolke"; limit := Some (number_of_Z 1000) |})
       (mkRequest "/guilds/g/members/search" "get" "json"
          (VObject [("query", VString "Wolke");
                    ("limit", VNumber (number_of_Z 1000))])).
Proof.
  split.
  - destruct (searchGuildMembers_limit_check sampleEndpoints sampleConstants
                sampleDigits "g" {| query := "Wolke"; limit := Some (number_of_Z 0) |}
                eq_refl eq_refl) as [H _].
    destruct (H _ eq_refl eq_refl eq_refl) as [E _]. exact E.
  - destruct (searchGuildMembers_limit_check sampleEndpoints sampleConstants
                sampleDigits "g" {| query := "Wolke"; limit := Some (number_of_Z 1000) |}
                eq_refl eq_refl) as [_ H].
    apply H. right. exists (number_of_Z 1000). split; reflexivity.
Defined.

(** C1 as stated fails.  A limit of 0 lies outside [1, 1000] and nothing
    is thrown: the call of the [async] method returns normally, with a
    rejected promise. *)
Lemma searchGuildMembers_does_not_throw :
  js_le (number_of_Z 1) (number_of_Z 0) && js_le (number_of_Z 0) (number_of_Z 1000)
  = false
  /\ ~ exists e,
        searchGuildMembers sampleEndpoints sampleConstants sampleDigits "g"
          {| query := "Wolke"; limit := Some (number_of_Z 0) |}
        = Done (Throws e).
Proof.
  split; [reflexivity|]. intros [x H]. discriminate H.
Qed.

(** ** Every wrapper *)

Section Catalogue.

Variable Endpoints : EndpointsT.
Variable Constants : ConstantsT.
Variable fraction_digits : number -> string.

Local Abbreviation invoke' := (invoke Endpoints Constants fraction_digits).

(** The request a catalogue entry hands to the dispatcher, if any. *)
Lemma invoke_shape (w : WrapperCall) :
  if guard_rejects Constants w
  then invoke' w
       = Done (Returns (RejectedWith
             (RangeError (searchGuildMembers_message Constants fraction_digits))))
  else exists u v d data,
         invoke' w = request u v d data /\ In v verbs /\ In d dataKinds.
Proof.
  destruct w;
    try (simpl guard_rejects; do 4 eexists; split; [reflexivity|]; simpl; tauto).
  simpl guard_rejects. destruct (limit_rejected Constants options) eqn:R.
  - apply searchGuildMembers_rejected, R.
  - do 4 eexists. split; [apply searchGuildMembers_accepted, R|].
    simpl; tauto.
Qed.

(** C2, as amended.  Every wrapper call other than a [searchGuildMembers]
    whose limit the guard rejects hands exactly one request to the
    dispatcher, with a verb among get, post, put, patch, delete and a kind
    among json, multipart, none, returns what the dispatcher returned and
    does nothing else; the rejected [searchGuildMembers] returns a promise
    rejected with the RangeError and never calls the dispatcher. *)
Theorem wrappers_make_one_dispatcher_call (w : WrapperCall) :
  if guard_rejects Constants w
  then rejects_within (invoke' w)
         (RangeError (searchGuildMembers_message Constants fraction_digits))
  else exists r,
         hands_over (invoke' w) r /\ In (verb r) verbs /\ In (dataKind r) dataKinds.
Proof.
  pose proof (invoke_shape w) as H.
  destruct (guard_rejects Constants w).
  - rewrite H. apply rejected_rejects_within.
  - destruct H as (u & v & d & data & E & Hv & Hd).
    exists (mkRequest u v d data). rewrite E.
    split; [apply request_hands_over|]. split; assumption.
Qed.

End Catalogue.

(** C2 as stated fails on [searchGuildMembers]: with a limit of 0 under the
    bounds 1 and 1000 the call hands nothing to the dispatcher. *)
Lemma searchGuildMembers_makes_no_call :
  ~ exists r,
      hands_over
        (invoke sampleEndpoints sampleConstants sampleDigits
           (W_searchGuildMembers "g"
              {| query := "Wolke"; limit := Some (number_of_Z 0) |})) r.
Proof.
  intros [r H].
  eapply hands_over_not_rejects; [exact H|].
  apply (rejected_rejects_within
           (RangeError "Limit for searching guild members has to be between 1 and 1000")).
Qed.

(** ** Query strings *)

Lemma string_length_app (a b : string) :
  String.length (a +:+ b) = String.length a + String.length b.
Proof.
  induction a as [|x a IH]; [reflexivity|].
  change (String x a +:+ b) with (String x (a +:+ b)). simpl. f_equal. exact IH.
Qed.

Lemma string_app_nil_r (a : string) : a +:+ "" = a.
Proof.
  induction a as [|x a IH]; [reflexivity|].
  change (String x a +:+ "") with (String x (a +:+ "")). f_equal. exact IH.
Qed.

(** Joining with a comma puts a comma in front of every element after the
    first. *)
Lemma join_comma (f : string) (fs : list string) :
  Array_toString (f :: fs)
  = f +:+ Array_join "" (map (fun g => "," +:+ g) fs).
Proof.
  unfold Array_toString, Array_join. revert f.
  induction fs as [|g fs IH]; intros f.
  - symmetry. apply string_app_nil_r.
  - change (String.concat "," (f :: g :: fs))
      with (f +:+ "," +:+ String.concat "," (g :: fs)).
    destruct fs as [|g' fs].
    + reflexivity.
    + rewrite IH. reflexivity.
Qed.

Lemma join_empty_cons (f : string) (fs : list string) :
  Array_join "" (f :: fs) = f +:+ Array_join "" fs.
Proof.
  unfold Array_join. destruct fs; simpl; [|reflexivity].
  symmetry. apply string_app_nil_r.
Qed.

Lemma join_empty_length (fs : list string) :
  String.length (Array_join "" (map (fun g => "," +:+ g) fs))
  = String.length (Array_join "" fs) + length fs.
Proof.
  induction fs as [|g fs IH]; [reflexivity|].
  cbn [map]. rewrite !join_empty_cons, !string_length_app, IH. simpl. lia.
Qed.

Lemma string_app_length_neq (a b c : string) :
  String.length b <> String.length c -> a +:+ b <> a +:+ c.
Proof.
  intros H E. apply H.
  apply (f_equal String.length) in E. rewrite !string_length_app in E. lia.
Qed.

Section QueryStrings.

Variable Endpoints : EndpointsT.
Variable fraction_digits : number -> string.

Local Abbreviation fragment_of options sep k :=
  (sep +:+ k +:+ "=" +:+ ToString fraction_digits (get options k)).

Lemma query_fragments_cons (options : JsObject) :
  forall k ks, Object_keys options = k :: ks ->
  query_fragments fraction_digits options
  = fragment_of options "?" k :: map (fun k' => fragment_of options "&" k') ks.
Proof.
  intros k ks H. unfold query_fragments. rewrite H. rewrite imap_cons.
  f_equal. rewrite <- imap_const. apply imap_ext. intros i k' _. reflexivity.
Qed.

(** C8.  With two or more keys in [options], [getGuildBans] interpolates
    the array of fragments as it is: the URL is the route, the first
    fragment, and every later fragment (each starting with "&") behind a
    comma, which is not the joined query string.  [getGuildPruneCount] and
    [getInvite] hand over the route followed by the fragments joined with
    the empty string. *)
Theorem getGuildBans_interpolates_the_array (guildId inviteId : string)
    (options : JsObject) :
  2 <= length (Object_keys options) ->
  exists first rest,
    query_fragments fraction_digits options = first :: rest
    /\ rest <> []
    /\ (forall f, In f rest -> exists k, f = fragment_of options "&" k)
    /\ getGuildBans Endpoints fraction_digits guildId (Some options)
       = request (GUILD_BANS Endpoints guildId +:+ first +:+
                  Array_join "" (map (fun f => "," +:+ f) rest))
                 "get" "json" VUndefined
    /\ GUILD_BANS Endpoints guildId +:+ first +:+
       Array_join "" (map (fun f => "," +:+ f) rest)
       <> GUILD_BANS Endpoints guildId +:+ first +:+ Array_join "" rest
    /\ getGuildPruneCount Endpoints fraction_digits guildId (Some options)
       = request (GUILD_PRUNE Endpoints guildId +:+ first +:+ Array_join "" rest)
                 "get" "json" VUndefined
    /\ getInvite Endpoints fraction_digits inviteId (Some options)
       = request (INVITES Endpoints inviteId +:+ first +:+ Array_join "" rest)
                 "get" "json" VUndefined.
Proof.
  intros Hlen.
  destruct (Object_keys options) as [|k0 [|k1 ks]] eqn:Hk;
    [simpl in Hlen; lia | simpl in Hlen; lia |].
  pose proof (query_fragments_cons options k0 (k1 :: ks) Hk) as Hf.
  eexists _, _. split; [exact Hf|].
  split; [discriminate|].
  split.
  { intros f Hin. apply in_map_iff in Hin as (k & <- & _). exists k. reflexivity. }
  split.
  { unfold getGuildBans. rewrite Hf, join_comma. reflexivity. }
  split.
  { apply string_app_length_neq.
    rewrite !string_length_app, join_empty_length. simpl. lia. }
  split.
  - unfold getGuildPruneCount. rewrite Hf, join_empty_cons. reflexivity.
  - unfold getInvite. rewrite Hf, join_empty_cons. reflexivity.
Qed.

End QueryStrings.

(** C8 on [{ limit: 1, before: "2" }]. *)
Lemma getGuildBans_interpolates_the_array_witness :
  2 <= length (Object_keys [("limit", VNumber (number_of_Z 1)); ("before", VString "2")])
  /\ exists first rest,
       query_fragments sampleDigits
         [("limit", VNumber (number_of_Z 1)); ("before", VString "2")]
       = first :: rest
       /\ getGuildBans sampleEndpoints sampleDigits "g"
            (Some [("limit", VNumber (number_of_Z 1)); ("before", VString "2")])
          = request (GUILD_BANS sampleEndpoints "g" +:+ first +:+
                     Array_join "" (map (fun f => "," +:+ f) rest))
                    "get" "json" VUndefined.
Proof.
  assert (H : 2 <= length (Object_keys
                [("limit", VNumber (number_of_Z 1)); ("before", VString "2")]))
    by (simpl; lia).
  split; [exact H|].
  destruct (getGuildBans_interpolates_the_array sampleEndpoints sampleDigits
              "g" "i" _ H)
    as (first & rest & Hf & _ & _ & Hb & _).
  exists first, rest. split; [exact Hf | exact Hb].
Defined.

(** The URLs of the three wrappers on [{ limit: 1, before: "2" }]. *)
Example getGuildBans_url :
  getGuildBans sampleEndpoints sampleDigits "g"
    (Some [("limit", VNumber (number_of_Z 1)); ("before", VString "2")])
  = request "/guilds/g/bans?limit=1,&before=2" "get" "json" VUndefined
  /\ getGuildPruneCount sampleEndpoints sampleDigits "g"
       (Some [("limit", VNumber (number_of_Z 1)); ("before", VString "2")])
     = request "/guilds/g/prune?limit=1&before=2" "get" "json" VUndefined
  /\ getInvite sampleEndpoints sampleDigits "i"
       (Some [("limit", VNumber (number_of_Z 1)); ("before", VString "2")])
     = request "/invites/i?limit=1&before=2" "get" "json" VUndefined.
Proof. repeat split; reflexivity. Qed.

(** ** Reasons *)

(** C9.  Each of the seven delete-style wrappers with a reason hands over
    the same payload: [{ reason }] exactly when the reason is a non-empty
    string, [undefined] exactly when it is undefined or the empty string. *)
Theorem empty_reason_is_dropped (Endpoints : EndpointsT) (reason : option string) :
  exists p,
    (forall g m r, removeGuildMemberRole Endpoints g m r reason
                   = request (GUILD_MEMBER_ROLE Endpoints g m r) "delete" "json" p)
    /\ (forall g m, removeGuildMember Endpoints g m reason
                    = request (GUILD_MEMBER Endpoints g m) "delete" "json" p)
    /\ (forall g m, removeGuildBan Endpoints g m reason
                    = request (GUILD_BAN Endpoints g m) "delete" "json" p)
    /\ (forall g r, removeGuildRole Endpoints g r reason
                    = request (GUILD_ROLE Endpoints g r) "delete" "json" p)
    /\ (forall g i, removeGuildIntegration Endpoints g i reason
                    = request (GUILD_INTEGRATION Endpoints g i) "delete" "json" p)
    /\ (forall g e, deleteEmoji Endpoints g e reason
                    = request (GUILD_EMOJI Endpoints g e) "delete" "json" p)
    /\ (forall g i, deleteGuildSticker Endpoints g i reason
                    = request (GUILD_STICKER Endpoints g i) "delete" "json" p)
    /\ (forall s, p = VObject [("reason", VString s)] <-> reason = Some s /\ s <> "")
    /\ (p = VUndefined <-> reason = None \/ reason = Some "").
Proof.
  exists (reason_payload reason).
  do 7 (split; [intros; reflexivity|]).
  unfold reason_payload.
  destruct reason as [s|]; simpl.
  - destruct (String.eqb_spec s "") as [-> | Hne]; simpl.
    + split.
      * intros s'. split; [discriminate|]. intros [H1 H2]. inversion H1; subst.
        contradiction.
      * split; [intros _; right; reflexivity | reflexivity].
    + split.
      * intros s'. split.
        -- intros H. inversion H; subst. split; [reflexivity | assumption].
        -- intros [H _]. inversion H; subst. reflexivity.
      * split; [discriminate|]. intros [H | H]; [discriminate|].
        inversion H; subst. contradiction.
  - split.
    + intros s. split; [discriminate|]. intros [H _]. discriminate.
    + split; [intros _; left; reflexivity | reflexivity].
Qed.

(** The payloads of [removeGuildBan] for a reason, the empty string and no
    reason. *)
Example removeGuildBan_payloads :
  removeGuildBan sampleEndpoints "g" "m" (Some "This guy was cool")
  = request "/guilds/g/bans/m" "delete" "json"
            (VObject [("reason", VString "This guy was cool")])
  /\ removeGuildBan sampleEndpoints "g" "m" (Some "")
     = request "/guilds/g/bans/m" "delete" "json" VUndefined
  /\ removeGuildBan sampleEndpoints "g" "m" None
     = request "/guilds/g/bans/m" "delete" "json" VUndefined.
Proof. repeat split; reflexivity. Qed.

(** ** OAuth application *)

(** C10.  [getOAuthApplication] targets the route for "@me" when [appID] is
    undefined or the empty string and the route for [appID] when it is any
    other string; the verb is get and the kind json in every case. *)
Theorem getOAuthApplication_route (Endpoints : EndpointsT) (appID : option string) :
  exists target,
    getOAuthApplication Endpoints appID
    = request (OAUTH2_APPLICATION Endpoints target) "get" "json" VUndefined
    /\ (appID = None \/ appID = Some "" -> target = "@me")
    /\ (forall s, appID = Some s -> s <> "" -> target = s).
Proof.
  destruct appID as [s|].
  - destruct (String.eqb_spec s "") as [-> | Hne].
    + exists "@me". split; [reflexivity|]. split; [reflexivity|].
      intros s [= <-] H. contradiction.
    + exists s. split.
      * unfold getOAuthApplication, ToBoolean.
        destruct (String.eqb_spec s ""); [contradiction | reflexivity].
      * split.
        -- intros [H | H]; [discriminate|]. inversion H; subst. contradiction.
        -- intros s' [= <-] _. reflexivity.
  - exists "@me". split; [reflexivity|]. split; [reflexivity|].
    intros s H. discriminate.
Qed.

(** C10 on no id, the empty id and an id. *)
Lemma getOAuthApplication_route_witness :
  getOAuthApplication sampleEndpoints None
  = request "/oauth2/applications/@me" "get" "json" VUndefined
  /\ getOAuthApplication sampleEndpoints (Some "")
     = request "/oauth2/applications/@me" "get" "json" VUndefined
  /\ getOAuthApplication sampleEndpoints (Some "42")
     = request "/oauth2/applications/42" "get" "json" VUndefined.
Proof.
  split; [|split].
  - destruct (getOAuthApplication_route sampleEndpoints None) as (t & E & H & _).
    rewrite E, (H (or_introl eq_refl)). reflexivity.
  - destruct (getOAuthApplication_route sampleEndpoints (Some "")) as (t & E & H & _).
    rewrite E, (H (or_intror eq_refl)). reflexivity.
  - destruct (getOAuthApplication_route sampleEndpoints (Some "42")) as (t & E & _ & H).
    rewrite E, (H "42" eq_refl ltac:(discriminate)). reflexivity.
Defined.

(** ** Integers as doubles *)

Lemma digits2_pos_size (p : positive) : digits2_pos p = Pos.size p.
Proof. induction p; simpl; congruence. Qed.

Lemma size_iter_xO (p d : positive) :
  Pos.size (Pos.iter xO p d) = (Pos.size p + d)%positive.
Proof.
  revert p. induction d as [|d IH] using Pos.peano_ind; intros p.
  - simpl. lia.
  - rewrite Pos.iter_succ. simpl. rewrite IH. lia.
Qed.

(** A mantissa of 53 bits with an exponent in range is left as it is. *)
Lemma binary_round_aux_exact (s : bool) (m : positive) (e : Z) :
  Z.pos (Pos.size m) = 53%Z -> (-1074 <= e <= 971)%Z ->
  binary_round_aux 53 1024 s (Z.pos m) e loc_Exact = S754_finite s m e.
Proof.
  intros Hm He.
  assert (F : shr_fexp 53 1024 (Z.pos m) e loc_Exact
              = ({| shr_m := Z.pos m; shr_r := false; shr_s := false |}, e)).
  { unfold shr_fexp, Zdigits2. rewrite digits2_pos_size, Hm.
    unfold fexp, emin. rewrite Z.max_l by lia.
    replace (53 + e - 53 - e)%Z with 0%Z by lia. reflexivity. }
  unfold binary_round_aux. rewrite F. cbn [shr_m loc_of_shr_record round_nearest_even].
  rewrite F. cbn [shr_m].
  destruct (Z.leb_spec e (1024 - 53)); [reflexivity | lia].
Qed.

(** An integer of at most 53 bits is shifted up to 53 bits, exactly. *)
Lemma binary_round_small (s : bool) (p : positive) :
  (Z.pos (Pos.size p) <= 53)%Z ->
  binary_round 53 1024 s p 0
  = S754_finite s (Pos.shiftl p (Z.to_N (53 - Z.pos (Pos.size p))))
                (Z.pos (Pos.size p) - 53).
Proof.
  intros H. unfold binary_round.
  rewrite digits2_pos_size, Z.add_0_r.
  unfold fexp, emin.
  rewrite Z.max_l by lia.
  unfold shl_align. rewrite Z.sub_0_r.
  destruct (Z.pos (Pos.size p) - 53)%Z as [|d|d] eqn:E; [|lia|].
  - replace (53 - Z.pos (Pos.size p))%Z with 0%Z by lia. simpl Z.to_N.
    change (Pos.shiftl p 0) with p. apply binary_round_aux_exact; lia.
  - replace (53 - Z.pos (Pos.size p))%Z with (Z.pos d) by lia. simpl Z.to_N.
    change (Pos.shiftl p (N.pos d)) with (Pos.iter xO p d).
    apply binary_round_aux_exact; [rewrite size_iter_xO|]; lia.
Qed.

Lemma iter_xO_mul (p d : positive) :
  Z.pos (Pos.iter xO p d) = (Z.pos p * 2 ^ Z.pos d)%Z.
Proof.
  induction d as [|d IH] using Pos.peano_ind.
  - simpl. lia.
  - rewrite Pos.iter_succ, Pos2Z.inj_succ, Z.pow_succ_r by lia.
    rewrite Pos2Z.inj_xO, IH. ring.
Qed.

Lemma shiftl_mul (p : positive) (d : N) :
  Z.pos (Pos.shiftl p d) = (Z.pos p * 2 ^ Z.of_N d)%Z.
Proof.
  destruct d as [|d]; [simpl; rewrite Z.mul_1_r; reflexivity|].
  change (Pos.shiftl p (N.pos d)) with (Pos.iter xO p d). apply iter_xO_mul.
Qed.

Lemma N_shiftl_pos (p : positive) (d : N) :
  N.pos (Pos.shiftl p d) = (N.pos p * 2 ^ d)%N.
Proof.
  change (N.pos (Pos.shiftl p d)) with (N.shiftl (N.pos p) d).
  apply N.shiftl_mul_pow2.
Qed.

Lemma size_bounds (p : positive) :
  (2 ^ (Z.pos (Pos.size p) - 1) <= Z.pos p < 2 ^ Z.pos (Pos.size p))%Z.
Proof.
  split.
  - pose proof (Pos.size_le p) as H.
    assert (H' : (2 ^ Z.pos (Pos.size p) <= 2 * Z.pos p)%Z).
    { rewrite <- Pos2Z.inj_pow. change (2 * Z.pos p)%Z with (Z.pos p~0). lia. }
    replace (Z.pos (Pos.size p)) with (Z.succ (Z.pos (Pos.size p) - 1)) in H' by lia.
    rewrite Z.pow_succ_r in H' by lia. lia.
  - pose proof (Pos.size_gt p) as H. rewrite <- Pos2Z.inj_pow. lia.
Qed.

Lemma size_safe (p : positive) :
  (Z.pos p < 2 ^ 53)%Z -> (Z.pos (Pos.size p) <= 53)%Z.
Proof.
  intros H. destruct (Z.le_gt_cases (Z.pos (Pos.size p)) 53) as [L|G]; [exact L|].
  pose proof (size_bounds p) as [B _].
  assert (2 ^ 53 <= 2 ^ (Z.pos (Pos.size p) - 1))%Z by (apply Z.pow_le_mono_r; lia).
  lia.
Qed.

Lemma size_lt_lt (p q : positive) :
  (Pos.size p < Pos.size q)%positive -> (p < q)%positive.
Proof.
  intros H. pose proof (size_bounds p) as [_ Bp]. pose proof (size_bounds q) as [Bq _].
  assert (2 ^ Z.pos (Pos.size p) <= 2 ^ (Z.pos (Pos.size q) - 1))%Z
    by (apply Z.pow_le_mono_r; lia).
  lia.
Qed.

(** Exponent first, mantissa second: on two positive integers of at most 53
    bits this is the order of the integers. *)
Lemma compare_small (p q : positive) :
  (Z.pos (Pos.size p) <= 53)%Z -> (Z.pos (Pos.size q) <= 53)%Z ->
  match (Z.pos (Pos.size p) - 53 ?= Z.pos (Pos.size q) - 53)%Z with
  | Lt => Lt
  | Gt => Gt
  | Eq => Pos.compare_cont Eq
            (Pos.shiftl p (Z.to_N (53 - Z.pos (Pos.size p))))
            (Pos.shiftl q (Z.to_N (53 - Z.pos (Pos.size q))))
  end = (p ?= q)%positive.
Proof.
  intros Hp Hq.
  destruct (Z.compare_spec (Z.pos (Pos.size p) - 53) (Z.pos (Pos.size q) - 53)) as [E|L|G].
  - assert (E' : Pos.size p = Pos.size q) by lia. rewrite E'.
    change (Pos.compare_cont Eq ?a ?b) with (a ?= b)%positive.
    set (d := Z.to_N (53 - Z.pos (Pos.size q))).
    pose proof (shiftl_mul p d) as Sp. pose proof (shiftl_mul q d) as Sq.
    assert (0 < 2 ^ Z.of_N d)%Z by (apply Z.pow_pos_nonneg; lia).
    destruct (Pos.compare_spec p q) as [->|Lpq|Gpq].
    + apply Pos.compare_refl.
    + apply Pos.compare_lt_iff. nia.
    + apply Pos.compare_gt_iff. nia.
  - symmetry. apply Pos.compare_lt_iff, size_lt_lt. lia.
  - symmetry. apply Pos.compare_gt_iff, size_lt_lt. lia.
Qed.

Lemma number_of_Z_pos (p : positive) :
  (Z.pos p < 2 ^ 53)%Z ->
  number_of_Z (Z.pos p)
  = S754_finite false (Pos.shiftl p (Z.to_N (53 - Z.pos (Pos.size p))))
                (Z.pos (Pos.size p) - 53).
Proof. intros H. apply binary_round_small, size_safe, H. Qed.

Lemma number_of_Z_neg (p : positive) :
  (Z.pos p < 2 ^ 53)%Z ->
  number_of_Z (Z.neg p)
  = S754_finite true (Pos.shiftl p (Z.to_N (53 - Z.pos (Pos.size p))))
                (Z.pos (Pos.size p) - 53).
Proof. intros H. apply binary_round_small, size_safe, H. Qed.

(** On integers of magnitude below 2^53 the comparison of doubles is the
    comparison of integers. *)
Lemma SFcompare_number_of_Z (a b : Z) :
  (Z.abs a < 2 ^ 53)%Z -> (Z.abs b < 2 ^ 53)%Z ->
  SFcompare (number_of_Z a) (number_of_Z b) = Some (a ?= b)%Z.
Proof.
  intros Ha Hb.
  destruct a as [|p|p], b as [|q|q];
    try (rewrite (number_of_Z_pos p) by exact Ha);
    try (rewrite (number_of_Z_neg p) by exact Ha);
    try (rewrite (number_of_Z_pos q) by exact Hb);
    try (rewrite (number_of_Z_neg q) by exact Hb);
    try reflexivity.
  - simpl SFcompare. f_equal. apply compare_small; apply size_safe; assumption.
  - simpl SFcompare. f_equal.
    change (Z.neg p ?= Z.neg q)%Z with (CompOpp (p ?= q)%positive).
    rewrite <- (compare_small p q) by (apply size_safe; assumption).
    destruct (Z.pos (Pos.size p) - 53 ?= Z.pos (Pos.size q) - 53)%Z; reflexivity.
Qed.

Lemma js_lt_number_of_Z (a b : Z) :
  (Z.abs a < 2 ^ 53)%Z -> (Z.abs b < 2 ^ 53)%Z ->
  js_lt (number_of_Z a) (number_of_Z b) = (a <? b)%Z.
Proof.
  intros Ha Hb. unfold js_lt, SFltb. rewrite SFcompare_number_of_Z by assumption.
  unfold Z.ltb. destruct (a ?= b)%Z; reflexivity.
Qed.

(** The double of a positive integer below 2^53 denotes that integer. *)
Lemma integral_magnitude_small (p : positive) :
  (Z.pos p < 2 ^ 53)%Z ->
  integral_magnitude (Pos.shiftl p (Z.to_N (53 - Z.pos (Pos.size p))))
                     (Z.pos (Pos.size p) - 53)
  = Some (N.pos p).
Proof.
  intros H. pose proof (size_safe p H) as Hs.
  unfold integral_magnitude. rewrite N_shiftl_pos.
  set (d := Z.to_N (53 - Z.pos (Pos.size p))).
  assert (Hd : (2 ^ d <> 0)%N) by (apply N.pow_nonzero; discriminate).
  destruct (Z.leb_spec 0 (Z.pos (Pos.size p) - 53)) as [L|G].
  - assert (E : d = 0%N) by (unfold d; lia).
    replace (Z.to_N (Z.pos (Pos.size p) - 53)) with 0%N by lia.
    rewrite E. rewrite N.pow_0_r, N.mul_1_r. rewrite N.mul_1_r. reflexivity.
  - replace (Z.to_N (- (Z.pos (Pos.size p) - 53))) with d by (unfold d; lia).
    rewrite N.Div0.mod_mul. simpl (0 =? 0)%N. cbv iota.
    rewrite N.div_mul by exact Hd. reflexivity.
Qed.

(** An integer of magnitude below 2^53 is printed as its decimal digits,
    whatever the runtime's digit generation for the other doubles. *)
Lemma Number_toString_number_of_Z (fraction_digits : number -> string) (z : Z) :
  (Z.abs z < 2 ^ 53)%Z ->
  Number_toString fraction_digits (number_of_Z z)
  = NilZero.string_of_int (Z.to_int z).
Proof.
  intros H.
  assert (B : forall p, (Z.pos p < 2 ^ 53)%Z -> (N.pos p <? 2 ^ 53)%N = true).
  { intros p Hp. apply N.ltb_lt.
    assert (Z.of_N (N.pos p) < Z.of_N (2 ^ 53))%Z; [|lia].
    change (Z.of_N (N.pos p)) with (Z.pos p).
    change (Z.of_N (2 ^ 53)) with (2 ^ 53)%Z. exact Hp. }
  destruct z as [|p|p].
  - reflexivity.
  - rewrite number_of_Z_pos by exact H. unfold Number_toString.
    rewrite integral_magnitude_small, B by exact H. reflexivity.
  - rewrite number_of_Z_neg by exact H. unfold Number_toString.
    rewrite integral_magnitude_small, B by exact H. reflexivity.
Qed.

(** The decimal digits of an integer read back as that integer. *)
Lemma decimal_round_trip (z : Z) :
  option_map Z.of_int (NilZero.int_of_string (NilZero.string_of_int (Z.to_int z)))
  = Some z.
Proof.
  rewrite NilZero.isi.
  - simpl. f_equal. apply DecimalZ.of_to.
  - destruct z; simpl; try discriminate.
    intros E. injection E as E. revert E. apply DecimalPos.Unsigned.to_uint_nonnil.
  - destruct z; simpl; try discriminate.
    intros E. injection E as E. revert E. apply DecimalPos.Unsigned.to_uint_nonnil.
Qed.

(** ** Strings, joins and objects *)

Lemma string_app_assoc (a b c : string) : (a +:+ b) +:+ c = a +:+ b +:+ c.
Proof.
  induction a as [|x a IH]; [reflexivity|].
  change ((String x a +:+ b) +:+ c) with (String x ((a +:+ b) +:+ c)).
  change (String x a +:+ b +:+ c) with (String x (a +:+ b +:+ c)).
  f_equal. exact IH.
Qed.

Lemma string_app_inv_head (a b c : string) : a +:+ b = a +:+ c -> b = c.
Proof.
  induction a as [|x a IH]; [intros E; exact E|].
  change (String x a +:+ b) with (String x (a +:+ b)).
  change (String x a +:+ c) with (String x (a +:+ c)).
  intros E. injection E as E. apply IH, E.
Qed.

Lemma chars_app (a b : string) :
  list_ascii_of_string (a +:+ b)
  = (list_ascii_of_string a ++ list_ascii_of_string b)%list.
Proof.
  induction a as [|x a IH]; [reflexivity|].
  change (String x a +:+ b) with (String x (a +:+ b)). simpl. f_equal. exact IH.
Qed.

(** A string is cut in one way only at the first occurrence of a
    character. *)
Lemma cut_unique (c : ascii) (a a' b b' : string) :
  ~ In c (list_ascii_of_string a) -> ~ In c (list_ascii_of_string a') ->
  a +:+ String c b = a' +:+ String c b' -> a = a' /\ b = b'.
Proof.
  revert a'. induction a as [|x a IH]; intros [|x' a'] Ha Ha' E.
  - injection E as E. split; [reflexivity | exact E].
  - change (String x' a' +:+ String c b') with (String x' (a' +:+ String c b')) in E.
    injection E as E _. exfalso. apply Ha'. left. symmetry. exact E.
  - change (String x a +:+ String c b) with (String x (a +:+ String c b)) in E.
    injection E as E _. exfalso. apply Ha. left. exact E.
  - change (String x a +:+ String c b) with (String x (a +:+ String c b)) in E.
    change (String x' a' +:+ String c b') with (String x' (a' +:+ String c b')) in E.
    injection E as Ex E.
    destruct (IH a') as [-> ->]; [| |exact E|].
    + intros H. apply Ha. right. exact H.
    + intros H. apply Ha'. right. exact H.
    + subst. split; reflexivity.
Qed.

(** Joining with a separator puts it in front of every element after the
    first. *)
Lemma join_sep (sep f : string) (fs : list string) :
  Array_join sep (f :: fs) = f +:+ Array_join "" (map (fun g => sep +:+ g) fs).
Proof.
  unfold Array_join. revert f.
  induction fs as [|g fs IH]; intros f.
  - symmetry. apply string_app_nil_r.
  - change (String.concat sep (f :: g :: fs))
      with (f +:+ sep +:+ String.concat sep (g :: fs)).
    rewrite IH. cbn [map].
    change (String.concat "" ((sep +:+ g) :: map (fun g0 => sep +:+ g0) fs))
      with (Array_join "" ((sep +:+ g) :: map (fun g0 => sep +:+ g0) fs)).
    rewrite join_empty_cons. rewrite string_app_assoc. reflexivity.
Qed.

(** Elements free of the separator are recovered from their join. *)
Lemma join_unique (c : ascii) (ps qs : list string) :
  (forall p, In p ps -> ~ In c (list_ascii_of_string p)) ->
  (forall q, In q qs -> ~ In c (list_ascii_of_string q)) ->
  ps <> [] -> qs <> [] ->
  Array_join (String c "") ps = Array_join (String c "") qs -> ps = qs.
Proof.
  unfold Array_join. revert qs.
  induction ps as [|p ps IH]; intros qs Hp Hq Np Nq E; [contradiction|].
  destruct qs as [|q qs]; [contradiction|].
  destruct ps as [|p' ps], qs as [|q' qs].
  - simpl in E. congruence.
  - exfalso. apply (Hp p (or_introl eq_refl)).
    change (String.concat (String c "") (q :: q' :: qs))
      with (q +:+ String c (String.concat (String c "") (q' :: qs))) in E.
    simpl in E. rewrite E, chars_app. apply in_or_app. right. left. reflexivity.
  - exfalso. apply (Hq q (or_introl eq_refl)).
    change (String.concat (String c "") (p :: p' :: ps))
      with (p +:+ String c (String.concat (String c "") (p' :: ps))) in E.
    simpl in E. rewrite <- E, chars_app. apply in_or_app. right. left. reflexivity.
  - change (String.concat (String c "") (p :: p' :: ps))
      with (p +:+ String c (String.concat (String c "") (p' :: ps))) in E.
    change (String.concat (String c "") (q :: q' :: qs))
      with (q +:+ String c (String.concat (String c "") (q' :: qs))) in E.
    apply cut_unique in E as [-> E];
      [| apply Hp; left; reflexivity | apply Hq; left; reflexivity].
    f_equal. apply IH; try discriminate; [| |exact E].
    + intros x Hx. apply Hp. right. exact Hx.
    + intros x Hx. apply Hq. right. exact Hx.
Qed.

(** In an object without duplicate keys a listed property is the one [get]
    finds. *)
Lemma get_listed (o : JsObject) (k : string) (v : value) :
  NoDup (Object_keys o) -> In (k, v) o -> get o k = v.
Proof.
  induction o as [|[k' v'] o IH]; intros Hnd Hin; [destruct Hin|].
  apply NoDup_cons in Hnd as [Hk Hnd]. cbn [get].
  destruct (String.eqb_spec k' k) as [->|Hne].
  - destruct Hin as [E|Hin]; [congruence|].
    exfalso. apply Hk. apply list_elem_of_In.
    unfold Object_keys. apply in_map_iff. exists (k, v). split; [reflexivity|exact Hin].
  - destruct Hin as [E|Hin]; [congruence|]. apply IH; assumption.
Qed.

Lemma request_inj (u v d u' v' d' : string) (data data' : value) :
  request u v d data = request u' v' d' data' ->
  u = u' /\ v = v' /\ d = d' /\ data = data'.
Proof. intros E. injection E as -> -> -> ->. repeat split. Qed.

Lemma hands_over_request (u v d : string) (data : value) (r : DispatcherRequest) :
  hands_over (request u v d data) r -> r = mkRequest u v d data.
Proof.
  intros H.
  pose proof (hands_over_requests _ _ unit (fun _ _ => (tt, 0)) tt H) as H1.
  pose proof (hands_over_requests _ _ unit (fun _ _ => (tt, 0)) tt
                (request_hands_over u v d data)) as H2.
  congruence.
Qed.

(** ** The query strings in closed form *)

Section QueryStringFacts.

Variable Endpoints : EndpointsT.
Variable fraction_digits : number -> string.

Local Abbreviation str := (ToString fraction_digits).
Local Abbreviation pair_of kv := (fst kv +:+ "=" +:+ str (snd kv)).

(** The fragments joined with the empty string are the query string of the
    object: "?" and the pairs [key=value] separated by "&". *)
Lemma joined_fragments (o : JsObject) :
  o <> [] -> NoDup (Object_keys o) ->
  Array_join "" (query_fragments fraction_digits o)
  = "?" +:+ Array_join "&" (map (fun kv => pair_of kv) o).
Proof.
  intros Hne Hnd. destruct o as [|[k v] o]; [contradiction|].
  rewrite (query_fragments_cons fraction_digits ((k, v) :: o) k (Object_keys o) eq_refl).
  rewrite join_empty_cons. cbn [map]. rewrite join_sep.
  rewrite (get_listed _ k v Hnd (or_introl eq_refl)).
  cbn [fst snd]. rewrite !string_app_assoc. do 4 f_equal.
  unfold Object_keys. rewrite !map_map. f_equal. apply map_ext_in.
  intros [k' v'] Hin. cbn [fst snd].
  rewrite (get_listed _ k' v' Hnd (or_intror Hin)). reflexivity.
Qed.

(** X1.  For a non-empty [query] object (its keys distinct, as those of an
    object are), [getGuildPruneCount] and [getInvite] request the route
    followed by "?" and the pairs key=value, in the order of the keys,
    separated by "&". *)
Theorem query_string_is_well_formed (id : string) (query : JsObject) :
  query <> [] -> NoDup (Object_keys query) ->
  getGuildPruneCount Endpoints fraction_digits id (Some query)
  = request (GUILD_PRUNE Endpoints id +:+ "?" +:+
             Array_join "&" (map (fun kv => fst kv +:+ "=" +:+ str (snd kv)) query))
            "get" "json" VUndefined
  /\ getInvite Endpoints fraction_digits id (Some query)
     = request (INVITES Endpoints id +:+ "?" +:+
                Array_join "&" (map (fun kv => fst kv +:+ "=" +:+ str (snd kv)) query))
               "get" "json" VUndefined.
Proof.
  intros Hne Hnd. unfold getGuildPruneCount, getInvite.
  rewrite (joined_fragments query Hne Hnd). split; reflexivity.
Qed.

(** X2.  Without an options object, or with an empty one, [getGuildBans],
    [getGuildPruneCount] and [getInvite] request the bare route: nothing,
    not even "?", is appended. *)
Theorem no_options_no_query_string (id : string) (options : option JsObject) :
  options = None \/ options = Some [] ->
  getGuildBans Endpoints fraction_digits id options
  = request (GUILD_BANS Endpoints id) "get" "json" VUndefined
  /\ getGuildPruneCount Endpoints fraction_digits id options
     = request (GUILD_PRUNE Endpoints id) "get" "json" VUndefined
  /\ getInvite Endpoints fraction_digits id options
     = request (INVITES Endpoints id) "get" "json" VUndefined.
Proof.
  intros [-> | ->]; unfold getGuildBans, getGuildPruneCount, getInvite;
    cbn [query_fragments Object_keys map imap Array_toString Array_join String.concat];
    rewrite !string_app_nil_r; repeat split.
Qed.

(** X3.  The URL of [getGuildBans] is the route followed by the joined
    fragments, the URL the two other wrappers would build, exactly when
    [options] has at most one key: the missing join shows from the second
    option on, and never before. *)
Theorem getGuildBans_is_joined_iff_at_most_one_option (guildId : string)
    (options : JsObject) :
  getGuildBans Endpoints fraction_digits guildId (Some options)
  = request (GUILD_BANS Endpoints guildId +:+
             Array_join "" (query_fragments fraction_digits options))
            "get" "json" VUndefined
  <-> length (Object_keys options) <= 1.
Proof.
  unfold getGuildBans.
  destruct (Object_keys options) as [|k0 ks] eqn:Hk.
  - unfold query_fragments. rewrite Hk. simpl. split; [lia | reflexivity].
  - rewrite (query_fragments_cons fraction_digits options k0 ks Hk).
    rewrite join_comma, join_empty_cons.
    destruct ks as [|k1 ks].
    + simpl. split; [lia | reflexivity].
    + split; [|simpl; lia]. intros E. exfalso.
      apply request_inj in E as [E _].
      apply string_app_inv_head, string_app_inv_head in E.
      apply (f_equal String.length) in E.
      rewrite join_empty_length in E. simpl in E. lia.
Qed.

(** X4.  The values are interpolated as they are, nothing is escaped: a
    string value that contains "&key=value" yields the very request of the
    object with that second property.  The second key is one that is not a
    string of digits, so that the two keys in this order are the key order
    of an object whatever the first key is. *)
Theorem query_values_are_not_escaped (id k1 k2 v1 v2 : string) :
  k1 <> k2 -> digits_only k2 = false ->
  getInvite Endpoints fraction_digits id
    (Some [(k1, VString (v1 +:+ "&" +:+ k2 +:+ "=" +:+ v2))])
  = getInvite Endpoints fraction_digits id
      (Some [(k1, VString v1); (k2, VString v2)])
  /\ getGuildPruneCount Endpoints fraction_digits id
       (Some [(k1, VString (v1 +:+ "&" +:+ k2 +:+ "=" +:+ v2))])
     = getGuildPruneCount Endpoints fraction_digits id
         (Some [(k1, VString v1); (k2, VString v2)]).
Proof.
  intros Hne _.
  assert (Hnd : NoDup (Object_keys [(k1, VString v1); (k2, VString v2)])).
  { simpl. apply NoDup_cons. split; [|apply NoDup_singleton].
    intros H. apply list_elem_of_In in H. destruct H as [H|[]]. congruence. }
  assert (Hnd1 : NoDup (Object_keys
                   [(k1, VString (v1 +:+ "&" +:+ k2 +:+ "=" +:+ v2))])).
  { simpl. apply NoDup_singleton. }
  unfold getInvite, getGuildPruneCount.
  rewrite !joined_fragments by (assumption || discriminate).
  cbn [map fst snd ToString]. rewrite !join_sep. cbn [map].
  rewrite !join_empty_cons.
  assert (E : forall a, a +:+ Array_join "" [] = a) by (intros a; apply string_app_nil_r).
  rewrite !E. rewrite !string_app_assoc. split; reflexivity.
Qed.

(** An options object whose values are all strings. *)
Local Abbreviation of_strings o :=
  (map (fun kv : string * string => (fst kv, VString (snd kv))) o).

(** Distinct keys, no "&" or "=" in a key, no "&" in a value. *)
Local Abbreviation plain o :=
  (NoDup (map fst o)
   /\ forall k v, In (k, v) o ->
        ~ In "&"%char (list_ascii_of_string k)
        /\ ~ In "="%char (list_ascii_of_string k)
        /\ ~ In "&"%char (list_ascii_of_string v)).

Lemma pairs_unique (o1 o2 : list (string * string)) :
  (forall k v, In (k, v) o1 -> ~ In "="%char (list_ascii_of_string k)) ->
  (forall k v, In (k, v) o2 -> ~ In "="%char (list_ascii_of_string k)) ->
  map (fun kv => pair_of kv) (of_strings o1)
  = map (fun kv => pair_of kv) (of_strings o2) ->
  o1 = o2.
Proof.
  revert o2. induction o1 as [|[k v] o1 IH]; intros [|[k' v'] o2] H1 H2 E;
    try discriminate E; [reflexivity|].
  cbn [map fst snd ToString] in E. injection E as E E'.
  apply cut_unique in E as [-> ->];
    [| apply (H1 k v); left; reflexivity | apply (H2 k' v'); left; reflexivity].
  f_equal. apply IH; [| |exact E'].
  - intros a b Hin. apply (H1 a b). right. exact Hin.
  - intros a b Hin. apply (H2 a b). right. exact Hin.
Qed.

Lemma plain_pairs (o : list (string * string)) (p : string) :
  plain o -> In p (map (fun kv => pair_of kv) (of_strings o)) ->
  ~ In "&"%char (list_ascii_of_string p).
Proof.
  intros [_ P] Hin. apply in_map_iff in Hin as ([k v] & <- & Hin).
  apply in_map_iff in Hin as ([k0 v0] & [= <- <-] & Hin).
  cbn [fst snd ToString]. rewrite !chars_app. intros F.
  destruct (P k0 v0 Hin) as (A & _ & B).
  apply in_app_or in F as [F|F]; [exact (A F)|].
  destruct F as [F|F]; [discriminate F | exact (B F)].
Qed.

Lemma url_unique (route : string) (o1 o2 : list (string * string)) :
  plain o1 -> plain o2 ->
  route +:+ Array_join "" (query_fragments fraction_digits (of_strings o1))
  = route +:+ Array_join "" (query_fragments fraction_digits (of_strings o2)) ->
  o1 = o2.
Proof.
  intros H1 H2 E. apply string_app_inv_head in E.
  assert (K : forall o : list (string * string),
            Object_keys (of_strings o) = map fst o).
  { intros o. unfold Object_keys. rewrite map_map. reflexivity. }
  destruct o1 as [|kv1 o1], o2 as [|kv2 o2]; [reflexivity| | |].
  - exfalso. rewrite (joined_fragments (of_strings (kv2 :: o2))) in E;
      [discriminate E | discriminate | rewrite K; apply H2].
  - exfalso. rewrite (joined_fragments (of_strings (kv1 :: o1))) in E;
      [discriminate E | discriminate | rewrite K; apply H1].
  - rewrite !joined_fragments in E;
      [| discriminate | rewrite K; first [apply H1 | apply H2]
       | discriminate | rewrite K; first [apply H1 | apply H2]].
    apply (string_app_inv_head "?") in E. apply join_unique in E.
    + apply pairs_unique in E; [exact E | |].
      * intros k v Hin. apply (proj2 H1 k v Hin).
      * intros k v Hin. apply (proj2 H2 k v Hin).
    + intros p. apply plain_pairs, H1.
    + intros p. apply plain_pairs, H2.
    + discriminate.
    + discriminate.
Qed.

(** X5.  Where no key holds "&" or "=" and no value holds "&", the query
    string determines the options: two objects of string values, each with
    distinct keys, that make [getInvite] (or [getGuildPruneCount]) hand
    over the same request are the same object. *)
Theorem query_string_determines_the_options (id : string)
    (o1 o2 : list (string * string)) :
  NoDup (map fst o1) -> NoDup (map fst o2) ->
  (forall k v, In (k, v) o1 \/ In (k, v) o2 ->
     ~ In "&"%char (list_ascii_of_string k)
     /\ ~ In "="%char (list_ascii_of_string k)
     /\ ~ In "&"%char (list_ascii_of_string v)) ->
  (getInvite Endpoints fraction_digits id
     (Some (map (fun kv => (fst kv, VString (snd kv))) o1))
   = getInvite Endpoints fraction_digits id
       (Some (map (fun kv => (fst kv, VString (snd kv))) o2)) ->
   o1 = o2)
  /\ (getGuildPruneCount Endpoints fraction_digits id
        (Some (map (fun kv => (fst kv, VString (snd kv))) o1))
      = getGuildPruneCount Endpoints fraction_digits id
          (Some (map (fun kv => (fst kv, VString (snd kv))) o2)) ->
      o1 = o2).
Proof.
  intros N1 N2 P.
  assert (H1 : plain o1) by (split; [exact N1 | intros k v H; apply P; left; exact H]).
  assert (H2 : plain o2) by (split; [exact N2 | intros k v H; apply P; right; exact H]).
  split; intros E; apply request_inj in E as [E _];
    exact (url_unique _ o1 o2 H1 H2 E).
Qed.

(** X6.  [getGuild] tells three cases apart: no [with_counts], true and
    false each give a URL of their own, so an explicit false is sent and is
    not taken for an omitted argument. *)
Theorem getGuild_with_counts_is_tristate (guildId : string)
    (with_counts : option bool) :
  getGuild Endpoints fraction_digits guildId with_counts
  = request (GUILD Endpoints guildId +:+
             match with_counts with
             | None => ""
             | Some true => "?with_counts=true"
             | Some false => "?with_counts=false"
             end) "get" "json" VUndefined
  /\ forall other,
       getGuild Endpoints fraction_digits guildId other
       = getGuild Endpoints fraction_digits guildId with_counts ->
       other = with_counts.
Proof.
  split.
  - destruct with_counts as [[|]|]; reflexivity.
  - intros other E. unfold getGuild in E.
    apply request_inj in E as [E _]. apply string_app_inv_head in E.
    destruct other as [[|]|], with_counts as [[|]|];
      try reflexivity; discriminate E.
Qed.

End QueryStringFacts.

(** ** Integer arguments *)

Section IntegerArguments.

Variable Endpoints : EndpointsT.
Variable fraction_digits : number -> string.

(** X7.  With integer bounds [lo] and [hi] and an integer limit [n], all of
    magnitude below 2^53, [searchGuildMembers] hands over its one request,
    the options as payload, exactly when [lo <= n <= hi]; otherwise it
    returns the promise rejected with the RangeError whose message spells
    the two bounds in decimal. *)
Theorem searchGuildMembers_on_integers (guildId query : string) (lo hi n : Z) :
  (Z.abs lo < 2 ^ 53)%Z -> (Z.abs hi < 2 ^ 53)%Z -> (Z.abs n < 2 ^ 53)%Z ->
  searchGuildMembers Endpoints
    {| SEARCH_MEMBERS_MIN_RESULTS := number_of_Z lo;
       SEARCH_MEMBERS_MAX_RESULTS := number_of_Z hi |}
    fraction_digits guildId {| query := query; limit := Some (number_of_Z n) |}
  = if ((lo <=? n) && (n <=? hi))%Z
    then request (GUILD_MEMBERS_SEARCH Endpoints guildId) "get" "json"
           (VObject [("query", VString query); ("limit", VNumber (number_of_Z n))])
    else Done (Returns (RejectedWith (RangeError
           ("Limit for searching guild members has to be between " +:+
            NilZero.string_of_int (Z.to_int lo) +:+ " and " +:+
            NilZero.string_of_int (Z.to_int hi))))).
Proof.
  intros Hlo Hhi Hn. unfold searchGuildMembers, limit_rejected. cbn [limit].
  cbn [SEARCH_MEMBERS_MIN_RESULTS SEARCH_MEMBERS_MAX_RESULTS].
  unfold js_gt. rewrite !js_lt_number_of_Z by assumption.
  unfold searchGuildMembers_message.
  cbn [SEARCH_MEMBERS_MIN_RESULTS SEARCH_MEMBERS_MAX_RESULTS ToString].
  rewrite !Number_toString_number_of_Z by assumption.
  destruct (Z.leb_spec lo n), (Z.leb_spec n hi), (Z.ltb_spec n lo), (Z.ltb_spec hi n);
    try lia; reflexivity.
Qed.

(** X8.  An integer option of magnitude below 2^53 reaches the URL as its
    decimal digits (which read back as that integer), whatever the runtime
    prints for the other doubles: [{ k: n }] gives "?k=n" behind the route
    in each of the three wrappers. *)
Theorem integer_options_are_written_in_decimal (id k : string) (n : Z) :
  (Z.abs n < 2 ^ 53)%Z ->
  getGuildBans Endpoints fraction_digits id (Some [(k, VNumber (number_of_Z n))])
  = request (GUILD_BANS Endpoints id +:+ "?" +:+ k +:+ "=" +:+
             NilZero.string_of_int (Z.to_int n)) "get" "json" VUndefined
  /\ getGuildPruneCount Endpoints fraction_digits id
       (Some [(k, VNumber (number_of_Z n))])
     = request (GUILD_PRUNE Endpoints id +:+ "?" +:+ k +:+ "=" +:+
                NilZero.string_of_int (Z.to_int n)) "get" "json" VUndefined
  /\ getInvite Endpoints fraction_digits id (Some [(k, VNumber (number_of_Z n))])
     = request (INVITES Endpoints id +:+ "?" +:+ k +:+ "=" +:+
                NilZero.string_of_int (Z.to_int n)) "get" "json" VUndefined
  /\ option_map Z.of_int
       (NilZero.int_of_string (NilZero.string_of_int (Z.to_int n)))
     = Some n.
Proof.
  intros Hn.
  assert (F : query_fragments fraction_digits [(k, VNumber (number_of_Z n))]
              = ["?" +:+ k +:+ "=" +:+ NilZero.string_of_int (Z.to_int n)]).
  { rewrite (query_fragments_cons fraction_digits [(k, VNumber (number_of_Z n))]
               k [] eq_refl).
    cbn [map get]. rewrite String.eqb_refl. cbn [ToString].
    rewrite Number_toString_number_of_Z by exact Hn. reflexivity. }
  unfold getGuildBans, getGuildPruneCount, getInvite. rewrite F.
  unfold Array_toString, Array_join. cbn [String.concat].
  repeat split. apply decimal_round_trip.
Qed.

End IntegerArguments.

(** ** Verbs, kinds and payloads across the catalogue *)

Section CatalogueFacts.

Variable Endpoints : EndpointsT.
Variable Constants : ConstantsT.
Variable fraction_digits : number -> string.

Local Abbreviation invoke' := (invoke Endpoints Constants fraction_digits).

(** A call that hands a request over is that one dispatcher call. *)
Lemma invoke_request (w : WrapperCall) (r : DispatcherRequest) :
  hands_over (invoke' w) r ->
  invoke' w = request (url r) (verb r) (dataKind r) (payload r).
Proof.
  intros H. pose proof (invoke_shape Endpoints Constants fraction_digits w) as S.
  destruct (guard_rejects Constants w).
  - exfalso. eapply hands_over_not_rejects; [exact H|].
    rewrite S. apply rejected_rejects_within.
  - destruct S as (u & v & d & data & E & _). rewrite E in H.
    apply hands_over_request in H. subst r. exact E.
Qed.

Lemma reason_payload_cases (reason : option string) :
  reason_payload reason = VUndefined
  \/ exists s, s <> "" /\ reason_payload reason = VObject [("reason", VString s)].
Proof.
  unfold reason_payload. destruct reason as [s|]; [|left; reflexivity].
  simpl. destruct (String.eqb_spec s "") as [->|Hne]; simpl.
  - left. reflexivity.
  - right. exists s. split; [exact Hne | reflexivity].
Qed.

(** From [E : wrapper args = request u v d data] to the four equations of
    the arguments; the guard of [searchGuildMembers] is split first. *)
Ltac open_call E :=
  match type of E with
  | searchGuildMembers _ _ _ _ ?o = _ =>
      unfold searchGuildMembers in E;
      destruct (limit_rejected Constants o); [discriminate E|]
  | _ => idtac
  end;
  apply request_inj in E as (Eu & Ev & Ed & Ep).

(** X9.  Whatever wrapper made it, a request with the verb delete carries
    no payload, or the payload [{ reason }] with a non-empty reason, and
    nothing else. *)
Theorem delete_requests_carry_only_a_reason (w : WrapperCall)
    (r : DispatcherRequest) :
  hands_over (invoke' w) r -> verb r = "delete" ->
  payload r = VUndefined
  \/ exists s, s <> "" /\ payload r = VObject [("reason", VString s)].
Proof.
  intros H Hv. apply invoke_request in H. rewrite Hv in H.
  destruct w; cbn [invoke] in H; open_call H; try discriminate Ev;
    rewrite <- Ep; first [left; reflexivity | apply reason_payload_cases].
Qed.

(** X10.  Every wrapper declares its payload as json, with one exception:
    [createGuildSticker] posts multipart data.  No wrapper uses another
    kind, also not for a call without payload. *)
Theorem only_createGuildSticker_is_multipart (w : WrapperCall)
    (r : DispatcherRequest) :
  hands_over (invoke' w) r ->
  dataKind r = "json"
  \/ (dataKind r = "multipart" /\ verb r = "post"
      /\ exists guildId data, w = W_createGuildSticker guildId data).
Proof.
  intros H. apply invoke_request in H.
  destruct w; cbn [invoke] in H; open_call H; rewrite <- Ed, <- Ev;
    first [left; reflexivity | right; repeat split; eauto].
Qed.

End CatalogueFacts.

(** ** Sample runs *)

(** X2 on an empty object and on no object. *)
Lemma no_options_no_query_string_witness :
  getGuildBans sampleEndpoints sampleDigits "g" (Some [])
  = request "/guilds/g/bans" "get" "json" VUndefined
  /\ getGuildPruneCount sampleEndpoints sampleDigits "g" (Some [])
     = request "/guilds/g/prune" "get" "json" VUndefined
  /\ getInvite sampleEndpoints sampleDigits "i" None
     = request "/invites/i" "get" "json" VUndefined.
Proof.
  split; [|split].
  - apply (no_options_no_query_string sampleEndpoints sampleDigits "g" (Some [])).
    right. reflexivity.
  - apply (no_options_no_query_string sampleEndpoints sampleDigits "g" (Some [])).
    right. reflexivity.
  - apply (no_options_no_query_string sampleEndpoints sampleDigits "i" None).
    left. reflexivity.
Defined.

(** X1 on [{ days: 7, include_roles: "1,2" }] and on two booleans. *)
Lemma query_string_is_well_formed_witness :
  getGuildPruneCount sampleEndpoints sampleDigits "g"
    (Some [("days", VNumber (number_of_Z 7)); ("include_roles", VString "1,2")])
  = request "/guilds/g/prune?days=7&include_roles=1,2" "get" "json" VUndefined
  /\ getInvite sampleEndpoints sampleDigits "i"
       (Some [("with_counts", VBoolean true); ("with_expiration", VBoolean false)])
     = request "/invites/i?with_counts=true&with_expiration=false" "get" "json"
               VUndefined.
Proof.
  split.
  - refine (proj1 (query_string_is_well_formed sampleEndpoints sampleDigits "g"
                     [("days", VNumber (number_of_Z 7));
                      ("include_roles", VString "1,2")] _ _)).
    + discriminate.
    + apply (bool_decide_unpack _). vm_compute. exact I.
  - refine (proj2 (query_string_is_well_formed sampleEndpoints sampleDigits "i"
                     [("with_counts", VBoolean true);
                      ("with_expiration", VBoolean false)] _ _)).
    + discriminate.
    + apply (bool_decide_unpack _). vm_compute. exact I.
Defined.

(** X4: one value that smuggles a second parameter. *)
Lemma query_values_are_not_escaped_witness :
  getInvite sampleEndpoints sampleDigits "i"
    (Some [("with_counts", VString "true&with_expiration=true")])
  = getInvite sampleEndpoints sampleDigits "i"
      (Some [("with_counts", VString "true"); ("with_expiration", VString "true")]).
Proof.
  refine (proj1 (query_values_are_not_escaped sampleEndpoints sampleDigits "i"
                   "with_counts" "with_expiration" "true" "true" _ _)).
  - discriminate.
  - reflexivity.
Defined.

(** X5: two plain objects that differ make different requests. *)
Lemma query_string_determines_the_options_witness :
  getInvite sampleEndpoints sampleDigits "i"
    (Some [("with_counts", VString "true")])
  <> getInvite sampleEndpoints sampleDigits "i"
       (Some [("with_counts", VString "false")]).
Proof.
  intros E.
  apply (query_string_determines_the_options sampleEndpoints sampleDigits "i"
           [("with_counts", "true")] [("with_counts", "false")]) in E.
  - discriminate E.
  - apply (bool_decide_unpack _). vm_compute. exact I.
  - apply (bool_decide_unpack _). vm_compute. exact I.
  - intros k v [[E'|[]]|[E'|[]]]; injection E' as <- <-;
      (repeat split; intros F; simpl in F;
       repeat (destruct F as [F|F]; [discriminate F|]); destruct F).
Defined.

(** X9 on the request of [removeGuildBan] with a reason. *)
Lemma delete_requests_carry_only_a_reason_witness :
  payload (mkRequest "/guilds/g/bans/m" "delete" "json"
             (VObject [("reason", VString "spam")])) = VUndefined
  \/ exists s, s <> ""
       /\ payload (mkRequest "/guilds/g/bans/m" "delete" "json"
                     (VObject [("reason", VString "spam")]))
          = VObject [("reason", VString s)].
Proof.
  apply (delete_requests_carry_only_a_reason sampleEndpoints sampleConstants
           sampleDigits (W_removeGuildBan "g" "m" (Some "spam"))).
  - apply (request_hands_over "/guilds/g/bans/m" "delete" "json"
             (VObject [("reason", VString "spam")])).
  - reflexivity.
Defined.

(** X10 on the request of [createGuildSticker]. *)
Lemma only_createGuildSticker_is_multipart_witness :
  dataKind (mkRequest "/guilds/g/stickers" "post" "multipart" (VObject [])) = "json"
  \/ (dataKind (mkRequest "/guilds/g/stickers" "post" "multipart" (VObject []))
      = "multipart"
      /\ verb (mkRequest "/guilds/g/stickers" "post" "multipart" (VObject [])) = "post"
      /\ exists guildId data,
           W_createGuildSticker "g" (VObject []) = W_createGuildSticker guildId data).
Proof.
  apply (only_createGuildSticker_is_multipart sampleEndpoints sampleConstants
           sampleDigits (W_createGuildSticker "g" (VObject []))).
  apply (request_hands_over "/guilds/g/stickers" "post" "multipart" (VObject [])).
Defined.

(** X7 with the bounds 1 and 1000: a limit of 1001 and a limit of 1. *)
Lemma searchGuildMembers_on_integers_witness :
  searchGuildMembers sampleEndpoints sampleConstants sampleDigits "g"
    {| query := "Wolke"; limit := Some (number_of_Z 1001) |}
  = Done (Returns (RejectedWith (RangeError
      "Limit for searching guild members has to be between 1 and 1000")))
  /\ searchGuildMembers sampleEndpoints sampleConstants sampleDigits "g"
       {| query := "Wolke"; limit := Some (number_of_Z 1) |}
     = request "/guilds/g/members/search" "get" "json"
         (VObject [("query", VString "Wolke"); ("limit", VNumber (number_of_Z 1))]).
Proof.
  split.
  - apply (searchGuildMembers_on_integers sampleEndpoints sampleDigits "g" "Wolke"
             1 1000 1001); reflexivity.
  - apply (searchGuildMembers_on_integers sampleEndpoints sampleDigits "g" "Wolke"
             1 1000 1); reflexivity.
Defined.

(** X8 on [{ days: 7 }] and [{ limit: -1 }]. *)
Lemma integer_options_are_written_in_decimal_witness :
  getGuildPruneCount sampleEndpoints sampleDigits "g"
    (Some [("days", VNumber (number_of_Z 7))])
  = request "/guilds/g/prune?days=7" "get" "json" VUndefined
  /\ getGuildBans sampleEndpoints sampleDigits "g"
       (Some [("limit", VNumber (number_of_Z (-1)))])
     = request "/guilds/g/bans?limit=-1" "get" "json" VUndefined.
Proof.
  split.
  - apply (integer_options_are_written_in_decimal sampleEndpoints sampleDigits
             "g" "days" 7). reflexivity.
  - apply (integer_options_are_written_in_decimal sampleEndpoints sampleDigits
             "g" "limit" (-1)). reflexivity.
Defined.

(** * Facts about the dispatcher *)

Module SchedulerFacts.

Import Scheduler.

Local Open Scope nat_scope.
Local Open Scope list_scope.

(** ** Bucket Store: reconcile *)

Lemma overwrite_twice (lim rem : nat) (t : Time) (B : Bucket) :
  overwrite lim rem t (overwrite lim rem t B) = overwrite lim rem t B.
Proof.
  unfold overwrite; simpl. f_equal. lia.
Qed.

Lemma alter_twice (f : Bucket -> Bucket) (b : BucketId) (m : gmap BucketId Bucket) :
  (forall B, f (f B) = f B) -> alter f b (alter f b m) = alter f b m.
Proof.
  intros Hf. apply map_eq. intros i.
  destruct (decide (i = b)) as [-> | Hne].
  - rewrite !lookup_alter_eq. destruct (m !! b); simpl; [|reflexivity].
    rewrite Hf. reflexivity.
  - rewrite !lookup_alter_ne by congruence. reflexivity.
Qed.

Lemma repoint_self (b b' : BucketId) : repoint b b' b = b'.
Proof. unfold repoint. rewrite decide_True; reflexivity. Qed.

Lemma repoint_other (b b' x : BucketId) : x <> b -> repoint b b' x = x.
Proof. intros H. unfold repoint. rewrite decide_False; [reflexivity | exact H]. Qed.

(** A second [reconcile] finds the server id pointing at the bucket of the
    route and only overwrites the window again. *)
Lemma reconcile_settled (st : Store) (k : RouteKey) (sid : ServerId)
    (lim rem : nat) (t : Time) (c : BucketId) (m : gmap BucketId Bucket) :
  routes st !! k = Some c ->
  servers st !! sid = Some c ->
  buckets st = alter (overwrite lim rem t) c m ->
  reconcile st k sid lim rem t = st.
Proof.
  intros Hk Hs Hb. unfold reconcile. rewrite Hk, Hs.
  rewrite decide_True by reflexivity. rewrite Hk.
  rewrite Hb, alter_twice by apply overwrite_twice.
  rewrite <- Hb. destruct st; reflexivity.
Qed.

(** A second [reconcile] that finds the merge impossible again. *)
Lemma reconcile_unmerged (st : Store) (k : RouteKey) (sid : ServerId)
    (lim rem : nat) (t : Time) (b b' : BucketId) (m : gmap BucketId Bucket) :
  routes st !! k = Some b ->
  servers st !! sid = Some b' ->
  b' <> b ->
  buckets st = alter (overwrite lim rem t) b m ->
  (m !! b = None \/ m !! b' = None) ->
  reconcile st k sid lim rem t = st.
Proof.
  intros Hk Hs Hne Hb Hnone. unfold reconcile. rewrite Hk, Hs.
  rewrite decide_False by exact Hne.
  assert (Hm : merge_into st b b' = st).
  { unfold merge_into. rewrite Hb.
    rewrite lookup_alter_eq, (lookup_alter_ne _ _ b b') by congruence.
    destruct Hnone as [-> | ->]; simpl; [reflexivity|].
    destruct (m !! b); reflexivity. }
  rewrite Hm, Hk.
  rewrite Hb, alter_twice by apply overwrite_twice.
  rewrite <- Hb. destruct st; reflexivity.
Qed.

Lemma reconcile_idempotent (st : Store) (k : RouteKey) (sid : ServerId)
    (lim rem : nat) (t : Time) :
  reconcile (reconcile st k sid lim rem t) k sid lim rem t
  = reconcile st k sid lim rem t.
Proof.
  unfold reconcile at 2 3.
  destruct (routes st !! k) as [b|] eqn:Hk;
    [|unfold reconcile; rewrite Hk; reflexivity].
  destruct (servers st !! sid) as [b'|] eqn:Hs.
  - destruct (decide (b' = b)) as [-> | Hne].
    + rewrite Hk. eapply reconcile_settled; simpl; eauto.
    + unfold merge_into.
      destruct (buckets st !! b) as [B|] eqn:HB;
        [destruct (buckets st !! b') as [B'|] eqn:HB'|].
      * cbn [routes servers buckets nextBucket].
        rewrite lookup_fmap, Hk. cbn [fmap option_fmap option_map].
        rewrite repoint_self.
        eapply reconcile_settled; cbn [routes servers buckets].
        -- rewrite lookup_fmap, Hk. simpl. rewrite repoint_self. reflexivity.
        -- rewrite lookup_fmap, Hs. simpl. rewrite repoint_other by exact Hne.
           reflexivity.
        -- reflexivity.
      * rewrite Hk. eapply reconcile_unmerged; simpl; eauto.
      * rewrite Hk. eapply reconcile_unmerged; simpl; eauto.
  - unfold promote. cbn [routes servers buckets nextBucket]. rewrite Hk.
    eapply reconcile_settled; cbn [routes servers buckets].
    + exact Hk.
    + apply lookup_insert_eq.
    + reflexivity.
Qed.

Lemma overwrite_keeps_window (lim rem : nat) (t : Time) (c b0 : BucketId)
    (m : gmap BucketId Bucket) (B0 : Bucket) :
  m !! b0 = Some B0 ->
  exists B1, alter (overwrite lim rem t) c m !! b0 = Some B1
             /\ resetAt B0 <= resetAt B1.
Proof.
  intros H. destruct (decide (b0 = c)) as [-> | Hne].
  - rewrite lookup_alter_eq, H. eexists. split; [reflexivity|]. simpl. lia.
  - rewrite lookup_alter_ne by congruence. eauto.
Qed.

(** The structural half of [reconcile] (promotion or merge) keeps every
    route on a bucket whose window ends no earlier. *)
Lemma restructure_keeps_window (st : Store) (b : BucketId) (sid : ServerId)
    (k' : RouteKey) (b0 : BucketId) (B0 : Bucket) :
  routes st !! k' = Some b0 ->
  buckets st !! b0 = Some B0 ->
  let st1 := match servers st !! sid with
             | None => promote st b sid
             | Some b' => if decide (b' = b) then st else merge_into st b b'
             end in
  exists b1 B1, routes st1 !! k' = Some b1 /\ buckets st1 !! b1 = Some B1
                /\ resetAt B0 <= resetAt B1.
Proof.
  intros Hr Hb. cbv zeta.
  destruct (servers st !! sid) as [b'|].
  - destruct (decide (b' = b)) as [-> | Hne]; [eauto|].
    unfold merge_into.
    destruct (buckets st !! b) as [B|] eqn:HB; [|eauto].
    destruct (buckets st !! b') as [B'|] eqn:HB'; [|eauto].
    cbn [routes buckets]. rewrite lookup_fmap, Hr. simpl.
    destruct (decide (b0 = b)) as [-> | Hb0].
    + rewrite repoint_self. exists b'. rewrite lookup_insert_eq.
      eexists. split; [reflexivity|]. split; [reflexivity|].
      simpl. assert (B0 = B) by congruence. subst. lia.
    + rewrite repoint_other by exact Hb0. exists b0.
      destruct (decide (b0 = b')) as [-> | Hb0'].
      * rewrite lookup_insert_eq. eexists. split; [reflexivity|].
        split; [reflexivity|]. simpl. assert (B0 = B') by congruence. subst. lia.
      * rewrite lookup_insert_ne, lookup_delete_ne by congruence. eauto.
  - unfold promote. cbn [routes buckets]. exists b0.
    destruct (decide (b0 = b)) as [-> | Hne].
    + rewrite lookup_alter_eq, Hb. eexists. split; [exact Hr|].
      split; [reflexivity|]. simpl. lia.
    + rewrite lookup_alter_ne by congruence. eauto.
Qed.

Lemma reconcile_monotone (st : Store) (k : RouteKey) (sid : ServerId)
    (lim rem : nat) (t : Time) (k' : RouteKey) (b0 : BucketId) (B0 : Bucket) :
  routes st !! k' = Some b0 ->
  buckets st !! b0 = Some B0 ->
  exists b1 B1,
    routes (reconcile st k sid lim rem t) !! k' = Some b1
    /\ buckets (reconcile st k sid lim rem t) !! b1 = Some B1
    /\ resetAt B0 <= resetAt B1.
Proof.
  intros Hr Hb. unfold reconcile.
  destruct (routes st !! k) as [b|]; [|eauto].
  destruct (restructure_keeps_window st b sid k' b0 B0 Hr Hb)
    as (b1 & B1 & Hr1 & Hb1 & Hle).
  cbv zeta in Hr1, Hb1.
  set (st1 := match servers st !! sid with
              | None => promote st b sid
              | Some b' => if decide (b' = b) then st else merge_into st b b'
              end) in *.
  destruct (routes st1 !! k) as [c|]; [|eauto].
  cbn [routes buckets].
  destruct (overwrite_keeps_window lim rem t c b1 _ B1 Hb1) as (B2 & Hb2 & Hle2).
  exists b1, B2. split; [exact Hr1|]. split; [exact Hb2|]. lia.
Qed.

(** What [reconcile] writes: the bucket of the route afterwards carries the
    reported limit and remaining, and a window that ends at the later of
    the stored and the reported [resetAt]. *)
Lemma reconcile_overwrites (st : Store) (k : RouteKey) (sid : ServerId)
    (lim rem : nat) (t : Time) (b : BucketId) (B : Bucket) :
  routes (reconcile st k sid lim rem t) !! k = Some b ->
  buckets (reconcile st k sid lim rem t) !! b = Some B ->
  routes st !! k <> None ->
  limit B = Some lim /\ remaining B = Some rem /\ t <= resetAt B.
Proof.
  unfold reconcile. destruct (routes st !! k) as [b0|]; [|congruence].
  set (st1 := match servers st !! sid with
              | None => promote st b0 sid
              | Some b' => if decide (b' = b0) then st else merge_into st b0 b'
              end).
  destruct (routes st1 !! k) as [c|] eqn:Hc.
  - cbn [routes buckets]. rewrite Hc. intros [= <-].
    rewrite lookup_alter_eq. destruct (buckets st1 !! c); [|discriminate].
    intros [= <-] _. simpl. repeat split; lia.
  - rewrite Hc. discriminate.
Qed.

(** C5.  Reconciling twice with the same values leaves the store, and so
    every Bucket in it, as reconciling once does; and whatever [resetAt] is
    reported, every route that had a Bucket still has one afterwards, whose
    window ends no earlier than the one stored before. *)
Theorem reconcile_idempotent_and_monotone (st : Store) (k : RouteKey)
    (sid : ServerId) (lim rem : nat) (t : Time) :
  reconcile (reconcile st k sid lim rem t) k sid lim rem t
  = reconcile st k sid lim rem t
  /\ forall (k' : RouteKey) (b0 : BucketId) (B0 : Bucket),
       routes st !! k' = Some b0 ->
       buckets st !! b0 = Some B0 ->
       exists b1 B1,
         routes (reconcile st k sid lim rem t) !! k' = Some b1
         /\ buckets (reconcile st k sid lim rem t) !! b1 = Some B1
         /\ resetAt B0 <= resetAt B1.
Proof.
  split.
  - apply reconcile_idempotent.
  - intros k' b0 B0. apply reconcile_monotone.
Qed.

(** ** Lists *)

Import Invariants.

Lemma filter_none {A} (Q : A -> Prop) `{!forall x, Decision (Q x)} (l : list A) :
  (forall x, x ∈ l -> ~ Q x) -> filter Q l = [].
Proof.
  induction l as [|x l IH]; intros Hl; [reflexivity|].
  rewrite filter_cons_False by (apply Hl; left).
  apply IH. intros y Hy. apply Hl. right. exact Hy.
Qed.

(** [x] stands before [y] in [l] when [[x; y]] is a sublist of [l]. *)
Lemma pair_sublist_cons {A} (x y z : A) (l : list A) :
  [x; y] `sublist_of` z :: l <-> (x = z /\ y ∈ l) \/ [x; y] `sublist_of` l.
Proof.
  rewrite sublist_cons_r. split.
  - intros [H | (l' & E & H)]; [right; exact H|].
    injection E as -> <-. left. split; [reflexivity|]. apply singleton_sublist_l, H.
  - intros [[-> H] | H]; [right | left; exact H].
    exists [y]. split; [reflexivity|]. apply singleton_sublist_l, H.
Qed.


Lemma pair_sublist_snoc {A} (x y z : A) (l : list A) :
  [x; y] `sublist_of` l ++ [z] -> [x; y] `sublist_of` l \/ (x ∈ l /\ y = z).
Proof.
  induction l as [|a l IH]; simpl.
  - intros H. apply sublist_length in H. simpl in H. lia.
  - intros H. apply pair_sublist_cons in H as [[-> Hy] | H].
    + apply elem_of_app in Hy as [Hy | Hy].
      * left. apply pair_sublist_cons. left. split; [reflexivity | exact Hy].
      * apply list_elem_of_singleton in Hy. right. split; [left | exact Hy].
    + destruct (IH H) as [H' | [Hx Hy]].
      * left. apply sublist_cons, H'.
      * right. split; [right; exact Hx | exact Hy].
Qed.


(** ** Merging two queues *)

Lemma merge_queues_nil_r (q : list Request) : merge_queues q [] = q.
Proof. destruct q; reflexivity. Qed.

Lemma merge_queues_cons (r1 r2 : Request) (t1 t2 : list Request) :
  merge_queues (r1 :: t1) (r2 :: t2)
  = if (handle r1 <=? handle r2)%nat
    then r1 :: merge_queues t1 (r2 :: t2)
    else r2 :: merge_queues (r1 :: t1) t2.
Proof. reflexivity. Qed.

Lemma merge_queues_elem_of (r : Request) (q1 q2 : list Request) :
  r ∈ merge_queues q1 q2 <-> r ∈ q1 \/ r ∈ q2.
Proof.
  revert q2. induction q1 as [|r1 t1 IH1]; intros q2.
  - simpl. destruct q2; set_solver.
  - induction q2 as [|r2 t2 IH2].
    + rewrite merge_queues_nil_r. set_solver.
    + rewrite merge_queues_cons. destruct (handle r1 <=? handle r2).
      * rewrite elem_of_cons, IH1. set_solver.
      * rewrite elem_of_cons, IH2. set_solver.
Qed.



Lemma merge_queues_Permutation (q1 q2 : list Request) :
  merge_queues q1 q2 ≡ₚ q1 ++ q2.
Proof.
  revert q2. induction q1 as [|r1 t1 IH1]; intros q2.
  - simpl. destruct q2; reflexivity.
  - induction q2 as [|r2 t2 IH2].
    + rewrite merge_queues_nil_r, app_nil_r. reflexivity.
    + rewrite merge_queues_cons. destruct (handle r1 <=? handle r2).
      * simpl. rewrite IH1. reflexivity.
      * rewrite IH2. apply (Permutation_middle (r1 :: t1) t2 r2).
Qed.

(** In a merge of two queues each of which has no never-rescheduled
    request behind a later one, no never-rescheduled request stands behind
    a later one either.  [R] holds of the rescheduled handles. *)
Lemma merge_queues_sorted (R : Handle -> Prop) (q1 q2 : list Request) :
  (forall x y, [x; y] `sublist_of` (handle <$> q1) -> ~ R y -> x <= y) ->
  (forall x y, [x; y] `sublist_of` (handle <$> q2) -> ~ R y -> x <= y) ->
  forall x y, [x; y] `sublist_of` (handle <$> merge_queues q1 q2) -> ~ R y -> x <= y.
Proof.
  revert q2. induction q1 as [|r1 t1 IH1]; intros q2.
  - simpl. destruct q2; auto.
  - induction q2 as [|r2 t2 IH2]; intros H1 H2.
    + rewrite merge_queues_nil_r. exact H1.
    + assert (T1 : forall x y, [x; y] `sublist_of` (handle <$> t1) -> ~ R y -> x <= y).
      { intros x y H. apply H1. rewrite fmap_cons. apply sublist_cons, H. }
      assert (T2 : forall x y, [x; y] `sublist_of` (handle <$> t2) -> ~ R y -> x <= y).
      { intros x y H. apply H2. rewrite fmap_cons. apply sublist_cons, H. }
      assert (A1 : forall y, y ∈ handle <$> t1 -> ~ R y -> handle r1 <= y).
      { intros y Hy. apply H1. rewrite fmap_cons. apply pair_sublist_cons. auto. }
      assert (A2 : forall y, y ∈ handle <$> t2 -> ~ R y -> handle r2 <= y).
      { intros y Hy. apply H2. rewrite fmap_cons. apply pair_sublist_cons. auto. }
      rewrite merge_queues_cons.
      destruct (Nat.leb_spec (handle r1) (handle r2)) as [Hle | Hlt];
        intros x y; rewrite fmap_cons, pair_sublist_cons.
      * intros [[-> Hy] | H]; [|apply (IH1 (r2 :: t2) T1 H2), H].
        apply list_elem_of_fmap in Hy as (r & -> & Hr).
        apply merge_queues_elem_of in Hr as [Hr | Hr].
        -- apply A1, list_elem_of_fmap. eauto.
        -- apply elem_of_cons in Hr as [-> | Hr]; [intros _; exact Hle|].
           intros Hy. assert (handle r2 <= handle r); [|lia].
           apply A2; [|exact Hy]. apply list_elem_of_fmap. eauto.
      * intros [[-> Hy] | H]; [|apply (IH2 H1 T2), H].
        apply list_elem_of_fmap in Hy as (r & -> & Hr).
        apply merge_queues_elem_of in Hr as [Hr | Hr].
        -- apply elem_of_cons in Hr as [-> | Hr]; [intros _; lia|].
           intros Hy. assert (handle r1 <= handle r); [|lia].
           apply A1; [|exact Hy]. apply list_elem_of_fmap. eauto.
        -- apply A2, list_elem_of_fmap. eauto.
Qed.

(** ** Reading a state *)

Lemma shape_at_Some (st : Store) (b : BucketId) (q : list Request) (f : bool) :
  shape_at st b = Some (q, f) <->
  exists B, buckets st !! b = Some B /\ queue B = q /\ inFlight B = f.
Proof.
  unfold shape_at, shape. destruct (buckets st !! b) as [B|]; simpl; split.
  - intros [= <- <-]. eauto.
  - intros (B' & [= <-] & <- & <-). reflexivity.
  - discriminate.
  - intros (B' & H & _). discriminate.
Qed.

Lemma shape_at_None (st : Store) (b : BucketId) :
  shape_at st b = None <-> buckets st !! b = None.
Proof. unfold shape_at. destruct (buckets st !! b); simpl; split; congruence. Qed.

Lemma shape_at_update (f : Bucket -> Bucket) (b b' : BucketId) (st : Store) :
  shape_at (update_bucket f b st) b'
  = if decide (b' = b) then (fun B => shape (f B)) <$> buckets st !! b
    else shape_at st b'.
Proof.
  unfold shape_at, update_bucket; simpl. destruct (decide (b' = b)) as [-> | Hne].
  - rewrite lookup_alter_eq. destruct (buckets st !! b); reflexivity.
  - rewrite lookup_alter_ne by congruence. reflexivity.
Qed.

(** A change that keeps queue and flag of every record. *)
Lemma shape_at_update_same (f : Bucket -> Bucket) (b b' : BucketId) (st : Store) :
  (forall B, shape (f B) = shape B) ->
  shape_at (update_bucket f b st) b' = shape_at st b'.
Proof.
  intros Hf. rewrite shape_at_update. destruct (decide (b' = b)) as [-> | _];
    [|reflexivity].
  unfold shape_at. destruct (buckets st !! b); simpl; [|reflexivity].
  rewrite Hf. reflexivity.
Qed.

Lemma queue_of_shape (s : State) (b : BucketId) :
  queue_of s b = match shape_of s b with Some (q, _) => q | None => [] end.
Proof.
  unfold queue_of, shape_of, shape_at, shape.
  destruct (buckets (store s) !! b); reflexivity.
Qed.

Lemma pending_ext (s s' : State) (b : BucketId) :
  transit s = transit s' -> shape_of s b = shape_of s' b ->
  pending s b = pending s' b.
Proof.
  intros Ht Hs. unfold pending, on_wire. rewrite !queue_of_shape, Ht, Hs.
  reflexivity.
Qed.

Lemma filter_origin_off (l : list (BucketId * Request)) (b : BucketId) :
  b ∉ l.*1 -> filter (fun e => e.1 = b) l = [].
Proof.
  induction l as [|[b' r] l IH]; intros H; [reflexivity|].
  rewrite fmap_cons, not_elem_of_cons in H. destruct H as [H1 H2]. simpl in H1.
  rewrite filter_cons_False by (simpl; congruence). auto.
Qed.

Lemma on_wire_off (s : State) (b : BucketId) : b ∉ origins s -> on_wire s b = [].
Proof.
  intros H. unfold on_wire. rewrite filter_origin_off; [reflexivity | exact H].
Qed.

Lemma on_wire_one (s : State) (b : BucketId) (r : Request) :
  NoDup (origins s) -> (b, r) ∈ transit s -> on_wire s b = [r].
Proof.
  unfold on_wire, origins.
  induction (transit s) as [|[b' r'] l IH]; intros Hnd Hin.
  - inversion Hin.
  - rewrite fmap_cons in Hnd. apply NoDup_cons in Hnd as [Hnotin Hnd].
    simpl in Hnotin. apply elem_of_cons in Hin as [[= <- <-] | Hin].
    + rewrite filter_cons_True by reflexivity.
      rewrite filter_origin_off by exact Hnotin. reflexivity.
    + rewrite filter_cons_False; [auto|]. simpl. intros ->. apply Hnotin.
      apply list_elem_of_fmap. exists (b, r). split; [reflexivity | exact Hin].
Qed.

Lemma elem_of_on_wire (s : State) (b : BucketId) (r : Request) :
  r ∈ on_wire s b <-> (b, r) ∈ transit s.
Proof.
  unfold on_wire. rewrite list_elem_of_fmap. split.
  - intros ([b' r'] & -> & H). apply list_elem_of_filter in H as [H1 H2].
    simpl in H1. subst. exact H2.
  - intros H. exists (b, r). split; [reflexivity|].
    apply list_elem_of_filter. split; [reflexivity | exact H].
Qed.

Lemma elem_of_origins (s : State) (b : BucketId) :
  b ∈ origins s <-> exists r, (b, r) ∈ transit s.
Proof.
  unfold origins. rewrite list_elem_of_fmap. split.
  - intros ([b' r] & -> & H). eauto.
  - intros [r H]. exists (b, r). split; [reflexivity | exact H].
Qed.

Lemma elem_of_pending (s : State) (b : BucketId) (x : Handle) :
  x ∈ pending s b <->
  exists r, handle r = x /\ ((b, r) ∈ transit s \/ r ∈ queue_of s b).
Proof.
  unfold pending. rewrite list_elem_of_fmap. split.
  - intros (r & -> & H). exists r. split; [reflexivity|].
    apply elem_of_app in H as [H | H]; [left; apply elem_of_on_wire, H | right; exact H].
  - intros (r & <- & H). exists r. split; [reflexivity|].
    apply elem_of_app. destruct H as [H | H]; [left; apply elem_of_on_wire, H | right; exact H].
Qed.

(** ** The invariants read a state through its wire, shapes and tables *)

Lemma wire_ok_ext (P : Policy) (c : option BucketId) (s s' : State) :
  transit s' = transit s ->
  (forall b, shape_of s' b = shape_of s b) ->
  routes (store s') = routes (store s) ->
  nextBucket (store s') = nextBucket (store s) ->
  wire_ok P c s -> wire_ok P c s'.
Proof.
  intros Ht Hs Hr Hn [H1 H2 H3 H4 H5 H6 H7 H8].
  constructor; unfold origins in *; rewrite ?Ht, ?Hr, ?Hn;
    try setoid_rewrite Hs; try setoid_rewrite Ht; assumption.
Qed.

Lemma order_ok_ext (s s' : State) :
  transit s' = transit s ->
  (forall b, shape_of s' b = shape_of s b) ->
  submitted s' = submitted s ->
  settled s' = settled s ->
  rescheduled s' = rescheduled s ->
  order_ok s -> order_ok s'.
Proof.
  intros Ht Hs Hsu Hse Hre [H1 H2 H3 H4 H5 H6 H7].
  assert (Hp : forall b, pending s' b = pending s b)
    by (intros b; apply pending_ext; auto).
  assert (Hq : forall b, queue_of s' b = queue_of s b)
    by (intros b; rewrite !queue_of_shape, Hs; reflexivity).
  constructor; rewrite ?Hsu, ?Hse, ?Hre;
    try setoid_rewrite Hp; try setoid_rewrite Hq; assumption.
Qed.

(** ** The wire and the flags, move by move *)

Section Wire.

Variable P : Policy.

Lemma wire_ok_init : wire_ok P None (init P).
Proof.
  constructor; unfold origins, shape_of, shape_at; simpl.
  - constructor.
  - intros b H. inversion H.
  - intros b q H. rewrite lookup_empty in H. discriminate.
  - intros b _ H. inversion H.
  - intros b r H. inversion H.
  - intros b q f r H. rewrite lookup_empty in H. discriminate.
  - intros k b H. rewrite lookup_empty in H. discriminate.
  - intros b [x H]. rewrite lookup_empty in H. discriminate.
Qed.

Lemma wire_ok_submit (s : State) (c : DispatcherRequest) :
  wire_ok P None s -> wire_ok P None (submit P s c).1.
Proof.
  intros [H1 H2 H3 H4 H5 H6 H7 H8]. unfold submit, get_or_create.
  set (k := resolve P (verb c) (url c)).
  set (r := mkReq c 0 0 0 (length (submitted s))).
  destruct (routes (store s) !! k) as [b|] eqn:Hk; cbn [fst].
  - (* the route has a bucket *)
    assert (Hsh : forall b', shape_of
       (mkState (now s) (update_bucket (enqueue r) b (store s)) (global s)
          (transit s) (submitted s ++ [b]) (settled s) (rescheduled s)) b'
       = if decide (b' = b)
         then (fun '(q, f) => (q ++ [r], f)) <$> shape_of s b
         else shape_of s b').
    { intros b'. unfold shape_of; cbn [store]. rewrite shape_at_update.
      destruct (decide (b' = b)); [|reflexivity].
      unfold shape_at. destruct (buckets (store s) !! b); reflexivity. }
    constructor; unfold origins in *; cbn [transit store routes nextBucket update_bucket].
    + exact H1.
    + intros b' Hin. rewrite Hsh. destruct (H2 b' Hin) as [q Hq].
      destruct (decide (b' = b)) as [-> | _]; [|eauto].
      rewrite Hq. simpl. eauto.
    + intros b' q. rewrite Hsh. destruct (decide (b' = b)) as [-> | _]; [|apply H3].
      destruct (shape_of s b) as [[q0 f0]|] eqn:Hq; [|discriminate].
      simpl. intros [= <- ->]. eapply H3, Hq.
    + exact H4.
    + exact H5.
    + intros b' q f r'. rewrite Hsh. destruct (decide (b' = b)) as [-> | _]; [|apply H6].
      destruct (shape_of s b) as [[q0 f0]|] eqn:Hq; [|discriminate].
      simpl. intros [= <- <-] Hin. apply elem_of_app in Hin as [Hin | Hin].
      * eapply H6; eauto.
      * apply list_elem_of_singleton in Hin. subst r'. exact Hk.
    + intros k' b' Hr. rewrite Hsh. destruct (decide (b' = b)) as [-> | _]; [|eapply H7, Hr].
      destruct (H7 _ _ Hk) as [x ->]. simpl. destruct x. eauto.
    + intros b'. rewrite Hsh. destruct (decide (b' = b)) as [-> | _]; [|apply H8].
      intros _. apply H8. eapply H7, Hk.
  - (* a new bucket *)
    set (nb := nextBucket (store s)).
    assert (Hfresh : shape_of s nb = None).
    { destruct (shape_of s nb) eqn:E; [|reflexivity].
      assert (nb < nb) by (apply H8; rewrite E; eauto). lia. }
    assert (Hsh : forall b', shape_of
       (mkState (now s)
          (update_bucket (enqueue r) nb
             (mkStore (<[k := nb]> (routes (store s))) (servers (store s))
                (<[nb := fresh_bucket k]> (buckets (store s))) (S nb)))
          (global s) (transit s) (submitted s ++ [nb]) (settled s)
          (rescheduled s)) b'
       = if decide (b' = nb) then Some ([r], false) else shape_of s b').
    { intros b'. unfold shape_of; cbn [store]. rewrite shape_at_update.
      cbn [buckets]. destruct (decide (b' = nb)) as [-> | Hne].
      - rewrite lookup_insert_eq. reflexivity.
      - unfold shape_at; cbn [buckets]. rewrite lookup_insert_ne by congruence.
        reflexivity. }
    constructor; unfold origins in *; cbn [transit store routes nextBucket update_bucket].
    + exact H1.
    + intros b' Hin. rewrite Hsh. destruct (H2 b' Hin) as [q Hq].
      destruct (decide (b' = nb)) as [-> | _]; [congruence | eauto].
    + intros b' q. rewrite Hsh. destruct (decide (b' = nb)) as [-> | _];
        [discriminate | apply H3].
    + exact H4.
    + intros b' r' Hin. specialize (H5 _ _ Hin).
      rewrite lookup_insert_ne; [exact H5|]. intros E. congruence.
    + intros b' q f r'. rewrite Hsh. destruct (decide (b' = nb)) as [-> | _].
      * intros [= <- <-] Hin. apply list_elem_of_singleton in Hin. subst r'.
        apply lookup_insert_eq.
      * intros Hq Hin. specialize (H6 _ _ _ _ Hq Hin).
        rewrite lookup_insert_ne; [exact H6|]. intros E. congruence.
    + intros k' b'. rewrite Hsh. rewrite lookup_insert.
      destruct (decide (k = k')) as [<- | _].
      * intros [= <-]. rewrite decide_True by reflexivity. eauto.
      * intros Hr. destruct (decide (b' = nb)); [eauto | eapply H7, Hr].
    + intros b'. rewrite Hsh. destruct (decide (b' = nb)) as [-> | _]; [lia|].
      intros H. specialize (H8 _ H). fold nb in H8. lia.
Qed.

End Wire.

(** ** What each move changes *)

Lemma dispatch_effect (s s' : State) (b : BucketId) :
  dispatch s b = Some s' ->
  exists r q,
    shape_of s b = Some (r :: q, false)
    /\ transit s' = (b, r) :: transit s
    /\ (forall b', shape_of s' b'
                   = if decide (b' = b) then Some (q, true) else shape_of s b')
    /\ routes (store s') = routes (store s)
    /\ nextBucket (store s') = nextBucket (store s)
    /\ submitted s' = submitted s
    /\ settled s' = settled s
    /\ rescheduled s' = rescheduled s.
Proof.
  unfold dispatch. destruct (buckets (store s) !! b) as [B|] eqn:HB; [|discriminate].
  destruct (queue B) as [|r q] eqn:Hq; [discriminate|].
  destruct (inFlight B) eqn:Hf; [discriminate|]. cbn [negb andb].
  destruct (_ && _); [|discriminate]. intros [= <-].
  exists r, q. split.
  { unfold shape_of, shape_at, shape. rewrite HB. simpl. rewrite Hq, Hf. reflexivity. }
  split; [reflexivity|]. split; [|repeat split].
  intros b'. unfold shape_of; cbn [store]. rewrite shape_at_update.
  destruct (decide (b' = b)); [|reflexivity]. rewrite HB. reflexivity.
Qed.

Lemma reschedule_handle (r : Request) (res : TransportResult) (t : Time) :
  handle (reschedule r res t) = handle r.
Proof.
  unfold reschedule. destruct res as [resp|]; [|reflexivity].
  destruct (status resp =? 429); reflexivity.
Qed.

Lemma reschedule_key (P : Policy) (r : Request) (res : TransportResult) (t : Time) :
  key P (reschedule r res t) = key P r.
Proof.
  unfold reschedule, key. destruct res as [resp|]; [|reflexivity].
  destruct (status resp =? 429); reflexivity.
Qed.

Lemma conclude_effect (P : Policy) (s : State) (b : BucketId) (r : Request)
    (res : TransportResult) :
  let s1 := conclude P s b r res in
  transit s1 = filter (fun e => e.1 <> b) (transit s)
  /\ routes (store s1) = routes (store s)
  /\ nextBucket (store s1) = nextBucket (store s)
  /\ submitted s1 = submitted s
  /\ ((exists o, settled s1 = settled s ++ [(handle r, o)]
                 /\ (forall d, interpret P r res <> Retry d)
                 /\ rescheduled s1 = rescheduled s
                 /\ forall b', shape_of s1 b' = shape_of s b')
      \/ (exists d r', interpret P r res = Retry d
                       /\ handle r' = handle r /\ key P r' = key P r
                       /\ settled s1 = settled s
                       /\ rescheduled s1 = rescheduled s ++ [handle r]
                       /\ forall b', shape_of s1 b'
                            = if decide (b' = b)
                              then (fun '(q, f) => (q ++ [r'], f)) <$> shape_of s b
                              else shape_of s b')).
Proof.
  unfold conclude. destruct (interpret P r res) as [d|e|v] eqn:Hi; cbn zeta.
  - repeat (split; [reflexivity|]). right.
    exists d, (reschedule r res (now s + d)).
    split; [reflexivity|]. split; [apply reschedule_handle|].
    split; [apply reschedule_key|]. split; [reflexivity|]. split; [reflexivity|].
    intros b'. unfold shape_of; cbn [store]. rewrite shape_at_update.
    destruct (decide (b' = b)); [|reflexivity].
    unfold shape_at. destruct (buckets (store s) !! b); reflexivity.
  - repeat (split; [reflexivity|]). left. exists (Rejected e).
    split; [reflexivity|]. split; [discriminate|]. split; reflexivity.
  - repeat (split; [reflexivity|]). left. exists (Resolved v).
    split; [reflexivity|]. split; [discriminate|]. split; reflexivity.
Qed.

Lemma finish_effect (s : State) (b : BucketId) :
  transit (finish s b) = transit s
  /\ (forall b', shape_of (finish s b) b'
                 = if decide (b' = b)
                   then (fun '(q, _) => (q, false)) <$> shape_of s b
                   else shape_of s b')
  /\ routes (store (finish s b)) = routes (store s)
  /\ nextBucket (store (finish s b)) = nextBucket (store s)
  /\ submitted (finish s b) = submitted s
  /\ settled (finish s b) = settled s
  /\ rescheduled (finish s b) = rescheduled s.
Proof.
  split; [reflexivity|]. split; [|repeat split].
  intros b'. unfold shape_of, finish; cbn [store]. rewrite shape_at_update.
  destruct (decide (b' = b)); [|reflexivity].
  unfold shape_at. destruct (buckets (store s) !! b); reflexivity.
Qed.

Lemma cancel_effect (s : State) (b : BucketId) (h : Handle) :
  transit (cancel s b h) = transit s
  /\ (forall b', shape_of (cancel s b h) b'
                 = if decide (b' = b)
                   then (fun '(q, f) => (filter (fun r => handle r <> h) q, f))
                          <$> shape_of s b
                   else shape_of s b')
  /\ routes (store (cancel s b h)) = routes (store s)
  /\ nextBucket (store (cancel s b h)) = nextBucket (store s)
  /\ submitted (cancel s b h) = submitted s
  /\ settled (cancel s b h) = settled s
  /\ rescheduled (cancel s b h) = rescheduled s.
Proof.
  split; [reflexivity|]. split; [|repeat split].
  intros b'. unfold shape_of, cancel; cbn [store]. rewrite shape_at_update.
  destruct (decide (b' = b)); [|reflexivity].
  unfold shape_at. destruct (buckets (store s) !! b); reflexivity.
Qed.

(** A merge that takes place: [b] is gone, [b'] owes both queues, the routes
    of [b] lead to [b']. *)
Lemma merge_into_effect (st : Store) (b b' : BucketId) (q q' : list Request)
    (f f' : bool) :
  b' <> b ->
  shape_at st b = Some (q, f) ->
  shape_at st b' = Some (q', f') ->
  (forall x, shape_at (merge_into st b b') x
             = if decide (x = b') then Some (merge_queues q' q, f')
               else if decide (x = b) then None else shape_at st x)
  /\ routes (merge_into st b b') = repoint b b' <$> routes st
  /\ nextBucket (merge_into st b b') = nextBucket st.
Proof.
  intros Hne Hb Hb'.
  apply shape_at_Some in Hb as (B & HB & <- & <-).
  apply shape_at_Some in Hb' as (B' & HB' & <- & <-).
  unfold merge_into. rewrite HB, HB'. split; [|split; reflexivity].
  intros x. unfold shape_at; cbn [buckets].
  destruct (decide (x = b')) as [-> | Hx'].
  - rewrite lookup_insert_eq. reflexivity.
  - rewrite lookup_insert_ne by congruence.
    destruct (decide (x = b)) as [-> | Hx].
    + rewrite lookup_delete_eq. reflexivity.
    + rewrite lookup_delete_ne by congruence. reflexivity.
Qed.

(** A merge that does not take place. *)
Lemma merge_into_skipped (st : Store) (b b' : BucketId) :
  shape_at st b = None \/ shape_at st b' = None -> merge_into st b b' = st.
Proof.
  rewrite !shape_at_None. unfold merge_into. intros [-> | ->]; [reflexivity|].
  destruct (buckets st !! b); reflexivity.
Qed.

Lemma promote_effect (st : Store) (b : BucketId) (sid : ServerId) :
  (forall x, shape_at (promote st b sid) x = shape_at st x)
  /\ routes (promote st b sid) = routes st
  /\ nextBucket (promote st b sid) = nextBucket st.
Proof.
  split; [|split; reflexivity]. intros x.
  apply (shape_at_update_same _ b x st). reflexivity.
Qed.

Lemma exhaust_effect (st : Store) (k : RouteKey) (t : Time) :
  (forall x, shape_at (exhaust st k t) x = shape_at st x)
  /\ routes (exhaust st k t) = routes st
  /\ nextBucket (exhaust st k t) = nextBucket st.
Proof.
  unfold exhaust. destruct (routes st !! k) as [c|]; [|repeat split].
  split; [|split; reflexivity]. intros x.
  apply (shape_at_update_same _ c x st). reflexivity.
Qed.

Lemma unchanged_refl (st : Store) : unchanged st st.
Proof. repeat split. Qed.

Lemma unchanged_then (st st1 st2 : Store) :
  unchanged st st1 -> unchanged st1 st2 -> unchanged st st2.
Proof.
  intros (H1 & H2 & H3) (G1 & G2 & G3). split; [|split; congruence].
  intros x. rewrite G1. apply H1.
Qed.

Lemma absorbed_then (b : BucketId) (st st1 st2 : Store) :
  absorbed b st st1 -> unchanged st1 st2 -> absorbed b st st2.
Proof.
  intros (b' & q & q' & f & f' & Hne & Hb & Hb' & Hs & Hr & Hn) (G1 & G2 & G3).
  exists b', q, q', f, f'. repeat split; try assumption; try congruence.
  intros x. rewrite G1. apply Hs.
Qed.

Lemma overwrite_unchanged (st : Store) (c : BucketId) (lim rem : nat) (t : Time) :
  unchanged st (mkStore (routes st) (servers st)
                        (alter (overwrite lim rem t) c (buckets st)) (nextBucket st)).
Proof.
  split; [|split; reflexivity]. intros x.
  apply (shape_at_update_same (overwrite lim rem t) c x st). reflexivity.
Qed.

Lemma reconcile_effect (st : Store) (k : RouteKey) (sid : ServerId)
    (lim rem : nat) (t : Time) (b : BucketId) :
  routes st !! k = Some b ->
  unchanged st (reconcile st k sid lim rem t)
  \/ absorbed b st (reconcile st k sid lim rem t).
Proof.
  intros Hk. unfold reconcile. rewrite Hk.
  destruct (servers st !! sid) as [b'|].
  - destruct (decide (b' = b)) as [-> | Hne].
    + left. rewrite Hk. apply overwrite_unchanged.
    + destruct (shape_at st b) as [[q f]|] eqn:Hb;
        [destruct (shape_at st b') as [[q' f']|] eqn:Hb'|].
      * right.
        destruct (merge_into_effect st b b' q q' f f' Hne Hb Hb') as (Hs & Hr & Hn).
        assert (A : absorbed b st (merge_into st b b'))
          by (exists b', q, q', f, f'; repeat split; assumption).
        destruct (routes (merge_into st b b') !! k) as [c|]; [|exact A].
        eapply absorbed_then; [exact A | apply overwrite_unchanged].
      * left. rewrite merge_into_skipped by (right; exact Hb').
        rewrite Hk. apply overwrite_unchanged.
      * left. rewrite merge_into_skipped by (left; exact Hb).
        rewrite Hk. apply overwrite_unchanged.
  - left. destruct (promote_effect st b sid) as (Hs & Hr & Hn).
    assert (U : unchanged st (promote st b sid)) by (repeat split; assumption).
    destruct (routes (promote st b sid) !! k) as [c|]; [|exact U].
    eapply unchanged_then; [exact U | apply overwrite_unchanged].
Qed.

Lemma feed_effect (s : State) (k : RouteKey) (resp : Response) (b : BucketId) :
  routes (store s) !! k = Some b ->
  transit (feed s k resp) = transit s
  /\ submitted (feed s k resp) = submitted s
  /\ settled (feed s k resp) = settled s
  /\ rescheduled (feed s k resp) = rescheduled s
  /\ (unchanged (store s) (store (feed s k resp))
      \/ absorbed b (store s) (store (feed s k resp))).
Proof.
  intros Hk. unfold feed.
  set (st1 := match rl_bucket (headers resp), rl_limit (headers resp),
                    rl_remaining (headers resp), rl_reset_after (headers resp) with
              | Some sid, Some lim, Some rem, Some after =>
                  reconcile (store s) k sid lim rem (now s + after)
              | _, _, _, _ => store s
              end).
  assert (H1 : unchanged (store s) st1 \/ absorbed b (store s) st1).
  { unfold st1.
    destruct (rl_bucket (headers resp)) as [sid|]; [|left; apply unchanged_refl].
    destruct (rl_limit (headers resp)) as [lim|]; [|left; apply unchanged_refl].
    destruct (rl_remaining (headers resp)) as [rem|]; [|left; apply unchanged_refl].
    destruct (rl_reset_after (headers resp)) as [after|];
      [|left; apply unchanged_refl].
    apply reconcile_effect, Hk. }
  assert (H2 : forall t, unchanged (store s) (exhaust st1 k t)
                         \/ absorbed b (store s) (exhaust st1 k t)).
  { intros t. destruct (exhaust_effect st1 k t) as (E1 & E2 & E3).
    assert (U : unchanged st1 (exhaust st1 k t)) by (repeat split; assumption).
    destruct H1 as [H1 | H1]; [left; eapply unchanged_then | right; eapply absorbed_then];
      eassumption. }
  destruct (status resp =? 429); [destruct (rl_is_global (headers resp))|];
    cbn [transit submitted settled rescheduled store]; auto.
Qed.

Section WireMoves.

Variable P : Policy.

Lemma wire_ok_dispatch (s s' : State) (b : BucketId) :
  dispatch s b = Some s' -> wire_ok P None s -> wire_ok P None s'.
Proof.
  intros Hd [H1 H2 H3 H4 H5 H6 H7 H8].
  destruct (dispatch_effect s s' b Hd) as (r & q & Hb & Ht & Hs & Hr & Hn & _).
  assert (Hoff : b ∉ origins s).
  { intros Hin. destruct (H2 b Hin) as [q0 Hq0]. congruence. }
  constructor; unfold origins in *; rewrite ?Ht, ?Hr, ?Hn.
  - rewrite fmap_cons. apply NoDup_cons. split; assumption.
  - intros b' Hin. rewrite Hs. destruct (decide (b' = b)) as [-> | Hne]; [eauto|].
    rewrite fmap_cons in Hin. apply elem_of_cons in Hin as [Hin | Hin];
      [simpl in Hin; congruence | auto].
  - intros b' q0. rewrite Hs, fmap_cons.
    destruct (decide (b' = b)) as [-> | Hne]; [intros _; left; left|].
    intros Hq0. destruct (H3 _ _ Hq0) as [Hin | Hc]; [|discriminate].
    left. right. exact Hin.
  - intros b' Hc. discriminate.
  - intros b' r' Hin. apply elem_of_cons in Hin as [[= -> ->] | Hin]; [|auto].
    eapply H6; [exact Hb | left].
  - intros b' q0 f0 r'. rewrite Hs.
    destruct (decide (b' = b)) as [-> | Hne]; [|apply H6].
    intros [= <- <-] Hin. eapply H6; [exact Hb | right; exact Hin].
  - intros k b' Hk. rewrite Hs. destruct (decide (b' = b)); [eauto | eapply H7, Hk].
  - intros b'. rewrite Hs. destruct (decide (b' = b)) as [-> | Hne]; [|apply H8].
    intros _. apply H8. rewrite Hb. eauto.
Qed.

Lemma origins_off_wire (l : list (BucketId * Request)) (b b' : BucketId) :
  b' ∈ (filter (fun e => e.1 <> b) l).*1 <-> b' ∈ l.*1 /\ b' <> b.
Proof.
  rewrite !list_elem_of_fmap. split.
  - intros ([x r] & -> & H). apply list_elem_of_filter in H as [H1 H2].
    split; [exists (x, r); split; [reflexivity | exact H2] | exact H1].
  - intros [([x r] & -> & H) Hne]. exists (x, r). split; [reflexivity|].
    apply list_elem_of_filter. split; assumption.
Qed.

Lemma wire_ok_conclude (s : State) (b : BucketId) (r : Request)
    (res : TransportResult) :
  (b, r) ∈ transit s -> wire_ok P None s ->
  wire_ok P (Some b) (conclude P s b r res).
Proof.
  intros Hin [H1 H2 H3 H4 H5 H6 H7 H8].
  destruct (conclude_effect P s b r res) as (Ht & Hr & Hn & _ & Hcase).
  set (s1 := conclude P s b r res) in *.
  (* flags and liveness are those of [s]; a queue has at most gained the
     rescheduled request, whose route is that of [r] *)
  assert (Hflag : forall b' q f, shape_of s1 b' = Some (q, f) ->
            exists q0, shape_of s b' = Some (q0, f)
                       /\ forall r', r' ∈ q -> r' ∈ q0 \/ (b' = b /\ key P r' = key P r)).
  { intros b' q f.
    destruct Hcase as [(o & _ & _ & _ & Hs) | (d & r' & _ & _ & Hk & _ & _ & Hs)];
      rewrite Hs.
    - intros Hq. exists q. split; [exact Hq | auto].
    - destruct (decide (b' = b)) as [-> | Hne].
      + destruct (shape_of s b) as [[q0 f0]|]; [|discriminate].
        intros [= <- <-]. exists q0. split; [reflexivity|].
        intros r'' Hr''. apply elem_of_app in Hr'' as [Hr'' | Hr'']; [auto|].
        apply list_elem_of_singleton in Hr'' as ->. auto.
      + intros Hq. exists q. split; [exact Hq | auto]. }
  assert (Hlive : forall b' q f, shape_of s b' = Some (q, f) ->
            exists q1, shape_of s1 b' = Some (q1, f)).
  { intros b' q f Hq.
    destruct Hcase as [(o & _ & _ & _ & Hs) | (d & r' & _ & _ & _ & _ & _ & Hs)];
      rewrite Hs; [eauto|].
    destruct (decide (b' = b)) as [-> | Hne]; [|eauto]. rewrite Hq. simpl. eauto. }
  constructor; unfold origins in *; rewrite ?Ht, ?Hr, ?Hn.
  - apply (sublist_NoDup _ (transit s).*1); [exact H1|].
    apply fmap_sublist, sublist_filter.
  - intros b' Hb'. apply origins_off_wire in Hb' as [Hb' _].
    destruct (H2 _ Hb') as [q Hq]. eapply Hlive, Hq.
  - intros b' q Hq. destruct (Hflag _ _ _ Hq) as (q0 & Hq0 & _).
    destruct (H3 _ _ Hq0) as [Hb' | Hc]; [|discriminate].
    destruct (decide (b' = b)) as [-> | Hne]; [right; reflexivity|].
    left. apply origins_off_wire. split; assumption.
  - intros b' [= <-] Hb'. apply origins_off_wire in Hb' as [_ Hne]. congruence.
  - intros b' r' Hr'. apply list_elem_of_filter in Hr' as [_ Hr']. auto.
  - intros b' q f r' Hq Hr'. destruct (Hflag _ _ _ Hq) as (q0 & Hq0 & Hsub).
    destruct (Hsub _ Hr') as [Hr0 | [-> Hk]]; [eapply H6; eauto|].
    rewrite Hk. apply H5, Hin.
  - intros k b' Hk. destruct (H7 _ _ Hk) as [[q f] Hq].
    destruct (Hlive _ _ _ Hq) as [q1 Hq1]. rewrite Hq1. eauto.
  - intros b' [[q f] Hq]. destruct (Hflag _ _ _ Hq) as (q0 & Hq0 & _).
    apply H8. rewrite Hq0. eauto.
Qed.

Lemma wire_ok_unchanged (c : option BucketId) (s s' : State) :
  transit s' = transit s -> unchanged (store s) (store s') ->
  wire_ok P c s -> wire_ok P c s'.
Proof.
  intros Ht (Hs & Hr & Hn). apply wire_ok_ext; assumption.
Qed.

Lemma wire_ok_absorbed (s s' : State) (b : BucketId) :
  transit s' = transit s -> absorbed b (store s) (store s') ->
  wire_ok P (Some b) s -> wire_ok P (Some b) s'.
Proof.
  intros Ht (b' & q & q' & f & f' & Hne & Hb & Hb' & Hs & Hr & Hn)
         [H1 H2 H3 H4 H5 H6 H7 H8].
  assert (Hoff : b ∉ origins s) by (apply H4; reflexivity).
  unfold shape_of in *.
  constructor; unfold origins, shape_of in *; rewrite ?Ht, ?Hr, ?Hn.
  - exact H1.
  - intros x Hx. rewrite Hs. destruct (decide (x = b')) as [-> | Hx'].
    + destruct (H2 _ Hx) as [q0 Hq0]. rewrite Hb' in Hq0.
      injection Hq0 as <- <-. eauto.
    + destruct (decide (x = b)) as [-> | _]; [contradiction | auto].
  - intros x q0. rewrite Hs. destruct (decide (x = b')) as [-> | Hx'].
    + intros [= <- ->]. eapply H3, Hb'.
    + destruct (decide (x = b)) as [-> | _]; [discriminate | apply H3].
  - exact H4.
  - intros x r Hin. rewrite lookup_fmap, (H5 _ _ Hin). simpl.
    rewrite repoint_other; [reflexivity|]. intros ->. apply Hoff.
    apply list_elem_of_fmap. exists (b, r). split; [reflexivity | exact Hin].
  - intros x q0 f0 r. rewrite Hs. destruct (decide (x = b')) as [-> | Hx'].
    + intros [= <- <-] Hin. apply merge_queues_elem_of in Hin as [Hin | Hin].
      * rewrite lookup_fmap, (H6 _ _ _ _ Hb' Hin). simpl.
        rewrite repoint_other by exact Hne. reflexivity.
      * rewrite lookup_fmap, (H6 _ _ _ _ Hb Hin). simpl.
        rewrite repoint_self. reflexivity.
    + destruct (decide (x = b)) as [-> | Hx]; [discriminate|].
      intros Hq Hin. rewrite lookup_fmap, (H6 _ _ _ _ Hq Hin). simpl.
      rewrite repoint_other by exact Hx. reflexivity.
  - intros k x. rewrite lookup_fmap. destruct (routes (store s) !! k) as [y|] eqn:Hk;
      [|discriminate].
    simpl. intros [= <-]. rewrite Hs. unfold repoint.
    destruct (decide (y = b)) as [-> | Hy].
    + rewrite decide_True by reflexivity. eauto.
    + destruct (decide (y = b')); [eauto|].
      rewrite decide_False by exact Hy. eapply H7, Hk.
  - intros x. rewrite Hs. destruct (decide (x = b')) as [-> | Hx'].
    + intros _. apply H8. rewrite Hb'. eauto.
    + destruct (decide (x = b)) as [-> | Hx]; [intros [? ?]; discriminate | apply H8].
Qed.

Lemma wire_ok_feed (s : State) (k : RouteKey) (resp : Response) (b : BucketId) :
  routes (store s) !! k = Some b ->
  wire_ok P (Some b) s -> wire_ok P (Some b) (feed s k resp).
Proof.
  intros Hk H. destruct (feed_effect s k resp b Hk) as (Ht & _ & _ & _ & [U | A]).
  - eapply wire_ok_unchanged; eassumption.
  - eapply wire_ok_absorbed; eassumption.
Qed.

Lemma wire_ok_finish (s : State) (b : BucketId) :
  wire_ok P (Some b) s -> wire_ok P None (finish s b).
Proof.
  intros [H1 H2 H3 H4 H5 H6 H7 H8].
  destruct (finish_effect s b) as (Ht & Hs & Hr & Hn & _).
  assert (Hoff : b ∉ origins s) by (apply H4; reflexivity).
  assert (Hsh : forall b' q f, shape_of (finish s b) b' = Some (q, f) ->
            exists f0, shape_of s b' = Some (q, f0) /\ (b' <> b -> f0 = f)
                       /\ (b' = b -> f = false)).
  { intros b' q f. rewrite Hs. destruct (decide (b' = b)) as [-> | Hne].
    - destruct (shape_of s b) as [[q0 f0]|]; [|discriminate].
      intros [= <- <-]. exists f0. repeat split; congruence.
    - intros Hq. exists f. repeat split; congruence. }
  constructor; unfold origins in *; rewrite ?Ht, ?Hr, ?Hn.
  - exact H1.
  - intros b' Hb'. rewrite Hs. rewrite decide_False by congruence. auto.
  - intros b' q Hq. destruct (Hsh _ _ _ Hq) as (f0 & Hq0 & Hf & Hf').
    destruct (decide (b' = b)) as [-> | Hne]; [specialize (Hf' eq_refl); discriminate|].
    rewrite (Hf Hne) in Hq0. destruct (H3 _ _ Hq0) as [Hin | [= ->]];
      [left; exact Hin | contradiction].
  - intros b' Hc. discriminate.
  - exact H5.
  - intros b' q f r Hq Hr'. destruct (Hsh _ _ _ Hq) as (f0 & Hq0 & _). eapply H6; eauto.
  - intros k b' Hk. destruct (H7 _ _ Hk) as [[q f] Hq]. rewrite Hs.
    destruct (decide (b' = b)) as [-> | Hne]; rewrite Hq; simpl; eauto.
  - intros b' [[q f] Hq]. destruct (Hsh _ _ _ Hq) as (f0 & Hq0 & _).
    apply H8. rewrite Hq0. eauto.
Qed.

Lemma wire_ok_cancel (s : State) (b : BucketId) (h : Handle) :
  wire_ok P None s -> wire_ok P None (cancel s b h).
Proof.
  intros [H1 H2 H3 H4 H5 H6 H7 H8].
  destruct (cancel_effect s b h) as (Ht & Hs & Hr & Hn & _).
  assert (Hsh : forall b' q f, shape_of (cancel s b h) b' = Some (q, f) ->
            exists q0, shape_of s b' = Some (q0, f) /\ forall r, r ∈ q -> r ∈ q0).
  { intros b' q f. rewrite Hs. destruct (decide (b' = b)) as [-> | Hne].
    - destruct (shape_of s b) as [[q0 f0]|]; [|discriminate].
      intros [= <- <-]. exists q0. split; [reflexivity|].
      intros r Hr'. apply list_elem_of_filter in Hr' as [_ Hr']. exact Hr'.
    - intros Hq. exists q. auto. }
  assert (Hlive : forall b' q f, shape_of s b' = Some (q, f) ->
            exists q1, shape_of (cancel s b h) b' = Some (q1, f)).
  { intros b' q f Hq. rewrite Hs.
    destruct (decide (b' = b)) as [-> | Hne]; rewrite Hq; simpl; eauto. }
  constructor; unfold origins in *; rewrite ?Ht, ?Hr, ?Hn.
  - exact H1.
  - intros b' Hb'. destruct (H2 _ Hb') as [q Hq]. eapply Hlive, Hq.
  - intros b' q Hq. destruct (Hsh _ _ _ Hq) as (q0 & Hq0 & _). eapply H3, Hq0.
  - exact H4.
  - exact H5.
  - intros b' q f r Hq Hr'. destruct (Hsh _ _ _ Hq) as (q0 & Hq0 & Hsub).
    eapply H6; eauto.
  - intros k b' Hk. destruct (H7 _ _ Hk) as [[q f] Hq].
    destruct (Hlive _ _ _ Hq) as [q1 Hq1]. rewrite Hq1. eauto.
  - intros b' [[q f] Hq]. destruct (Hsh _ _ _ Hq) as (q0 & Hq0 & _).
    apply H8. rewrite Hq0. eauto.
Qed.

Lemma wire_ok_complete (s : State) (b : BucketId) (r : Request)
    (res : TransportResult) :
  (b, r) ∈ transit s -> wire_ok P None s -> wire_ok P None (complete P s b r res).
Proof.
  intros Hin H. unfold complete. apply wire_ok_finish.
  pose proof (wire_ok_conclude s b r res Hin H) as H1.
  destruct res as [resp|]; [|exact H1].
  apply wire_ok_feed; [|exact H1].
  destruct (conclude_effect P s b r (Responded resp)) as (_ & Hr & _).
  rewrite Hr. eapply wire_route; eassumption.
Qed.

Lemma wire_ok_step (s s' : State) :
  step P s s' -> wire_ok P None s -> wire_ok P None s'.
Proof.
  intros [c | b s'' Hd | b r res Hin | b h | d |] H.
  - apply wire_ok_submit, H.
  - eapply wire_ok_dispatch; eassumption.
  - apply wire_ok_complete; assumption.
  - apply wire_ok_cancel, H.
  - eapply wire_ok_ext; [..|exact H]; reflexivity.
  - eapply wire_ok_ext; [..|exact H]; reflexivity.
Qed.

Lemma wire_ok_reachable (s : State) : reachable P s -> wire_ok P None s.
Proof.
  unfold reachable. intros H.
  refine (rtc_ind_r (fun s => wire_ok P None s) (init P) (wire_ok_init P) _ s H).
  intros y z _ Hstep Hy. eapply wire_ok_step; eassumption.
Qed.

End WireMoves.

(** C4.  In every reachable state each bucket has at most one request on
    the wire, its [inFlight] flag is set exactly when it has one, and two
    dispatched requests whose routes resolve to the same Bucket are one and
    the same dispatch. *)
Theorem one_in_flight_per_bucket (P : Policy) (s : State) :
  reachable P s ->
  (forall b, length (on_wire s b) <= 1)
  /\ (forall b B, buckets (store s) !! b = Some B ->
                  (inFlight B = true <-> length (on_wire s b) = 1))
  /\ (forall i j b1 r1 b2 r2,
         transit s !! i = Some (b1, r1) ->
         transit s !! j = Some (b2, r2) ->
         routes (store s) !! key P r1 = routes (store s) !! key P r2 ->
         i = j).
Proof.
  intros Hs. destruct (wire_ok_reachable P s Hs) as [H1 H2 H3 H4 H5 H6 H7 H8].
  assert (Hlen : forall b, (b ∈ origins s -> length (on_wire s b) = 1)
                           /\ (b ∉ origins s -> length (on_wire s b) = 0)).
  { intros b. split.
    - intros Hin. apply elem_of_origins in Hin as [r Hr].
      rewrite (on_wire_one s b r H1 Hr). reflexivity.
    - intros Hoff. rewrite (on_wire_off s b Hoff). reflexivity. }
  split; [|split].
  - intros b. destruct (decide (b ∈ origins s)) as [Hin | Hoff].
    + rewrite (proj1 (Hlen b) Hin). lia.
    + rewrite (proj2 (Hlen b) Hoff). lia.
  - intros b B HB. split.
    + intros Hf. destruct (H3 b (queue B)) as [Hin | Hc]; [|apply Hlen, Hin | discriminate].
      unfold shape_of, shape_at, shape. rewrite HB. simpl. rewrite Hf. reflexivity.
    + intros Hone. destruct (decide (b ∈ origins s)) as [Hin | Hoff].
      * destruct (H2 b Hin) as [q Hq].
        apply shape_at_Some in Hq as (B' & HB' & _ & Hf). congruence.
      * rewrite (proj2 (Hlen b) Hoff) in Hone. discriminate.
  - intros i j b1 r1 b2 r2 Hi Hj Hsame.
    assert (b1 = b2).
    { rewrite (H5 b1 r1), (H5 b2 r2) in Hsame by (eapply list_elem_of_lookup_2; eauto).
      congruence. }
    subst b2. eapply NoDup_lookup; [exact H1| |]; unfold origins;
      rewrite list_lookup_fmap; [rewrite Hi | rewrite Hj]; reflexivity.
Qed.

(** ** What each move does to the wire and the queues *)

Lemma pending_unfold (s : State) (b : BucketId) :
  pending s b = (handle <$> on_wire s b) ++ (handle <$> queue_of s b).
Proof. unfold pending. apply fmap_app. Qed.

Lemma filter_origin_other (l : list (BucketId * Request)) (b b' : BucketId) :
  filter (fun e => e.1 = b') (filter (fun e => e.1 <> b) l)
  = if decide (b' = b) then [] else filter (fun e => e.1 = b') l.
Proof.
  destruct (decide (b' = b)) as [-> | Hne].
  - induction l as [|[x r] l IH]; [reflexivity|].
    rewrite (filter_cons (fun e => e.1 <> b)). simpl.
    destruct (decide (x <> b)) as [Hx | Hx]; [|exact IH].
    rewrite filter_cons_False by (simpl; congruence). exact IH.
  - induction l as [|[x r] l IH]; [reflexivity|].
    rewrite (filter_cons (fun e => e.1 <> b)). simpl.
    destruct (decide (x <> b)) as [Hx | Hx].
    + rewrite !filter_cons. simpl. rewrite IH. reflexivity.
    + rewrite IH. rewrite filter_cons_False; [reflexivity|]. simpl.
      intros ->. apply Hx. exact Hne.
Qed.


Section Queues.

Variable P : Policy.

Lemma dispatch_queues (s s' : State) (b : BucketId) :
  dispatch s b = Some s' -> wire_ok P None s ->
  exists r q,
    on_wire s b = [] /\ queue_of s b = r :: q
    /\ on_wire s' b = [r] /\ queue_of s' b = q
    /\ (forall b', b' <> b ->
                   on_wire s' b' = on_wire s b' /\ queue_of s' b' = queue_of s b')
    /\ submitted s' = submitted s
    /\ settled s' = settled s
    /\ rescheduled s' = rescheduled s.
Proof.
  intros Hd W.
  destruct (dispatch_effect s s' b Hd)
    as (r & q & Hb & Ht & Hs & _ & _ & Hsu & Hse & Hre).
  assert (Hoff : b ∉ origins s).
  { intros Hin. destruct (wire_flag _ _ _ W b Hin) as [q0 Hq0]. congruence. }
  exists r, q. split; [apply on_wire_off, Hoff|].
  split; [rewrite queue_of_shape, Hb; reflexivity|].
  split.
  { unfold on_wire. rewrite Ht, filter_cons_True by reflexivity.
    rewrite (filter_origin_off _ b Hoff). reflexivity. }
  split; [rewrite queue_of_shape, Hs, decide_True by reflexivity; reflexivity|].
  split; [|auto].
  intros b' Hne. split.
  - unfold on_wire. rewrite Ht, filter_cons_False by (simpl; congruence).
    reflexivity.
  - rewrite !queue_of_shape, Hs, decide_False by exact Hne. reflexivity.
Qed.

Lemma conclude_queues (s : State) (b : BucketId) (r : Request)
    (res : TransportResult) :
  (b, r) ∈ transit s -> wire_ok P None s ->
  let s1 := conclude P s b r res in
  on_wire s b = [r] /\ on_wire s1 b = []
  /\ (forall b', b' <> b ->
                 on_wire s1 b' = on_wire s b' /\ queue_of s1 b' = queue_of s b')
  /\ submitted s1 = submitted s
  /\ ((exists o, settled s1 = settled s ++ [(handle r, o)]
                 /\ (forall d, interpret P r res <> Retry d)
                 /\ rescheduled s1 = rescheduled s
                 /\ queue_of s1 b = queue_of s b)
      \/ (exists d r', interpret P r res = Retry d
                       /\ handle r' = handle r
                       /\ settled s1 = settled s
                       /\ rescheduled s1 = rescheduled s ++ [handle r]
                       /\ queue_of s1 b = queue_of s b ++ [r'])).
Proof.
  intros Hin W s1.
  destruct (conclude_effect P s b r res) as (Ht & _ & _ & Hsu & Hcase).
  fold s1 in Ht, Hsu, Hcase.
  assert (Hw : forall b', on_wire s1 b' = if decide (b' = b) then [] else on_wire s b').
  { intros b'. unfold on_wire. rewrite Ht, filter_origin_other.
    destruct (decide (b' = b)); reflexivity. }
  destruct (wire_flag _ _ _ W b) as [q Hq].
  { apply elem_of_origins. eauto. }
  split; [apply on_wire_one; [apply (wire_nodup _ _ _ W) | exact Hin]|].
  split; [rewrite Hw, decide_True by reflexivity; reflexivity|].
  split.
  { intros b' Hne. rewrite Hw, decide_False by exact Hne. split; [reflexivity|].
    rewrite !queue_of_shape.
    destruct Hcase as [(o & _ & _ & _ & Hs) | (d & r' & _ & _ & _ & _ & _ & Hs)];
      rewrite Hs; [reflexivity|]. rewrite decide_False by exact Hne. reflexivity. }
  split; [exact Hsu|].
  destruct Hcase as [(o & Hse & Hno & Hre & Hs)
                    | (d & r' & Hi & Hh & _ & Hse & Hre & Hs)].
  - left. exists o. repeat (split; [assumption|]).
    rewrite !queue_of_shape, Hs. reflexivity.
  - right. exists d, r'. repeat (split; [assumption|]).
    rewrite !queue_of_shape, Hs, decide_True by reflexivity. rewrite Hq. reflexivity.
Qed.

Lemma unchanged_queues (s s' : State) (b : BucketId) :
  transit s' = transit s -> unchanged (store s) (store s') ->
  on_wire s' b = on_wire s b /\ queue_of s' b = queue_of s b.
Proof.
  intros Ht (Hs & _ & _). split; [unfold on_wire; rewrite Ht; reflexivity|].
  rewrite !queue_of_shape. unfold shape_of. rewrite Hs. reflexivity.
Qed.

Lemma absorbed_queues (s s' : State) (b : BucketId) :
  transit s' = transit s -> absorbed b (store s) (store s') ->
  wire_ok P (Some b) s ->
  exists b',
    b' <> b /\ on_wire s b = []
    /\ (forall x, on_wire s' x = on_wire s x)
    /\ queue_of s' b' = merge_queues (queue_of s b') (queue_of s b)
    /\ queue_of s' b = []
    /\ (forall x, x <> b -> x <> b' -> queue_of s' x = queue_of s x).
Proof.
  intros Ht (b' & q & q' & f & f' & Hne & Hb & Hb' & Hs & _ & _) W.
  fold (shape_of s b) in Hb. fold (shape_of s b') in Hb'.
  exists b'. split; [exact Hne|].
  split; [apply on_wire_off, (completing_off _ _ _ W); reflexivity|].
  split; [intros x; unfold on_wire; rewrite Ht; reflexivity|].
  split; [|split].
  - rewrite !queue_of_shape, Hb, Hb'. unfold shape_of. rewrite Hs.
    rewrite decide_True by reflexivity. reflexivity.
  - rewrite queue_of_shape. unfold shape_of. rewrite Hs.
    rewrite decide_False by congruence. rewrite decide_True by reflexivity.
    reflexivity.
  - intros x Hx Hx'. rewrite !queue_of_shape. unfold shape_of. rewrite Hs.
    rewrite !decide_False by assumption. reflexivity.
Qed.

Lemma finish_queues (s : State) (b b' : BucketId) :
  on_wire (finish s b) b' = on_wire s b'
  /\ queue_of (finish s b) b' = queue_of s b'.
Proof.
  destruct (finish_effect s b) as (Ht & Hs & _).
  split; [unfold on_wire; rewrite Ht; reflexivity|].
  rewrite !queue_of_shape, Hs. destruct (decide (b' = b)) as [-> | _]; [|reflexivity].
  destruct (shape_of s b) as [[q f]|]; reflexivity.
Qed.

Lemma cancel_queues (s : State) (b : BucketId) (h : Handle) (b' : BucketId) :
  on_wire (cancel s b h) b' = on_wire s b'
  /\ queue_of (cancel s b h) b'
     = if decide (b' = b) then filter (fun r => handle r <> h) (queue_of s b)
       else queue_of s b'.
Proof.
  destruct (cancel_effect s b h) as (Ht & Hs & _).
  split; [unfold on_wire; rewrite Ht; reflexivity|].
  rewrite !queue_of_shape, Hs. destruct (decide (b' = b)) as [-> | _]; [|reflexivity].
  destruct (shape_of s b) as [[q f]|]; reflexivity.
Qed.

Lemma submit_effect (s : State) (c : DispatcherRequest) :
  wire_ok P None s ->
  let s' := (submit P s c).1 in
  let r := mkReq c 0 0 0 (length (submitted s)) in
  exists b q f,
    (submit P s c).2 = length (submitted s)
    /\ routes (store s') !! resolve P (verb c) (url c) = Some b
    /\ submitted s' = submitted s ++ [b]
    /\ transit s' = transit s
    /\ settled s' = settled s
    /\ rescheduled s' = rescheduled s
    /\ (forall b', shape_of s' b'
                   = if decide (b' = b) then Some (q ++ [r], f) else shape_of s b')
    /\ ((shape_of s b = Some (q, f)
         /\ nextBucket (store s') = nextBucket (store s))
        \/ (shape_of s b = None /\ q = []
            /\ b = nextBucket (store s)
            /\ nextBucket (store s') = S b)).
Proof.
  intros W. unfold submit, get_or_create.
  destruct (routes (store s) !! resolve P (verb c) (url c)) as [b|] eqn:Hk; cbn [fst snd].
  - destruct (route_live _ _ _ W _ _ Hk) as [[q f] Hq].
    exists b, q, f. split; [reflexivity|]. split; [exact Hk|].
    do 4 (split; [reflexivity|]). split; [|left; split; [exact Hq | reflexivity]].
    intros b'. unfold shape_of in *; cbn [store]. rewrite shape_at_update.
    destruct (decide (b' = b)); [|reflexivity].
    apply shape_at_Some in Hq as (B & -> & <- & <-). reflexivity.
  - set (nb := nextBucket (store s)).
    assert (Hfresh : shape_of s nb = None).
    { destruct (shape_of s nb) eqn:E; [|reflexivity].
      assert (nb < nb) by (apply (dom_bound _ _ _ W); rewrite E; eauto). lia. }
    exists nb, [], false. split; [reflexivity|].
    split; [cbn [store update_bucket routes]; apply lookup_insert_eq|].
    do 4 (split; [reflexivity|]).
    split; [|right; repeat split; assumption].
    intros b'. unfold shape_of; cbn [store]. rewrite shape_at_update. cbn [buckets].
    destruct (decide (b' = nb)) as [-> | Hne].
    + rewrite lookup_insert_eq. reflexivity.
    + unfold shape_at; cbn [buckets]. rewrite lookup_insert_ne by congruence.
      reflexivity.
Qed.

Lemma submit_queues (s : State) (c : DispatcherRequest) :
  wire_ok P None s ->
  let s' := (submit P s c).1 in
  exists b r,
    handle r = length (submitted s)
    /\ submitted s' = submitted s ++ [b]
    /\ settled s' = settled s
    /\ rescheduled s' = rescheduled s
    /\ (forall b', on_wire s' b' = on_wire s b')
    /\ queue_of s' b = queue_of s b ++ [r]
    /\ (forall b', b' <> b -> queue_of s' b' = queue_of s b').
Proof.
  intros W s'.
  destruct (submit_effect s c W)
    as (b & q & f & _ & _ & Hsu & Ht & Hse & Hre & Hs & Hcase).
  fold s' in Hsu, Ht, Hse, Hre, Hs.
  exists b, (mkReq c 0 0 0 (length (submitted s))).
  split; [reflexivity|]. do 3 (split; [assumption|]).
  split; [intros b'; unfold on_wire; rewrite Ht; reflexivity|].
  split.
  - rewrite !queue_of_shape, Hs, decide_True by reflexivity.
    destruct Hcase as [[-> _] | (-> & -> & _)]; reflexivity.
  - intros b' Hne. rewrite !queue_of_shape, Hs, decide_False by exact Hne.
    reflexivity.
Qed.

End Queues.

(** ** The handles and their order, move by move *)

Lemma elem_of_pending_queue (s : State) (b : BucketId) (x : Handle) :
  x ∈ handle <$> queue_of s b -> x ∈ pending s b.
Proof. intros H. rewrite pending_unfold. apply elem_of_app. right. exact H. Qed.


(** The handles owed may shrink. *)
Lemma order_ok_shrink (s s' : State) :
  (forall b, pending s' b `sublist_of` pending s b) ->
  (forall b, queue_of s' b `sublist_of` queue_of s b) ->
  submitted s' = submitted s ->
  settled s' = settled s ->
  rescheduled s' = rescheduled s ->
  order_ok s -> order_ok s'.
Proof.
  intros Hp Hq Hsu Hse Hre [H1 H2 H3 H4 H5 H6 H7].
  assert (Hin : forall b x, x ∈ pending s' b -> x ∈ pending s b)
    by (intros b x; apply sublist_subseteq, Hp).
  constructor; rewrite ?Hsu, ?Hse, ?Hre.
  - eauto.
  - exact H2.
  - intros b. eapply sublist_NoDup; [apply H3 | apply Hp].
  - eauto.
  - exact H5.
  - eauto.
  - intros b x y Hxy. apply (H7 b). etransitivity; [exact Hxy|].
    apply fmap_sublist, Hq.
Qed.

Lemma order_ok_same (s s' : State) :
  (forall b, on_wire s' b = on_wire s b /\ queue_of s' b = queue_of s b) ->
  submitted s' = submitted s ->
  settled s' = settled s ->
  rescheduled s' = rescheduled s ->
  order_ok s -> order_ok s'.
Proof.
  intros H. apply order_ok_shrink.
  - intros b. rewrite !pending_unfold. destruct (H b) as [-> ->]. reflexivity.
  - intros b. destruct (H b) as [_ ->]. reflexivity.
Qed.

Lemma order_ok_init (P : Policy) : order_ok (init P).
Proof.
  assert (Hp : forall b, pending (init P) b = []).
  { intros b. unfold pending, on_wire, queue_of. simpl. rewrite lookup_empty.
    reflexivity. }
  constructor; simpl; intros; rewrite ?Hp in *;
    try match goal with H : _ ∈ [] |- _ => inversion H end;
    try constructor.
  unfold queue_of in H. simpl in H. rewrite lookup_empty in H.
  apply sublist_nil_r in H. discriminate.
Qed.

Section OrderMoves.

Variable P : Policy.

Lemma order_ok_dispatch (s s' : State) (b : BucketId) :
  dispatch s b = Some s' -> wire_ok P None s -> order_ok s -> order_ok s'.
Proof.
  intros Hd W.
  destruct (dispatch_queues P s s' b Hd W)
    as (r & q & Hw & Hq & Hw' & Hq' & Ho & Hsu & Hse & Hre).
  apply order_ok_shrink; try assumption.
  - intros b'. rewrite !pending_unfold. destruct (decide (b' = b)) as [-> | Hne].
    + rewrite Hw, Hq, Hw', Hq'. reflexivity.
    + destruct (Ho b' Hne) as [-> ->]. reflexivity.
  - intros b'. destruct (decide (b' = b)) as [-> | Hne].
    + rewrite Hq, Hq'. apply sublist_cons. reflexivity.
    + destruct (Ho b' Hne) as [_ ->]. reflexivity.
Qed.

Lemma order_ok_finish (s : State) (b : BucketId) :
  order_ok s -> order_ok (finish s b).
Proof.
  destruct (finish_effect s b) as (_ & _ & _ & _ & Hsu & Hse & Hre).
  apply order_ok_same; try assumption. intros b'. apply finish_queues.
Qed.

Lemma order_ok_cancel (s : State) (b : BucketId) (h : Handle) :
  order_ok s -> order_ok (cancel s b h).
Proof.
  destruct (cancel_effect s b h) as (_ & _ & _ & _ & Hsu & Hse & Hre).
  assert (Hq : forall b', queue_of (cancel s b h) b' `sublist_of` queue_of s b').
  { intros b'. destruct (cancel_queues s b h b') as [_ ->].
    destruct (decide (b' = b)) as [-> | _]; [apply sublist_filter | reflexivity]. }
  apply order_ok_shrink; try assumption.
  intros b'. rewrite !pending_unfold. destruct (cancel_queues s b h b') as [-> _].
  apply sublist_app; [reflexivity|]. apply fmap_sublist, Hq.
Qed.

Lemma order_ok_unchanged (s s' : State) :
  transit s' = transit s -> unchanged (store s) (store s') ->
  submitted s' = submitted s -> settled s' = settled s ->
  rescheduled s' = rescheduled s ->
  order_ok s -> order_ok s'.
Proof.
  intros Ht U. apply order_ok_same. intros b. apply unchanged_queues; assumption.
Qed.

Lemma order_ok_conclude (s : State) (b : BucketId) (r : Request)
    (res : TransportResult) :
  (b, r) ∈ transit s -> wire_ok P None s -> order_ok s ->
  order_ok (conclude P s b r res).
Proof.
  intros Hin W [H1 H2 H3 H4 H5 H6 H7].
  destruct (conclude_queues P s b r res Hin W) as (Hw & Hw1 & Ho & Hsu & Hcase).
  set (s1 := conclude P s b r res) in *.
  assert (Hb : pending s b = handle r :: (handle <$> queue_of s b))
    by (rewrite pending_unfold, Hw; reflexivity).
  assert (Hother : forall b', b' <> b -> pending s1 b' = pending s b').
  { intros b' Hne. rewrite !pending_unfold. destruct (Ho b' Hne) as [-> ->].
    reflexivity. }
  assert (Hr : handle r ∈ pending s b) by (rewrite Hb; left).
  destruct Hcase as [(o & Hse & _ & Hre & Hq) | (d & r' & _ & Hh & Hse & Hre & Hq)].
  - (* the handle settles *)
    assert (Hb1 : pending s1 b = handle <$> queue_of s b)
      by (rewrite pending_unfold, Hw1, Hq; reflexivity).
    assert (Hsub : forall b', pending s1 b' `sublist_of` pending s b').
    { intros b'. destruct (decide (b' = b)) as [-> | Hne].
      - rewrite Hb1, Hb. apply sublist_cons. reflexivity.
      - rewrite (Hother _ Hne). reflexivity. }
    assert (Hmem : forall b' x, x ∈ pending s1 b' -> x ∈ pending s b')
      by (intros b' x; apply sublist_subseteq, Hsub).
    assert (Hqs : forall b', queue_of s1 b' = queue_of s b').
    { intros b'. destruct (decide (b' = b)) as [-> | Hne];
        [exact Hq | apply (Ho b' Hne)]. }
    constructor; rewrite ?Hsu, ?Hse, ?Hre.
    + eauto.
    + intros x. rewrite fmap_app, elem_of_app. intros [Hx | Hx]; [auto|].
      apply list_elem_of_singleton in Hx. subst x. eauto.
    + intros b'. eapply sublist_NoDup; [apply H3 | apply Hsub].
    + eauto.
    + rewrite fmap_app. apply NoDup_app. split; [exact H5|]. split.
      * intros x Hx Hx'. apply list_elem_of_singleton in Hx'. subst x.
        apply (H6 b (handle r) Hr Hx).
      * apply NoDup_singleton.
    + intros b' x Hx. rewrite fmap_app, not_elem_of_app. split; [eauto|].
      intros Hx'. apply list_elem_of_singleton in Hx'. subst x.
      destruct (decide (b' = b)) as [-> | Hne].
      * rewrite Hb1 in Hx. specialize (H3 b). rewrite Hb in H3.
        apply NoDup_cons in H3 as [H3 _]. exact (H3 Hx).
      * apply Hne. eapply H4; [apply Hmem, Hx | exact Hr].
    + intros b'. rewrite Hqs. apply H7.
  - (* the request is enqueued again *)
    assert (Hb1 : pending s1 b = (handle <$> queue_of s b) ++ [handle r]).
    { rewrite pending_unfold, Hw1, Hq, fmap_app. simpl. rewrite Hh. reflexivity. }
    assert (Hperm : forall b', pending s1 b' ≡ₚ pending s b').
    { intros b'. destruct (decide (b' = b)) as [-> | Hne].
      - rewrite Hb1, Hb. symmetry. apply Permutation_cons_append.
      - rewrite (Hother _ Hne). reflexivity. }
    constructor; rewrite ?Hsu, ?Hse; try setoid_rewrite Hperm; try assumption.
    intros b' x y. destruct (decide (b' = b)) as [-> | Hne].
    + rewrite Hq, Hre, fmap_app, not_elem_of_app. simpl. rewrite Hh.
      intros Hxy [Hy Hy']. apply pair_sublist_snoc in Hxy as [Hxy | [_ ->]].
      * eapply H7; eassumption.
      * destruct Hy'. left.
    + destruct (Ho b' Hne) as [_ ->]. rewrite Hre, not_elem_of_app.
      intros Hxy [Hy _]. eapply H7; eassumption.
Qed.

Lemma order_ok_absorbed (s s' : State) (b : BucketId) :
  transit s' = transit s -> absorbed b (store s) (store s') ->
  submitted s' = submitted s -> settled s' = settled s ->
  rescheduled s' = rescheduled s ->
  wire_ok P (Some b) s -> order_ok s -> order_ok s'.
Proof.
  intros Ht A Hsu Hse Hre W [H1 H2 H3 H4 H5 H6 H7].
  destruct (absorbed_queues P s s' b Ht A W)
    as (b' & Hne & Hoff & Hw & Hqb' & Hqb & Hqo).
  assert (Hpb : pending s b = handle <$> queue_of s b)
    by (rewrite pending_unfold, Hoff; reflexivity).
  assert (Hnew : forall x, pending s' x
            = if decide (x = b')
              then (handle <$> on_wire s b')
                   ++ (handle <$> merge_queues (queue_of s b') (queue_of s b))
              else if decide (x = b) then [] else pending s x).
  { intros x. rewrite !pending_unfold, Hw.
    destruct (decide (x = b')) as [-> | Hx']; [rewrite Hqb'; reflexivity|].
    destruct (decide (x = b)) as [-> | Hx]; [rewrite Hoff, Hqb; reflexivity|].
    rewrite (Hqo x Hx Hx'). reflexivity. }
  assert (Hperm : pending s' b' ≡ₚ pending s b' ++ pending s b).
  { rewrite Hnew, decide_True by reflexivity.
    rewrite merge_queues_Permutation, fmap_app, app_assoc, Hpb, pending_unfold.
    reflexivity. }
  assert (Hfrom : forall x y, y ∈ pending s' x ->
            (x <> b /\ y ∈ pending s x) \/ (x = b' /\ y ∈ pending s b)).
  { intros x y. destruct (decide (x = b')) as [-> | Hx'].
    - rewrite Hperm, elem_of_app. intros [Hy | Hy]; auto.
    - rewrite Hnew, decide_False by exact Hx'.
      destruct (decide (x = b)) as [-> | Hx]; [inversion 1 | auto]. }
  constructor; rewrite ?Hsu, ?Hse, ?Hre.
  - intros x y Hy. destruct (Hfrom _ _ Hy) as [[_ Hy'] | [_ Hy']]; eauto.
  - exact H2.
  - intros x. destruct (decide (x = b')) as [-> | Hx'].
    + rewrite Hperm. apply NoDup_app. split; [apply H3|]. split; [|apply H3].
      intros y Hy Hy'. apply Hne. eapply H4; eassumption.
    + rewrite Hnew, decide_False by exact Hx'.
      destruct (decide (x = b)); [constructor | apply H3].
  - intros x1 x2 y Hy1 Hy2.
    destruct (Hfrom _ _ Hy1) as [[Hx1 Hy1'] | [-> Hy1']],
             (Hfrom _ _ Hy2) as [[Hx2 Hy2'] | [-> Hy2']].
    + eapply H4; eassumption.
    + exfalso. apply Hx1. eapply H4; eassumption.
    + exfalso. apply Hx2. eapply H4; eassumption.
    + reflexivity.
  - exact H5.
  - intros x y Hy. destruct (Hfrom _ _ Hy) as [[_ Hy'] | [_ Hy']]; eauto.
  - intros x. destruct (decide (x = b')) as [-> | Hx'].
    + rewrite Hqb'. apply merge_queues_sorted; apply H7.
    + destruct (decide (x = b)) as [-> | Hx].
      * rewrite Hqb. intros y z H. apply sublist_nil_r in H. discriminate.
      * rewrite (Hqo x Hx Hx'). apply H7.
Qed.

Lemma order_ok_feed (s : State) (k : RouteKey) (resp : Response) (b : BucketId) :
  routes (store s) !! k = Some b ->
  wire_ok P (Some b) s -> order_ok s -> order_ok (feed s k resp).
Proof.
  intros Hk W O.
  destruct (feed_effect s k resp b Hk) as (Ht & Hsu & Hse & Hre & [U | A]).
  - eapply order_ok_unchanged; eassumption.
  - eapply order_ok_absorbed; eassumption.
Qed.

Lemma order_ok_complete (s : State) (b : BucketId) (r : Request)
    (res : TransportResult) :
  (b, r) ∈ transit s -> wire_ok P None s -> order_ok s ->
  order_ok (complete P s b r res).
Proof.
  intros Hin W O. unfold complete. apply order_ok_finish.
  pose proof (wire_ok_conclude P s b r res Hin W) as W1.
  pose proof (order_ok_conclude s b r res Hin W O) as O1.
  destruct res as [resp|]; [|exact O1].
  apply (order_ok_feed _ _ _ b); [|exact W1 | exact O1].
  destruct (conclude_effect P s b r (Responded resp)) as (_ & Hr & _).
  rewrite Hr. eapply wire_route; eassumption.
Qed.

Lemma order_ok_submit (s : State) (c : DispatcherRequest) :
  wire_ok P None s -> order_ok s -> order_ok (submit P s c).1.
Proof.
  intros W [H1 H2 H3 H4 H5 H6 H7].
  destruct (submit_queues P s c W)
    as (b & r & Hh & Hsu & Hse & Hre & Hw & Hqb & Hqo).
  set (s' := (submit P s c).1) in *.
  assert (Hnew : forall b', pending s' b'
            = if decide (b' = b) then pending s b ++ [handle r] else pending s b').
  { intros b'. rewrite !pending_unfold, Hw.
    destruct (decide (b' = b)) as [-> | Hne].
    - rewrite Hqb, fmap_app, app_assoc. reflexivity.
    - rewrite (Hqo b' Hne). reflexivity. }
  assert (Hfrom : forall b' y, y ∈ pending s' b' ->
            y ∈ pending s b' \/ (y = handle r /\ b' = b)).
  { intros b' y. rewrite Hnew. destruct (decide (b' = b)) as [-> | _]; [|auto].
    rewrite elem_of_app, list_elem_of_singleton. intros [Hy | ->]; auto. }
  assert (Hfresh : forall b', handle r ∉ pending s b').
  { intros b' Hr. specialize (H1 _ _ Hr). lia. }
  constructor; rewrite ?Hsu, ?Hse, ?Hre, ?length_app; simpl.
  - intros b' y Hy. destruct (Hfrom _ _ Hy) as [Hy' | [-> _]];
      [specialize (H1 _ _ Hy')|]; lia.
  - intros y Hy. specialize (H2 _ Hy). lia.
  - intros b'. rewrite Hnew. destruct (decide (b' = b)) as [-> | _]; [|apply H3].
    apply NoDup_app. split; [apply H3|]. split; [|apply NoDup_singleton].
    intros y Hy Hy'. apply list_elem_of_singleton in Hy'. subst y.
    exact (Hfresh _ Hy).
  - intros b1 b2 y Hy1 Hy2.
    destruct (Hfrom _ _ Hy1) as [Hy1' | [-> ->]],
             (Hfrom _ _ Hy2) as [Hy2' | [E ->]].
    + eapply H4; eassumption.
    + subst y. destruct (Hfresh _ Hy1').
    + destruct (Hfresh _ Hy2').
    + reflexivity.
  - exact H5.
  - intros b' y Hy. destruct (Hfrom _ _ Hy) as [Hy' | [-> _]]; [eauto|].
    intros Hr. specialize (H2 _ Hr). lia.
  - intros b' x y. destruct (decide (b' = b)) as [-> | Hne].
    + rewrite Hqb, fmap_app. simpl. intros Hxy Hy.
      apply pair_sublist_snoc in Hxy as [Hxy | [Hx ->]]; [eapply H7; eassumption|].
      apply elem_of_pending_queue, H1 in Hx. lia.
    + rewrite (Hqo b' Hne). apply H7.
Qed.

Lemma order_ok_step (s s' : State) :
  step P s s' -> wire_ok P None s -> order_ok s -> order_ok s'.
Proof.
  intros [c | b s'' Hd | b r res Hin | b h | d |] W O.
  - apply order_ok_submit; assumption.
  - eapply order_ok_dispatch; eassumption.
  - apply order_ok_complete; assumption.
  - apply order_ok_cancel, O.
  - eapply order_ok_same; [..|exact O]; try reflexivity. intros b. split; reflexivity.
  - eapply order_ok_same; [..|exact O]; try reflexivity. intros b. split; reflexivity.
Qed.

Lemma order_ok_reachable (s : State) : reachable P s -> order_ok s.
Proof.
  unfold reachable. intros H.
  refine (rtc_ind_r (fun s => reachable P s -> order_ok s) (init P) _ _ s H H).
  - intros _. apply order_ok_init.
  - intros y z Hy Hstep IH _. eapply order_ok_step; [exact Hstep| |apply IH, Hy].
    apply wire_ok_reachable, Hy.
Qed.

End OrderMoves.

(** ** Who goes first, move by move *)










Section OrderOfTwo.

Variable P : Policy.
Variables x y : Handle.
Hypothesis Hxy : x < y.













End OrderOfTwo.

(** ** Completion order *)







(** ** Settling once *)

Lemma settled_feed (s : State) (k : RouteKey) (resp : Response) :
  settled (feed s k resp) = settled s.
Proof.
  unfold feed. destruct (status resp =? 429); [destruct (rl_is_global _)|];
    reflexivity.
Qed.

Lemma settled_complete (P : Policy) (s : State) (b : BucketId) (r : Request)
    (res : TransportResult) :
  settled (complete P s b r res)
  = settled s ++ match interpret P r res with
                 | Retry _ => []
                 | Fail e => [(handle r, Rejected e)]
                 | Succeed v => [(handle r, Resolved v)]
                 end.
Proof.
  unfold complete. cbn [finish settled].
  assert (E : settled (conclude P s b r res)
              = settled s ++ match interpret P r res with
                             | Retry _ => []
                             | Fail e => [(handle r, Rejected e)]
                             | Succeed v => [(handle r, Resolved v)]
                             end).
  { unfold conclude. destruct (interpret P r res); cbn [settled];
      rewrite ?app_nil_r; reflexivity. }
  destruct res as [resp|]; [rewrite settled_feed|]; exact E.
Qed.

Lemma settled_grows (P : Policy) (s s' : State) :
  rtc (step P) s s' -> exists l, settled s' = settled s ++ l.
Proof.
  induction 1 as [s | s s1 s' Hstep _ [l IH]].
  - exists []. rewrite app_nil_r. reflexivity.
  - assert (H1 : exists l1, settled s1 = settled s ++ l1).
    { destruct Hstep as [c | b s'' Hd | b r res Hin | b h | d |].
      - exists []. rewrite app_nil_r. unfold submit.
        destruct (get_or_create _ _). reflexivity.
      - destruct (dispatch_effect _ _ _ Hd)
          as (r & q & _ & _ & _ & _ & _ & _ & -> & _).
        exists []. rewrite app_nil_r. reflexivity.
      - rewrite settled_complete. eauto.
      - exists []. rewrite app_nil_r. reflexivity.
      - exists []. rewrite app_nil_r. reflexivity.
      - exists []. rewrite app_nil_r. reflexivity. }
    destruct H1 as [l1 H1]. exists (l1 ++ l). rewrite IH, H1, app_assoc. reflexivity.
Qed.

Lemma count_one {A} (l : list (Handle * A)) (x : Handle) (a : A) :
  NoDup l.*1 -> (x, a) ∈ l ->
  filter (fun p => p.1 = x) l = [(x, a)].
Proof.
  induction l as [|[y a'] l IH]; intros Hnd Hin; [inversion Hin|].
  rewrite fmap_cons in Hnd. apply NoDup_cons in Hnd as [Hnot Hnd]. simpl in Hnot.
  apply elem_of_cons in Hin as [[= <- <-] | Hin].
  - rewrite filter_cons_True by reflexivity. f_equal.
    apply filter_none. intros [z c] Hz Hzx. simpl in Hzx. subst z.
    apply Hnot. apply list_elem_of_fmap. exists (x, c). auto.
  - rewrite filter_cons_False; [auto|]. simpl. intros ->. apply Hnot.
    apply list_elem_of_fmap. exists (x, a). auto.
Qed.

(** C6.  When the response to a dispatched request has a status that is
    not 2xx, not 429 and not in [500,599], the interpreter fails the
    request with the HTTP error made of the status and the parsed body,
    whatever its counters; completing the request appends that one
    settlement to the log and leaves its handle owed by no bucket; and in
    every later state the log holds exactly that one settlement for the
    handle, which no bucket ever owes again: it is settled once and never
    retried. *)
Theorem terminal_status_settles_once (P : Policy) (s : State) (b : BucketId)
    (r : Request) (resp : Response) :
  reachable P s ->
  (b, r) ∈ transit s ->
  status resp <> 429 ->
  ~ (500 <= status resp <= 599) ->
  ~ (200 <= status resp <= 299) ->
  interpret P r (Responded resp)
  = Fail (HTTPError (status resp) (parseError P (body resp)))
  /\ settled (complete P s b r (Responded resp))
     = settled s
       ++ [(handle r, Rejected (HTTPError (status resp) (parseError P (body resp))))]
  /\ forall s',
       rtc (step P) (complete P s b r (Responded resp)) s' ->
       filter (fun p => p.1 = handle r) (settled s')
       = [(handle r, Rejected (HTTPError (status resp) (parseError P (body resp))))]
       /\ forall b', handle r ∉ pending s' b'.
Proof.
  intros Hs Hin H429 H5xx H2xx.
  assert (Hi : interpret P r (Responded resp)
               = Fail (HTTPError (status resp) (parseError P (body resp)))).
  { unfold interpret. cbv zeta.
    destruct (Nat.eqb_spec (status resp) 429) as [E | _]; [contradiction|].
    destruct (Nat.leb_spec 500 (status resp)), (Nat.leb_spec (status resp) 599);
      cbn [andb]; try (exfalso; apply H5xx; lia);
      destruct (Nat.leb_spec 200 (status resp)), (Nat.leb_spec (status resp) 299);
      cbn [andb negb]; try reflexivity; exfalso; apply H2xx; lia. }
  split; [exact Hi|].
  assert (Hse : settled (complete P s b r (Responded resp))
                = settled s
                  ++ [(handle r,
                       Rejected (HTTPError (status resp) (parseError P (body resp))))])
    by (rewrite settled_complete, Hi; reflexivity).
  split; [exact Hse|].
  intros s' Hs'.
  assert (Hr' : reachable P s').
  { unfold reachable. etransitivity; [|exact Hs'].
    eapply rtc_r; [exact Hs|]. apply step_complete, Hin. }
  pose proof (order_ok_reachable P s' Hr') as O.
  destruct (settled_grows P _ _ Hs') as [l Hl].
  assert (Hmem : (handle r,
                  Rejected (HTTPError (status resp) (parseError P (body resp))))
                 ∈ settled s').
  { rewrite Hl, Hse. apply elem_of_app. left. apply elem_of_app. right. left. }
  split.
  - apply count_one; [apply (settled_NoDup _ O) | exact Hmem].
  - intros b' Hb'. apply (settled_off _ O _ _ Hb').
    apply list_elem_of_fmap. eexists. split; [|exact Hmem]. reflexivity.
Qed.

(** ** Concrete runs *)

Lemma ban_on_wire_reachable : reachable samplePolicy ban_on_wire.
Proof.
  unfold reachable.
  eapply rtc_l; [apply (step_submit _ _ ban_call)|].
  eapply rtc_l; [|reflexivity].
  apply (step_dispatch _ _ 0). vm_compute. reflexivity.
Qed.


(** C4 on the run with one request dispatched. *)
Lemma one_in_flight_per_bucket_witness :
  reachable samplePolicy ban_on_wire
  /\ transit ban_on_wire = [(0, mkReq ban_call 0 0 0 0)]
  /\ forall b, length (on_wire ban_on_wire b) <= 1.
Proof.
  pose proof ban_on_wire_reachable as R.
  split; [exact R|]. split; [vm_compute; reflexivity|].
  apply (one_in_flight_per_bucket samplePolicy ban_on_wire R).
Defined.

(** C5 on a bucket whose window ends at 5000, reconciled with a stale
    [resetAt] of 1000. *)
Lemma reconcile_idempotent_and_monotone_witness :
  routes sampleStore !! ("get", "/guilds/g/bans/m") = Some 0
  /\ (resetAt <$> buckets sampleStore !! 0) = Some 5000
  /\ reconcile (reconcile sampleStore ("get", "/guilds/g/bans/m") "X" 5 3 1000)
               ("get", "/guilds/g/bans/m") "X" 5 3 1000
     = reconcile sampleStore ("get", "/guilds/g/bans/m") "X" 5 3 1000
  /\ exists b1 B1,
       routes (reconcile sampleStore ("get", "/guilds/g/bans/m") "X" 5 3 1000)
         !! ("get", "/guilds/g/bans/m") = Some b1
       /\ buckets (reconcile sampleStore ("get", "/guilds/g/bans/m") "X" 5 3 1000)
            !! b1 = Some B1
       /\ 5000 <= resetAt B1.
Proof.
  split; [vm_compute; reflexivity|]. split; [vm_compute; reflexivity|].
  destruct (reconcile_idempotent_and_monotone sampleStore
              ("get", "/guilds/g/bans/m") "X" 5 3 1000) as [Hidem Hmono].
  split; [exact Hidem|].
  apply (Hmono ("get", "/guilds/g/bans/m") 0
           (mkBucket (Authoritative "X") (Some 5) (Some 4) 5000 [] false));
    vm_compute; reflexivity.
Defined.

(** C6 on scenario B: the ban is unknown, the response a 404. *)
Lemma terminal_status_settles_once_witness :
  reachable samplePolicy ban_on_wire
  /\ (0, mkReq ban_call 0 0 0 0) ∈ transit ban_on_wire
  /\ settled (complete samplePolicy ban_on_wire 0 (mkReq ban_call 0 0 0 0)
                (Responded (bare 404 "{code: 10026, message: Unknown Ban}")))
     = [(0, Rejected (HTTPError 404 (VString "{code: 10026, message: Unknown Ban}")))].
Proof.
  pose proof ban_on_wire_reachable as R.
  assert (W : (0, mkReq ban_call 0 0 0 0) ∈ transit ban_on_wire)
    by (vm_compute; left).
  split; [exact R|]. split; [exact W|].
  destruct (terminal_status_settles_once samplePolicy ban_on_wire 0
              (mkReq ban_call 0 0 0 0)
              (bare 404 "{code: 10026, message: Unknown Ban}") R W)
    as (_ & H & _).
  - simpl. lia.
  - simpl. lia.
  - simpl. lia.
  - rewrite H. reflexivity.
Defined.

(** The wrapper hands the scheduler one request and returns its handle. *)
Example getGuildBan_through_the_scheduler :
  run (submit samplePolicy) (getGuildBan sampleEndpoints "g" "m") (init samplePolicy)
  = (ban_queued, [ban_call], Returns (FromDispatcher 0))
  /\ pending ban_queued 0 = [0].
Proof. split; vm_compute; reflexivity. Qed.

End SchedulerFacts.
